(** * Humata-AI: the document-to-text extraction pipeline

    A shallow embedding of the OCR / PDF text pipeline of [server/groq.ts]
    (image preprocessing, recognition with retry, LLM correction, chunked
    PDF merge, heading detection), followed by the properties its
    specification states about it.

    Conventions of the embedding.
    - A JavaScript string is the list of its UTF-16 code units
      ([jsstring]); [.length] is the length of that list.
    - JavaScript numbers that the code only uses as integers (indices,
      pixel coordinates, byte values, kernel sizes, angles, counts and
      sums of bytes) are [Z]: binary64 holds and adds integers exactly
      below 2^53, a bound no sum over an image in memory reaches.  The
      local mean, the threshold and the variance are binary64 numbers,
      computed with the Standard Library's specification of IEEE 754
      arithmetic ([SpecFloat], at precision 53 and maximal exponent
      1024); [undefined] in arithmetic is [NaN].  The scale factor of
      the upscale and the parameters handed to [sharp] are rationals.
    - A raw image is a [PixelBuffer]: width, height, channel count and the
      row-major, channel-interleaved bytes.
    - An [async] function that can reject is a function into [Outcome].
      The functions that reach a collaborator with a state of its own
      (recognition engine, completion service) are computations in [M],
      which threads a [State].  Of the console the state keeps one kind
      of line only, the one that tells how often preprocessing ran; all
      other console output is left out of the embedding.
    - [sharp], [Tesseract], the Groq client and [JSON.parse] are
      collaborators: interfaces ([Class]es) the pipeline is generic in.

    Part I is the embedding, Part II the properties. *)

From Stdlib Require Import ZArith QArith Qround Lqa List Bool Lia Sorted.
From Stdlib Require Import Floats.SpecFloat.
From stdpp Require Import base list.
From Equations Require Import Equations.
Import ListNotations.

Local Open Scope Z_scope.

Unset Default Proof Using.
Set Warnings "-register-all".

(* ===================================================================== *)
(** * Part I: the embedding *)
(* ===================================================================== *)

(** ** JavaScript strings *)

Module JS.

(** A string is its sequence of UTF-16 code units. *)
Abbreviation jsstring := (list N).

Definition strlen (s : jsstring) : Z := Z.of_nat (length s).

(** Relative index resolution of [String.prototype.slice]. *)
Definition relIndex (len i : Z) : Z :=
  if i <? 0 then Z.max (len + i) 0 else Z.min i len.

(** [s.slice(a, b)] *)
Definition slice (s : jsstring) (a b : Z) : jsstring :=
  let len := strlen s in
  let from := relIndex len a in
  let to := relIndex len b in
  take (Z.to_nat (to - from)) (drop (Z.to_nat from) s).

(** Scan of the code units at indices [i, i+1, ...] not above [limit],
    remembering the last index that holds [c]. *)
Fixpoint lastIndexScan (c : N) (s : jsstring) (i limit acc : Z) : Z :=
  match s with
  | [] => acc
  | x :: s' =>
      if i <=? limit
      then lastIndexScan c s' (i + 1) limit (if N.eqb x c then i else acc)
      else acc
  end.

(** [s.lastIndexOf(c, fromIndex)] for a one-character search string:
    the greatest index [k <= min(max(fromIndex,0), length-1)] with
    [s[k] = c], or [-1]. *)
Definition lastIndexOf (s : jsstring) (c : N) (fromIndex : Z) : Z :=
  lastIndexScan c s 0 (Z.min (Z.max fromIndex 0) (strlen s - 1)) (-1).

(** [s.indexOf(c)] for a one-character search string, or [-1]. *)
Fixpoint indexScan (c : N) (s : jsstring) (i : Z) : Z :=
  match s with
  | [] => -1
  | x :: s' => if N.eqb x c then i else indexScan c s' (i + 1)
  end.

Definition indexOf (s : jsstring) (c : N) : Z := indexScan c s 0.

(** [parts.join(sep)] *)
Fixpoint join (sep : jsstring) (parts : list jsstring) : jsstring :=
  match parts with
  | [] => []
  | [p] => p
  | p :: rest => p ++ sep ++ join sep rest
  end.

(** WhiteSpace and LineTerminator code units, the ones [trim] strips. *)
Definition isSpace (c : N) : bool :=
  ((9 <=? c) && (c <=? 13) || (c =? 32) || (c =? 160) || (c =? 5760)
   || (8192 <=? c) && (c <=? 8202) || (c =? 8232) || (c =? 8233)
   || (c =? 8239) || (c =? 8287) || (c =? 12288) || (c =? 65279))%N.

Fixpoint trimStart (s : jsstring) : jsstring :=
  match s with
  | c :: s' => if isSpace c then trimStart s' else s
  | [] => []
  end.

(** [s.trim()] *)
Definition trim (s : jsstring) : jsstring :=
  rev (trimStart (rev (trimStart s))).

Definition PERIOD : N := 46.
Definition NEWLINE : N := 10.
Definition LBRACKET : N := 91.
Definition RBRACKET : N := 93.

(** Values produced by [JSON.parse]. *)
Inductive JSValue :=
| JNull
| JBool (b : bool)
| JNumber (q : Q)
| JString (s : jsstring)
| JArray (items : list JSValue)
| JObject (fields : list (jsstring * JSValue)).

(** Own-property lookup on a parsed object; the first entry of the
    association list is the property's current value. *)
Fixpoint field (name : jsstring) (fields : list (jsstring * JSValue))
  : option JSValue :=
  match fields with
  | [] => None
  | (k, v) :: rest => if decide (k = name) then Some v else field name rest
  end.

(** The string "undefined". *)
Definition UNDEFINED : jsstring :=
  [117; 110; 100; 101; 102; 105; 110; 101; 100]%N.

End JS.
Import JS.

(** ** Rejections, and the two monads *)

Module Effects.

(** A thrown [Error], by its message. *)
Inductive Exn := Error (message : jsstring).

(** The result of awaiting a promise. *)
Inductive Outcome (A : Type) :=
| Ok (a : A)
| Throw (e : Exn).
Arguments Ok {A} a.
Arguments Throw {A} e.

#[export] Instance Outcome_ret : MRet Outcome := fun A a => Ok a.
#[export] Instance Outcome_bind : MBind Outcome := fun A B k m =>
  match m with
  | Ok a => k a
  | Throw e => Throw e
  end.

(** [try { m } catch (e) { h e }] *)
Definition tryCatch {A} (m : Outcome A) (h : Exn -> Outcome A) : Outcome A :=
  match m with
  | Ok a => Ok a
  | Throw e => h e
  end.

(** The console lines the embedding keeps: the first line
    [preprocessImageForOCR] writes on every call,
    "[OCR-Preprocess] Starting advanced image preprocessing pipeline
    (attempt N)".  Every other [console.log] and [console.error] of the
    source is left out, so the [console] of a [State] counts the runs of
    the preprocessing and says nothing else about what was written. *)
Inductive LogEntry := LogPreprocessStart (attempt : Z).

Record State (World : Type) := mkState {
  world : World;
  console : list LogEntry;
}.
Arguments mkState {World} world console.
Arguments world {World} s.
Arguments console {World} s.

(** Computations over the collaborators' world and the console. *)
Definition M (World : Type) (A : Type) : Type :=
  State World -> Outcome A * State World.

#[export] Instance M_ret {World} : MRet (M World) := fun A a st => (Ok a, st).
#[export] Instance M_bind {World} : MBind (M World) := fun A B k m st =>
  match m st with
  | (Ok a, st') => k a st'
  | (Throw e, st') => (Throw e, st')
  end.

Definition tryCatchM {World A} (m : M World A) (h : Exn -> M World A)
  : M World A :=
  fun st =>
    match m st with
    | (Ok a, st') => (Ok a, st')
    | (Throw e, st') => h e st'
    end.

Definition liftOutcome {World A} (o : Outcome A) : M World A :=
  fun st => (o, st).

Definition consoleLog {World} (entry : LogEntry) : M World unit :=
  fun st => (Ok tt, mkState (world st) (console st ++ [entry])).

(** A collaborator call: it sees and changes the world only. *)
Definition callWorld {World A} (f : World -> Outcome A * World) : M World A :=
  fun st =>
    let (r, w) := f (world st) in (r, mkState w (console st)).

End Effects.
Import Effects.

Declare Scope monad_scope.
Notation "x <- m ;; k" := (mbind (fun x => k) m)
  (at level 100, m at next level, right associativity, only parsing)
  : monad_scope.
Local Open Scope monad_scope.

(** ** Collaborator interfaces *)

(** A decoded image: [info.width], [info.height], [info.channels] and
    the raw [data]. *)
Record PixelBuffer := mkPixelBuffer {
  width : Z;
  height : Z;
  channels : Z;
  data : list Z;
}.

(** What [sharp(...).metadata()] reports; a field may be absent. *)
Record Metadata := mkMetadata {
  md_width : option Z;
  md_height : option Z;
}.

(** The calls the pipeline makes to [sharp].  Every call ends in
    [.toBuffer()]; the names say which operations precede it. *)
Class ImageCodec (Buffer : Type) := {
  (** [sharp(b).metadata()] *)
  metadata : Buffer -> Outcome Metadata;
  (** [sharp(b).grayscale().png().toBuffer()] *)
  grayscalePng : Buffer -> Outcome Buffer;
  (** [sharp(b).normalize().png().toBuffer()] *)
  normalizePng : Buffer -> Outcome Buffer;
  (** [sharp(b).linear(a, c).png().toBuffer()] *)
  linearPng : Q -> Q -> Buffer -> Outcome Buffer;
  (** [sharp(b).median(n).png().toBuffer()] *)
  medianPng : Z -> Buffer -> Outcome Buffer;
  (** [sharp(b).sharpen({ sigma }).png().toBuffer()] *)
  sharpenPng : Q -> Buffer -> Outcome Buffer;
  (** [sharp(b).resize(w, h, { kernel: lanczos3,
      withoutEnlargement: false }).png().toBuffer()] *)
  resizePng : Z -> Z -> Buffer -> Outcome Buffer;
  (** [sharp(b).rotate(angle, { background: white }).png().toBuffer()] *)
  rotatePng : Z -> Buffer -> Outcome Buffer;
  (** [sharp(b).grayscale().normalize().sharpen().png().toBuffer()] *)
  grayscaleNormalizeSharpenPng : Buffer -> Outcome Buffer;
  (** [sharp(b).raw().toBuffer({ resolveWithObject: true })] *)
  raw : Buffer -> Outcome PixelBuffer;
  (** [sharp(data, { raw: { width, height, channels } }).png().toBuffer()] *)
  fromRawPng : PixelBuffer -> Outcome Buffer;
  (** [Buffer.from(base64Data, "base64")] *)
  fromBase64 : jsstring -> Buffer;
}.

(** [Tesseract.recognize(buffer, "ara+eng", ...)], by the
    [result.data.text] it resolves to. *)
Class RecognitionEngine (Buffer World : Type) := {
  recognize : Buffer -> World -> Outcome jsstring * World;
}.

(** The four prompts sent to the completion service, by the data the
    template interpolates. *)
Inductive Prompt :=
| MergePrompt (rawText : jsstring) (numPages : Z)
| CleanPrompt (chunk : jsstring) (isFirst isLast : bool)
| HeadingPrompt (textToProcess : jsstring)
| CorrectionPrompt (rawText : jsstring).

(** [groq.chat.completions.create(...)], by
    [completion.choices[0]?.message?.content] ([None] when absent), and
    the module constant [GROQ_API_KEY]. *)
Class TextCompletion (World : Type) := {
  GROQ_API_KEY : option jsstring;
  chatCompletion : Prompt -> World -> Outcome (option jsstring) * World;
}.

(** [JSON.parse] and number formatting. *)
Class JsonRuntime := {
  JSON_parse : jsstring -> Outcome JSValue;
  numberToString : Q -> jsstring;
}.

(** [!GROQ_API_KEY]: the key is undefined or empty. *)
Definition noApiKey `{TextCompletion World} : bool :=
  match GROQ_API_KEY with
  | Some (_ :: _) => false
  | _ => true
  end.

(** ** Loops and raw byte access *)

Module Loops.

(** [for (let i = lo; i < hi; i++) s = body i s] *)
Definition forRange {S : Type} (lo hi : Z) (body : Z -> S -> S) (s : S) : S :=
  fold_left (fun s i => body i s) (seqZ lo (hi - lo)) s.

Fixpoint forWhileList {S : Type} (cond : S -> bool) (body : Z -> S -> S)
  (l : list Z) (s : S) : S :=
  match l with
  | [] => s
  | i :: l' => if cond s then forWhileList cond body l' (body i s) else s
  end.

(** [for (let i = lo; i < hi && cond s; i++) s = body i s] *)
Definition forRangeWhile {S : Type} (lo hi : Z) (cond : S -> bool)
  (body : Z -> S -> S) (s : S) : S :=
  forWhileList cond body (seqZ lo (hi - lo)) s.

(** [data[idx]]; [None] is the [undefined] of an index out of range. *)
Definition readByte (data : list Z) (idx : Z) : option Z :=
  if idx <? 0 then None else data !! Z.to_nat idx.

(** [v < k] and [v >= k]; both are false on [undefined]. *)
Definition ltNum (v : option Z) (k : Z) : bool :=
  match v with Some n => n <? k | None => false end.

Definition geNum (v : option Z) (k : Z) : bool :=
  match v with Some n => k <=? n | None => false end.

(** The number read from [data[idx]] where the code adds it up; the
    index is in range whenever the buffer has [width*height*channels]
    bytes, and 0 stands for the [undefined] never read. *)
Definition byteValue (data : list Z) (idx : Z) : Z :=
  match readByte data idx with Some n => n | None => 0 end.

(** [out[idx] = v]; a write out of range is dropped. *)
Definition writeByte (out : list Z) (idx v : Z) : list Z :=
  if idx <? 0 then out else <[Z.to_nat idx := v]> out.

(** [for (let c = 0; c < channels; c++) out[idx + c] = v] *)
Definition writePixel (channels idx v : Z) (out : list Z) : list Z :=
  forRange 0 channels (fun c out => writeByte out (idx + c) v) out.

End Loops.
Import Loops.

(** ** Binary64 numbers *)

Module Float64.

(** A JavaScript number where the code computes with fractions: an
    IEEE 754 binary64 value. *)
Abbreviation float64 := spec_float.

Definition prec : Z := 53.
Definition emax : Z := 1024.

Definition NaN : float64 := S754_nan.

(** An integer as a number: the nearest binary64 value, the integer
    itself below 2^53. *)
Definition ofZ (z : Z) : float64 := binary_normalize prec emax z 0 false.

(** An array element as a number: [undefined] is [NaN]. *)
Definition ofNumber (v : option Z) : float64 :=
  match v with Some n => ofZ n | None => NaN end.

(** [a + b], [a - b], [a * b], [a / b], rounded to nearest, ties to
    even. *)
Definition fadd : float64 -> float64 -> float64 := SFadd prec emax.
Definition fsub : float64 -> float64 -> float64 := SFsub prec emax.
Definition fmul : float64 -> float64 -> float64 := SFmul prec emax.
Definition fdiv : float64 -> float64 -> float64 := SFdiv prec emax.

(** The literal [0.5]. *)
Definition oneHalf : float64 := S754_finite false 4503599627370496 (-53).

(** [a < b] and [a <= b]; both are false when an operand is [NaN].
    The code's [a > b] is [fltb b a]. *)
Definition fltb : float64 -> float64 -> bool := SFltb.
Definition fleb : float64 -> float64 -> bool := SFleb.

End Float64.
Import Float64.

(** ** Morphology: [applyDilation], [applyErosion] *)

Module Morphology.

(** The pixel loop of [applyDilation]: every dark source pixel darkens
    its whole neighbourhood in the output. *)
Definition dilatePixels (img : PixelBuffer) (kernelSize : Z) : PixelBuffer :=
  let data := data img in
  let width := width img in
  let height := height img in
  let channels := channels img in
  let half := kernelSize / 2 in
  let outputData := replicate (length data) 255 in
  let outputData :=
    forRange 0 height (fun y =>
      forRange 0 width (fun x outputData =>
        let idx := (y * width + x) * channels in
        if ltNum (readByte data idx) 128 then
          forRange (- half) (half + 1) (fun dy =>
            forRange (- half) (half + 1) (fun dx outputData =>
              let ny := y + dy in
              let nx := x + dx in
              if (0 <=? ny) && (ny <? height) && (0 <=? nx) && (nx <? width)
              then
                let nidx := (ny * width + nx) * channels in
                writePixel channels nidx 0 outputData
              else outputData)) outputData
        else outputData)) outputData in
  mkPixelBuffer width height channels outputData.

(** The neighbourhood test of [applyErosion] at pixel [(x, y)]: the
    two loops leave as soon as [allBlack] is false. *)
Definition allBlackAt (img : PixelBuffer) (half y x : Z) : bool :=
  forRangeWhile (- half) (half + 1) (fun allBlack => allBlack) (fun dy =>
    forRangeWhile (- half) (half + 1) (fun allBlack => allBlack)
      (fun dx allBlack =>
         let ny := y + dy in
         let nx := x + dx in
         if (0 <=? ny) && (ny <? height img) && (0 <=? nx) && (nx <? width img)
         then
           let nidx := (ny * width img + nx) * channels img in
           if geNum (readByte (data img) nidx) 128 then false else allBlack
         else false)) true.

(** The pixel loop of [applyErosion]. *)
Definition erodePixels (img : PixelBuffer) (kernelSize : Z) : PixelBuffer :=
  let data := data img in
  let width := width img in
  let height := height img in
  let channels := channels img in
  let half := kernelSize / 2 in
  let outputData := replicate (length data) 255 in
  let outputData :=
    forRange 0 height (fun y =>
      forRange 0 width (fun x outputData =>
        let idx := (y * width + x) * channels in
        if allBlackAt img half y x
        then writePixel channels idx 0 outputData
        else outputData)) outputData in
  mkPixelBuffer width height channels outputData.

Section WithCodec.
Context {Buffer : Type} `{!ImageCodec Buffer}.

Definition applyDilation (imageBuffer : Buffer) (kernelSize : Z)
  : Outcome Buffer :=
  img <- raw imageBuffer ;;
  fromRawPng (dilatePixels img kernelSize).

Definition applyErosion (imageBuffer : Buffer) (kernelSize : Z)
  : Outcome Buffer :=
  img <- raw imageBuffer ;;
  fromRawPng (erodePixels img kernelSize).

Definition applyMorphologicalClosing (imageBuffer : Buffer) (kernelSize : Z)
  : Outcome Buffer :=
  dilated <- applyDilation imageBuffer kernelSize ;;
  applyErosion dilated kernelSize.

Definition applyMorphologicalOpening (imageBuffer : Buffer) (kernelSize : Z)
  : Outcome Buffer :=
  eroded <- applyErosion imageBuffer kernelSize ;;
  applyDilation eroded kernelSize.

End WithCodec.

End Morphology.

(** ** Adaptive threshold: [applyAdaptiveThreshold] *)

Module Threshold.

(** [integral[i]] of the [Float64Array] while the table is built; every
    index read there is in range for the table's
    [(width+1)*(height+1)] cells.  The entries are sums of bytes, kept
    in [Z]. *)
Definition cell (integral : list Z) (i : Z) : Z :=
  match readByte integral i with Some n => n | None => 0 end.

(** The first pair of loops: the summed-area table over channel 0. *)
Definition buildIntegral (img : PixelBuffer) : list Z :=
  let data := data img in
  let width := width img in
  let height := height img in
  let channels := channels img in
  let integral := replicate (Z.to_nat ((width + 1) * (height + 1))) 0 in
  forRange 0 height (fun y integral =>
    snd (forRange 0 width (fun x '(rowSum, integral) =>
           let idx := (y * width + x) * channels in
           let rowSum := rowSum + byteValue data idx in
           (rowSum,
            writeByte integral ((y + 1) * (width + 1) + (x + 1))
              (cell integral (y * (width + 1) + (x + 1)) + rowSum)))
         (0, integral))) integral.

(** [a - b - c + d] on four cells of the table: an integer when all
    four indices are in range, [NaN] when one of them reads
    [undefined]. *)
Definition cornerSum (a b c d : option Z) : float64 :=
  match a, b, c, d with
  | Some a, Some b, Some c, Some d => ofZ (a - b - c + d)
  | _, _, _, _ => NaN
  end.

(** [newValue] of the pixel at [(x, y)]. *)
Definition thresholdValue (img : PixelBuffer) (integral : list Z)
  (halfBlock : Z) (C : float64) (y x : Z) : Z :=
  let width := width img in
  let height := height img in
  let x1 := Z.max 0 (x - halfBlock) in
  let y1 := Z.max 0 (y - halfBlock) in
  let x2 := Z.min (width - 1) (x + halfBlock) in
  let y2 := Z.min (height - 1) (y + halfBlock) in
  let area := (x2 - x1 + 1) * (y2 - y1 + 1) in
  let sum :=
    cornerSum (readByte integral ((y2 + 1) * (width + 1) + (x2 + 1)))
              (readByte integral ((y2 + 1) * (width + 1) + x1))
              (readByte integral (y1 * (width + 1) + (x2 + 1)))
              (readByte integral (y1 * (width + 1) + x1)) in
  let localMean := fdiv sum (ofZ area) in
  let idx := (y * width + x) * channels img in
  let pixelValue := ofNumber (readByte (data img) idx) in
  let threshold := fsub localMean C in
  if fltb threshold pixelValue then 255 else 0.

(** The pixel loops of [applyAdaptiveThreshold]. *)
Definition thresholdPixels (img : PixelBuffer) (blockSize : Z) (C : float64)
  : PixelBuffer :=
  let data := data img in
  let width := width img in
  let height := height img in
  let channels := channels img in
  let integral := buildIntegral img in
  let outputData := replicate (length data) 0 in
  let halfBlock := blockSize / 2 in
  let outputData :=
    forRange 0 height (fun y =>
      forRange 0 width (fun x outputData =>
        let newValue := thresholdValue img integral halfBlock C y x in
        let idx := (y * width + x) * channels in
        writePixel channels idx newValue outputData)) outputData in
  mkPixelBuffer width height channels outputData.

Definition applyAdaptiveThreshold {Buffer : Type} `{!ImageCodec Buffer}
  (imageBuffer : Buffer) (blockSize : Z) (C : float64) : Outcome Buffer :=
  img <- raw imageBuffer ;;
  fromRawPng (thresholdPixels img blockSize C).

End Threshold.

(** ** Skew estimation: [estimateSkewAngle], [applyDeskew] *)

Module Skew.

Import Threshold.

Definition testAngles : list Z := [-5; -4; -3; -2; -1; 0; 1; 2; 3; 4; 5].

(** [rowSums]: for each row, the number of pixels whose first channel
    is below 128. *)
Definition darkRowCounts (rot : PixelBuffer) : list Z :=
  forRange 0 (height rot) (fun y rowSums =>
    let rowSum :=
      forRange 0 (width rot) (fun x rowSum =>
        let idx := (y * width rot + x) * channels rot in
        rowSum + (if ltNum (readByte (data rot) idx) 128 then 1 else 0)) 0 in
    rowSums ++ [rowSum]) [].

(** [mean] and [variance] of the row counts.  The sum of the counts is
    an integer; the quotients, the differences, their squares
    ([Math.pow(d, 2)] is [d * d]) and the sum of the squares are
    binary64. *)
Definition rowMean (rowSums : list Z) : float64 :=
  fdiv (ofZ (fold_left Z.add rowSums 0))
       (ofZ (Z.of_nat (length rowSums))).

Definition rowVariance (rowSums : list Z) : float64 :=
  let mean := rowMean rowSums in
  fdiv (fold_left (fun sum val =>
                     let d := fsub (ofZ val) mean in
                     fadd sum (fmul d d)) rowSums (ofZ 0))
       (ofZ (Z.of_nat (length rowSums))).

(** [for (const a of l) s = await body a s], leaving at the first
    rejection. *)
Fixpoint forOf {A S : Type} (l : list A) (body : A -> S -> Outcome S) (s : S)
  : Outcome S :=
  match l with
  | [] => Ok s
  | a :: l' => s' <- body a s ;; forOf l' body s'
  end.

(** The update of [(bestAngle, maxVariance)] at the end of the loop
    body. *)
Definition keepBest (angle : Z) (variance : float64) (best : Z * float64)
  : Z * float64 :=
  if fltb (snd best) variance then (angle, variance) else best.

Section WithCodec.
Context {Buffer : Type} `{!ImageCodec Buffer}.

(** The variance measured for one candidate angle. *)
Definition angleVariance (imageBuffer : Buffer) (angle : Z)
  : Outcome float64 :=
  rotatedBuffer <- rotatePng angle imageBuffer ;;
  rot <- raw rotatedBuffer ;;
  mret (rowVariance (darkRowCounts rot)).

Definition estimateSkewAngle (imageBuffer : Buffer) : Outcome Z :=
  tryCatch
    (_ <- raw imageBuffer ;;
     best <- forOf testAngles (fun angle best =>
               variance <- angleVariance imageBuffer angle ;;
               mret (keepBest angle variance best)) (0, ofZ 0) ;;
     mret (fst best))
    (fun _ => mret 0).

Definition applyDeskew (imageBuffer : Buffer) : Outcome Buffer :=
  skewAngle <- estimateSkewAngle imageBuffer ;;
  if fltb (ofZ (Z.abs skewAngle)) oneHalf
  then mret imageBuffer
  else rotatePng skewAngle imageBuffer.

End WithCodec.

End Skew.

(** ** The preprocessing pipeline: [preprocessImageForOCR] *)

Module Preprocess.

Import Threshold Skew Morphology.

(** [v || d] on an optional number: absent and 0 are falsy. *)
Definition orDefault (v : option Z) (d : Z) : Z :=
  match v with
  | Some n => if n =? 0 then d else n
  | None => d
  end.

Definition Qmax2 (a b : Q) : Q := if Qle_bool a b then b else a.

(** [Math.round] *)
Definition round (x : Q) : Z := Qfloor (x + (1 # 2)).

Section WithCodec.
Context {Buffer : Type} `{!ImageCodec Buffer}.

(** Step 6, the conditional upscale.  The scale factor and the two
    products are taken in exact rationals; in binary64 a product can
    fall on the other side of a half, and the rounded size then differs
    by one. *)
Definition smartResize (md : Metadata) (processedBuffer : Buffer)
  : Outcome Buffer :=
  let width := orDefault (md_width md) 800 in
  let height := orDefault (md_height md) 600 in
  if (width <? 1000) || (height <? 1000) then
    let scaleFactor :=
      Qmax2 (Qmax2 (1000 / inject_Z width) (1000 / inject_Z height))%Q
            (3 # 2) in
    let newWidth := round (inject_Z width * scaleFactor) in
    let newHeight := round (inject_Z height * scaleFactor) in
    resizePng newWidth newHeight processedBuffer
  else mret processedBuffer.

(** The body of the [try] block: the ten stages. *)
Definition tenStages (imageBuffer : Buffer) (attempt : Z) : Outcome Buffer :=
  md <- metadata imageBuffer ;;
  processedBuffer <- grayscalePng imageBuffer ;;
  processedBuffer <- normalizePng processedBuffer ;;
  let contrastMultiplier := if attempt =? 1 then 13 # 10 else 3 # 2 in
  processedBuffer <- linearPng contrastMultiplier (-20) processedBuffer ;;
  processedBuffer <- medianPng 3 processedBuffer ;;
  processedBuffer <- sharpenPng (3 # 2) processedBuffer ;;
  processedBuffer <- smartResize md processedBuffer ;;
  processedBuffer <- applyDeskew processedBuffer ;;
  let blockSize := if attempt =? 1 then 21 else 31 in
  let thresholdC := if attempt =? 1 then 8 else 12 in
  processedBuffer <-
    applyAdaptiveThreshold processedBuffer blockSize (ofZ thresholdC) ;;
  let closingKernelSize := if attempt =? 1 then 3 else 5 in
  processedBuffer <-
    applyMorphologicalClosing processedBuffer closingKernelSize ;;
  let openingKernelSize := if attempt =? 1 then 2 else 3 in
  processedBuffer <-
    applyMorphologicalOpening processedBuffer openingKernelSize ;;
  mret processedBuffer.

(** The [catch] block: the simplified retry is tried on a first attempt
    only; the grayscale-only result is returned as it is. *)
Definition degrade (imageBuffer : Buffer) (attempt : Z) : Outcome Buffer :=
  if attempt <? 2
  then tryCatch (grayscaleNormalizeSharpenPng imageBuffer)
         (fun _ => grayscalePng imageBuffer)
  else grayscalePng imageBuffer.

(** What [preprocessImageForOCR] resolves or rejects with. *)
Definition preprocessOutcome (imageBuffer : Buffer) (attempt : Z)
  : Outcome Buffer :=
  tryCatch (tenStages imageBuffer attempt)
    (fun _ => degrade imageBuffer attempt).

Definition preprocessImageForOCR {World : Type} (imageBuffer : Buffer)
  (attempt : Z) : M World Buffer :=
  _ <- consoleLog (LogPreprocessStart attempt) ;;
  liftOutcome (preprocessOutcome imageBuffer attempt).

End WithCodec.

End Preprocess.

(** ** Text correction: [correctArabicOCRText] *)

Module Corrector.

(** [content?.trim()] followed by the falsy test: [None] when the
    content is absent or trims to the empty string. *)
Definition trimmedContent (content : option jsstring) : option jsstring :=
  match content with
  | Some text =>
      match trim text with
      | [] => None
      | t => Some t
      end
  | None => None
  end.

Definition correctArabicOCRText {World : Type} `{!TextCompletion World}
  (rawText : jsstring) : M World jsstring :=
  if noApiKey then mret rawText
  else if strlen rawText <? 5 then mret rawText
  else
    tryCatchM
      (content <- callWorld (chatCompletion (CorrectionPrompt rawText)) ;;
       match trimmedContent content with
       | None => mret rawText
       | Some correctedText => mret correctedText
       end)
      (fun _ => mret rawText).

End Corrector.

(** ** Recognition with retry: [extractTextFromImageWithOCR] *)

Module Recognition.

Import Preprocess Corrector.

(** "[صورة - لم يتم العثور على نص قابل للقراءة في الصورة]" *)
Definition NO_TEXT_FOUND : jsstring :=
  [91; 1589; 1608; 1585; 1577; 32; 45; 32; 1604; 1605; 32; 1610; 1578; 1605;
   32; 1575; 1604; 1593; 1579; 1608; 1585; 32; 1593; 1604; 1609; 32; 1606;
   1589; 32; 1602; 1575; 1576; 1604; 32; 1604; 1604; 1602; 1585; 1575; 1569;
   1577; 32; 1601; 1610; 32; 1575; 1604; 1589; 1608; 1585; 1577; 93]%N.

(** "[صورة - فشل في استخراج النص من الصورة]" *)
Definition EXTRACTION_FAILED : jsstring :=
  [91; 1589; 1608; 1585; 1577; 32; 45; 32; 1601; 1588; 1604; 32; 1601; 1610;
   32; 1575; 1587; 1578; 1582; 1585; 1575; 1580; 32; 1575; 1604; 1606; 1589;
   32; 1605; 1606; 32; 1575; 1604; 1589; 1608; 1585; 1577; 93]%N.

(** "[نص مستخرج من الصورة باستخدام OCR المحسّن]:" and a newline *)
Definition OCR_HEADER : jsstring :=
  [91; 1606; 1589; 32; 1605; 1587; 1578; 1582; 1585; 1580; 32; 1605; 1606;
   32; 1575; 1604; 1589; 1608; 1585; 1577; 32; 1576; 1575; 1587; 1578; 1582;
   1583; 1575; 1605; 32; 79; 67; 82; 32; 1575; 1604; 1605; 1581; 1587; 1617;
   1606; 93; 58; 10]%N.

Section WithCollaborators.
Context {Buffer World : Type}.
Context `{!ImageCodec Buffer, !RecognitionEngine Buffer World,
          !TextCompletion World}.

(** Phase 3 and the final template. *)
Definition correctAndWrap (rawText : jsstring) : M World jsstring :=
  correctedText <- correctArabicOCRText rawText ;;
  mret (OCR_HEADER ++ correctedText).

Definition extractTextFromImageWithOCR (base64Data mimeType : jsstring)
  : M World jsstring :=
  tryCatchM
    (let originalBuffer := fromBase64 base64Data in
     processedBuffer <- preprocessImageForOCR originalBuffer 1 ;;
     text <- callWorld (recognize processedBuffer) ;;
     let rawText := trim text in
     if strlen rawText <? 3 then
       processedBuffer <- preprocessImageForOCR originalBuffer 2 ;;
       text <- callWorld (recognize processedBuffer) ;;
       let rawText := trim text in
       if strlen rawText <? 3 then mret NO_TEXT_FOUND
       else correctAndWrap rawText
     else correctAndWrap rawText)
    (fun _ => mret EXTRACTION_FAILED).

End WithCollaborators.

End Recognition.

(** ** The document merger: [smartMergeMultiPagePDF] *)

Module Merger.

Import Corrector.

Definition MAX_CHARS_PER_CHUNK : Z := 6000.

(** [endPos] at the end of one iteration of the [while] loop. *)
Definition chunkEnd (rawText : jsstring) (currentPos : Z) : Z :=
  let endPos := Z.min (currentPos + MAX_CHARS_PER_CHUNK) (strlen rawText) in
  if endPos <? strlen rawText then
    let lastPeriod := lastIndexOf rawText PERIOD endPos in
    let lastNewline := lastIndexOf rawText NEWLINE endPos in
    let breakPoint := Z.max lastPeriod lastNewline in
    if breakPoint >? currentPos + MAX_CHARS_PER_CHUNK / 2
    then breakPoint + 1
    else endPos
  else endPos.

(** The [while (currentPos < rawText.length)] loop: each iteration pushes
    [rawText.slice(currentPos, endPos)] and moves to [endPos]. *)
Equations? chunkLoop (rawText : jsstring) (currentPos : Z)
  (chunks : list jsstring) : list jsstring
  by wf (Z.to_nat (strlen rawText - currentPos)) lt :=
chunkLoop rawText currentPos chunks with Z_lt_dec currentPos (strlen rawText) => {
  | left _ =>
      let endPos := chunkEnd rawText currentPos in
      chunkLoop rawText endPos (chunks ++ [slice rawText currentPos endPos]);
  | right _ => chunks }.
Proof.
  assert (currentPos < chunkEnd rawText currentPos); [|lia].
  unfold chunkEnd, MAX_CHARS_PER_CHUNK. change (6000 / 2) with 3000.
  repeat match goal with
         | |- context [if ?b then _ else _] =>
             let E := fresh "E" in destruct b eqn:E
         end; lia.
Qed.

(** [chunks] when the loop is left. *)
Definition splitIntoChunks (rawText : jsstring) : list jsstring :=
  chunkLoop rawText 0 [].

(** [for (let i = 0; i < items.length; i++) out.push(await f i items[i])] *)
Fixpoint mapIndexed {World A B : Type} (f : Z -> A -> M World B) (i : Z)
  (items : list A) : M World (list B) :=
  match items with
  | [] => mret []
  | a :: rest =>
      b <- f i a ;;
      bs <- mapIndexed f (i + 1) rest ;;
      mret (b :: bs)
  end.

Section WithCompletion.
Context {World : Type} `{!TextCompletion World}.

Definition processSingleChunk (rawText : jsstring) (numPages : Z)
  : M World jsstring :=
  tryCatchM
    (content <- callWorld (chatCompletion (MergePrompt rawText numPages)) ;;
     match trimmedContent content with
     | None => mret rawText
     | Some mergedText => mret mergedText
     end)
    (fun _ => mret rawText).

Definition cleanPDFChunk (chunk : jsstring) (isFirst isLast : bool)
  : M World jsstring :=
  content <- callWorld (chatCompletion (CleanPrompt chunk isFirst isLast)) ;;
  match trimmedContent content with
  | None => mret chunk
  | Some cleaned => mret cleaned
  end.

Definition smartMergeMultiPagePDF (rawText : jsstring) (numPages : Z)
  : M World jsstring :=
  if noApiKey then mret rawText
  else if strlen rawText <? 50 then mret rawText
  else if strlen rawText <=? MAX_CHARS_PER_CHUNK
  then processSingleChunk rawText numPages
  else
    let chunks := splitIntoChunks rawText in
    processedChunks <-
      mapIndexed (fun i chunk =>
        tryCatchM
          (cleanPDFChunk chunk (i =? 0) (i =? Z.of_nat (length chunks) - 1))
          (fun _ => mret chunk)) 0 chunks ;;
    mret (join [NEWLINE; NEWLINE] processedChunks).

End WithCompletion.

End Merger.

(** ** Heading detection: [detectHeadingsFromText] *)

Module Structure.

Import Corrector.

Record StructuredDocument := mkStructuredDocument {
  sections : JSValue;
  plainText : jsstring;
}.

Definition str_type : jsstring := [116; 121; 112; 101]%N.
Definition str_main : jsstring := [109; 97; 105; 110]%N.
Definition str_title : jsstring := [116; 105; 116; 108; 101]%N.
Definition str_content : jsstring := [99; 111; 110; 116; 101; 110; 116]%N.

(** "المحتوى" *)
Definition DEFAULT_TITLE : jsstring :=
  [1575; 1604; 1605; 1581; 1578; 1608; 1609]%N.

Definition MAX_CHARS : Z := 8000.

(** [{ sections: [{ type: "main", title: "المحتوى", content: rawText }],
      plainText: rawText }] *)
Definition defaultResult (rawText : jsstring) : StructuredDocument :=
  mkStructuredDocument
    (JArray [JObject [(str_type, JString str_main);
                      (str_title, JString DEFAULT_TITLE);
                      (str_content, JString rawText)]])
    rawText.

(** [responseText.match(/\[[\s\S]*\]/)]: the span from the first '[' to
    the last ']' after it. *)
Definition matchJsonArray (responseText : jsstring) : option jsstring :=
  let first := indexOf responseText LBRACKET in
  let last := lastIndexOf responseText RBRACKET (strlen responseText) in
  if (0 <=? first) && (first <? last)
  then Some (slice responseText first (last + 1))
  else None.

Definition typeError : Exn := Error [].

(** "toString" *)
Definition str_toString : jsstring :=
  [116; 111; 83; 116; 114; 105; 110; 103]%N.

Section WithRuntime.
Context `{!JsonRuntime}.

(** [ToString] of a parsed value, as a template literal applies it.
    An array prints its elements separated by commas, [null] elements
    as nothing.  An object prints as "[object Object]", unless it has
    an own property "toString": no parsed value is callable, so the
    conversion then throws a [TypeError].  [numberToString] is
    [Number.prototype.toString]. *)
Fixpoint toStringJS (v : JSValue) : Outcome jsstring :=
  match v with
  | JNull => mret [110; 117; 108; 108]%N
  | JBool true => mret [116; 114; 117; 101]%N
  | JBool false => mret [102; 97; 108; 115; 101]%N
  | JNumber q => mret (numberToString q)
  | JString s => mret s
  | JArray items =>
      parts <-
        (fix elements (l : list JSValue) : Outcome (list jsstring) :=
           match l with
           | [] => mret []
           | item :: rest =>
               part <- match item with
                       | JNull => mret []
                       | _ => toStringJS item
                       end ;;
               parts <- elements rest ;;
               mret (part :: parts)
           end) items ;;
      mret (join [44%N] parts)
  | JObject fields =>
      match field str_toString fields with
      | Some _ => Throw typeError
      | None =>
          mret [91; 111; 98; 106; 101; 99; 116; 32; 79; 98; 106; 101; 99;
                116; 93]%N
      end
  end.

(** [s.name] inside a template literal: reading a property of [null]
    throws, a missing property prints as "undefined", and a property
    that cannot be converted to a string throws. *)
Definition templateField (s : JSValue) (name : jsstring) : Outcome jsstring :=
  match s with
  | JNull => Throw typeError
  | JObject fields =>
      match field name fields with
      | Some v => toStringJS v
      | None => mret UNDEFINED
      end
  | _ => mret UNDEFINED
  end.

(** [`${s.title}\n\n${s.content}`] *)
Definition sectionText (s : JSValue) : Outcome jsstring :=
  title <- templateField s str_title ;;
  content <- templateField s str_content ;;
  mret (title ++ [NEWLINE; NEWLINE] ++ content).

Fixpoint mapOutcome {A B : Type} (f : A -> Outcome B) (l : list A)
  : Outcome (list B) :=
  match l with
  | [] => mret []
  | a :: rest => b <- f a ;; bs <- mapOutcome f rest ;; mret (b :: bs)
  end.

(** [sections.map(s => ...).join("\n\n")]; [map] exists on arrays only. *)
Definition sectionsPlainText (sections : JSValue) : Outcome jsstring :=
  match sections with
  | JArray items =>
      texts <- mapOutcome sectionText items ;;
      mret (join [NEWLINE; NEWLINE] texts)
  | _ => Throw typeError
  end.

Context {World : Type} `{!TextCompletion World}.

(** The part of the outer [try] block after [responseText] is known to
    be non-empty. *)
Definition structureResponse (rawText responseText : jsstring)
  : Outcome StructuredDocument :=
  match matchJsonArray responseText with
  | Some jsonMatch =>
      match JSON_parse jsonMatch with
      | Ok sections =>
          plainText <- sectionsPlainText sections ;;
          mret (mkStructuredDocument sections plainText)
      | Throw _ => mret (defaultResult rawText)
      end
  | None => mret (defaultResult rawText)
  end.

Definition detectHeadingsFromText (rawText : jsstring)
  : M World StructuredDocument :=
  if noApiKey then mret (defaultResult rawText)
  else if strlen rawText <? 100 then mret (defaultResult rawText)
  else
    let textToProcess :=
      if strlen rawText >? MAX_CHARS then slice rawText 0 MAX_CHARS
      else rawText in
    tryCatchM
      (content <- callWorld (chatCompletion (HeadingPrompt textToProcess)) ;;
       match trimmedContent content with
       | None => mret (defaultResult rawText)
       | Some responseText =>
           liftOutcome (structureResponse rawText responseText)
       end)
      (fun _ => mret (defaultResult rawText)).

End WithRuntime.

End Structure.

(** ** File readers: [extractTextFromPDF], [extractTextFromDOCX],
    [processFileContent] *)

Module Files.

Import Merger Recognition Structure.

(** "فشل في قراءة ملف PDF" *)
Definition PDF_READ_FAILED : jsstring :=
  [1601; 1588; 1604; 32; 1601; 1610; 32; 1602; 1585; 1575; 1569; 1577; 32;
   1605; 1604; 1601; 32; 80; 68; 70]%N.

(** "فشل في قراءة ملف Word" *)
Definition DOCX_READ_FAILED : jsstring :=
  [1601; 1588; 1604; 32; 1601; 1610; 32; 1602; 1585; 1575; 1569; 1577; 32;
   1605; 1604; 1601; 32; 87; 111; 114; 100]%N.

(** "application/pdf" *)
Definition MIME_PDF : jsstring :=
  [97; 112; 112; 108; 105; 99; 97; 116; 105; 111; 110; 47; 112; 100; 102]%N.

(** "application/vnd.openxmlformats-officedocument.wordprocessingml.document" *)
Definition MIME_DOCX : jsstring :=
  [97; 112; 112; 108; 105; 99; 97; 116; 105; 111; 110; 47; 118; 110; 100;
   46; 111; 112; 101; 110; 120; 109; 108; 102; 111; 114; 109; 97; 116; 115;
   45; 111; 102; 102; 105; 99; 101; 100; 111; 99; 117; 109; 101; 110; 116;
   46; 119; 111; 114; 100; 112; 114; 111; 99; 101; 115; 115; 105; 110; 103;
   109; 108; 46; 100; 111; 99; 117; 109; 101; 110; 116]%N.

(** "application/msword" *)
Definition MIME_DOC : jsstring :=
  [97; 112; 112; 108; 105; 99; 97; 116; 105; 111; 110; 47; 109; 115; 119;
   111; 114; 100]%N.

(** "text/plain" *)
Definition MIME_TEXT : jsstring :=
  [116; 101; 120; 116; 47; 112; 108; 97; 105; 110]%N.

(** "text/markdown" *)
Definition MIME_MARKDOWN : jsstring :=
  [116; 101; 120; 116; 47; 109; 97; 114; 107; 100; 111; 119; 110]%N.

(** "image/" *)
Definition IMAGE_PREFIX : jsstring :=
  [105; 109; 97; 103; 101; 47]%N.

(** "[ملف: " *)
Definition UNSUPPORTED_OPEN : jsstring :=
  [91; 1605; 1604; 1601; 58; 32]%N.

(** "] - نوع الملف غير مدعوم للقراءة التلقائية" *)
Definition UNSUPPORTED_CLOSE : jsstring :=
  [93; 32; 45; 32; 1606; 1608; 1593; 32; 1575; 1604; 1605; 1604; 1601; 32;
   1594; 1610; 1585; 32; 1605; 1583; 1593; 1608; 1605; 32; 1604; 1604;
   1602; 1585; 1575; 1569; 1577; 32; 1575; 1604; 1578; 1604; 1602; 1575;
   1574; 1610; 1577]%N.

(** "..." *)
Definition ELLIPSIS : jsstring :=
  [46; 46; 46]%N.

(** [pdfParse(buffer)] by its [data.text] and [data.numpages],
    [mammoth.extractRawText({ buffer })] by its [result.value], and
    [buffer.toString("utf-8")]. *)
Class DocumentReaders (Buffer World : Type) := {
  pdfParse : Buffer -> World -> Outcome (jsstring * Z) * World;
  extractRawText : Buffer -> World -> Outcome jsstring * World;
  utf8ToString : Buffer -> jsstring;
}.

(** [throw e] *)
Definition throwM {World A : Type} (e : Exn) : M World A :=
  fun st => (Throw e, st).

(** [s.startsWith(p)] *)
Definition startsWith (s p : jsstring) : bool :=
  bool_decide (take (length p) s = p).

(** [key.slice(0, 8) + "..." + key.slice(-4)], the masked key that
    [validateGroqApiKey] writes to the console. *)
Definition maskedKey (key : jsstring) : jsstring :=
  slice key 0 8 ++ ELLIPSIS ++ slice key (-4) (strlen key).

Section WithCollaborators.
Context {Buffer World : Type}.
Context `{!ImageCodec Buffer, !RecognitionEngine Buffer World,
          !TextCompletion World, !DocumentReaders Buffer World}.

Definition extractTextFromPDF (base64Data : jsstring) : M World jsstring :=
  tryCatchM
    (let buffer := fromBase64 base64Data in
     data <- callWorld (pdfParse buffer) ;;
     let text := fst data in
     let numpages := snd data in
     if (1 <? numpages) && negb noApiKey
     then smartMergeMultiPagePDF text numpages
     else mret text)
    (fun _ => throwM (Error PDF_READ_FAILED)).

Definition extractTextFromDOCX (base64Data : jsstring) : M World jsstring :=
  tryCatchM
    (let buffer := fromBase64 base64Data in
     callWorld (extractRawText buffer))
    (fun _ => throwM (Error DOCX_READ_FAILED)).

Definition processFileContent (base64Data mimeType fileName : jsstring)
  : M World jsstring :=
  if bool_decide (mimeType = MIME_PDF) then extractTextFromPDF base64Data
  else if bool_decide (mimeType = MIME_DOCX)
          || bool_decide (mimeType = MIME_DOC)
  then extractTextFromDOCX base64Data
  else if bool_decide (mimeType = MIME_TEXT)
          || bool_decide (mimeType = MIME_MARKDOWN)
  then mret (utf8ToString (fromBase64 base64Data))
  else if startsWith mimeType IMAGE_PREFIX
  then extractTextFromImageWithOCR base64Data mimeType
  else mret (UNSUPPORTED_OPEN ++ fileName ++ UNSUPPORTED_CLOSE).

End WithCollaborators.

End Files.

(* ===================================================================== *)
(** * Part II: properties *)
(* ===================================================================== *)

(** ** Facts about JavaScript strings *)

Module JSProps.

Lemma lastIndexScan_ge c (s : jsstring) : forall i limit acc,
  acc < i -> acc <= lastIndexScan c s i limit acc.
Proof.
  induction s as [|x s IH]; intros i limit acc Hacc; simpl; [lia|].
  destruct (i <=? limit); [|lia].
  destruct (N.eqb x c).
  - specialize (IH (i + 1) limit i). lia.
  - specialize (IH (i + 1) limit acc). lia.
Qed.

Lemma lastIndexScan_found c (s : jsstring) : forall i limit acc,
  acc < i ->
  let r := lastIndexScan c s i limit acc in
  r = acc \/ (i <= r <= limit /\ s !! Z.to_nat (r - i) = Some c).
Proof.
  induction s as [|x s IH]; intros i limit acc Hacc; simpl; [by left|].
  destruct (Z.leb_spec i limit) as [Hle|Hgt]; [|by left].
  destruct (N.eqb_spec x c) as [->|Hne].
  - destruct (IH (i + 1) limit i ltac:(lia)) as [Hr|[Hr Hl]].
    + right. rewrite Hr. replace (i - i) with 0 by lia. split; [lia|done].
    + right. split; [lia|].
      replace (Z.to_nat (lastIndexScan c s (i + 1) limit i - i))
        with (S (Z.to_nat (lastIndexScan c s (i + 1) limit i - (i + 1))))
        by lia.
      exact Hl.
  - destruct (IH (i + 1) limit acc ltac:(lia)) as [Hr|[Hr Hl]].
    + by left.
    + right. split; [lia|].
      replace (Z.to_nat (lastIndexScan c s (i + 1) limit acc - i))
        with (S (Z.to_nat (lastIndexScan c s (i + 1) limit acc - (i + 1))))
        by lia.
      exact Hl.
Qed.

Lemma lastIndexScan_max c (s : jsstring) : forall i limit acc (j : nat),
  acc < i -> s !! j = Some c -> i + Z.of_nat j <= limit ->
  i + Z.of_nat j <= lastIndexScan c s i limit acc.
Proof.
  induction s as [|x s IH]; intros i limit acc j Hacc Hj Hlim; [done|].
  simpl. destruct (Z.leb_spec i limit) as [Hle|Hgt]; [|lia].
  destruct j as [|j]; simpl in Hj.
  - injection Hj as ->. rewrite N.eqb_refl.
    pose proof (lastIndexScan_ge c s (i + 1) limit i). lia.
  - destruct (N.eqb x c).
    + specialize (IH (i + 1) limit i j ltac:(lia) Hj). lia.
    + specialize (IH (i + 1) limit acc j ltac:(lia) Hj). lia.
Qed.

(** [lastIndexOf] returns [-1] or an index, not above [fromIndex], that
    holds the character. *)
Lemma lastIndexOf_found (s : jsstring) c from :
  let r := lastIndexOf s c from in
  r = -1 \/ (0 <= r <= Z.max from 0 /\ s !! Z.to_nat r = Some c).
Proof.
  unfold lastIndexOf.
  destruct (lastIndexScan_found c s 0 (Z.min (Z.max from 0) (strlen s - 1))
              (-1) ltac:(lia)) as [Hr|[Hr Hl]]; [by left|right].
  rewrite Z.sub_0_r in Hl. split; [lia|done].
Qed.

(** It is the greatest such index. *)
Lemma lastIndexOf_max (s : jsstring) c from (j : nat) :
  s !! j = Some c -> Z.of_nat j <= from -> Z.of_nat j <= lastIndexOf s c from.
Proof.
  intros Hj Hfrom. unfold lastIndexOf.
  apply lookup_lt_Some in Hj as Hlen.
  apply (lastIndexScan_max c s 0 _ (-1) j); [lia|done|].
  unfold strlen. lia.
Qed.

Lemma slice_inrange (s : jsstring) a b :
  0 <= a <= b -> b <= strlen s ->
  slice s a b = take (Z.to_nat (b - a)) (drop (Z.to_nat a) s).
Proof.
  intros Ha Hb. unfold slice, relIndex.
  destruct (Z.ltb_spec a 0); [lia|]. destruct (Z.ltb_spec b 0); [lia|].
  by rewrite !Z.min_l by lia.
Qed.

Lemma take_app_slice (s : jsstring) a b :
  0 <= a <= b -> b <= strlen s ->
  take (Z.to_nat a) s ++ slice s a b = take (Z.to_nat b) s.
Proof.
  intros Ha Hb. rewrite slice_inrange by done.
  replace (Z.to_nat b) with (Z.to_nat a + Z.to_nat (b - a))%nat by lia.
  by rewrite take_take_drop.
Qed.

Lemma last_slice (s : jsstring) a b :
  0 <= a < b -> b <= strlen s ->
  last (slice s a b) = s !! Z.to_nat (b - 1).
Proof.
  intros Ha Hb. rewrite slice_inrange by lia. unfold strlen in Hb.
  rewrite last_lookup, length_take, length_drop.
  rewrite lookup_take_lt by lia. rewrite lookup_drop. f_equal. lia.
Qed.

Lemma strlen_slice (s : jsstring) a b :
  0 <= a <= b -> b <= strlen s -> strlen (slice s a b) = b - a.
Proof.
  intros Ha Hb. rewrite slice_inrange by lia. unfold strlen in *.
  rewrite length_take, length_drop. lia.
Qed.


Lemma indexScan_spec c (s : jsstring) : forall i0,
  0 <= i0 ->
  (indexScan c s i0 = -1 /\ c ∉ s)
  \/ (exists k : nat,
        indexScan c s i0 = i0 + Z.of_nat k
        /\ s !! k = Some c /\ c ∉ take k s).
Proof.
  induction s as [|x s IH]; intros i0 Hi0; simpl.
  - left. split; [done|]. apply not_elem_of_nil.
  - destruct (N.eqb_spec x c) as [->|Hne].
    + right. exists 0%nat. split; [lia|]. split; [done|]. apply not_elem_of_nil.
    + destruct (IH (i0 + 1) ltac:(lia)) as [[E Hnot]|(k & E & Hk & Hnot)].
      * left. split; [done|]. by apply not_elem_of_cons.
      * right. exists (S k). split; [lia|]. split; [done|].
        simpl. by apply not_elem_of_cons.
Qed.

(** [indexOf] returns [-1] when the character is absent, and otherwise
    the index of its first occurrence. *)
Lemma indexOf_spec (s : jsstring) c :
  (indexOf s c = -1 /\ c ∉ s)
  \/ (exists k : nat,
        indexOf s c = Z.of_nat k /\ s !! k = Some c /\ c ∉ take k s).
Proof.
  unfold indexOf.
  destruct (indexScan_spec c s 0 ltac:(lia)) as [H|(k & E & H)];
    [by left|right].
  exists k. by rewrite E.
Qed.

End JSProps.

(** ** Chunking of large texts *)

Module ChunkingProps.

Import Merger JSProps.

(** *** The boundary property *)

Lemma chunkEnd_gt (rawText : jsstring) (currentPos : Z) :
  currentPos < strlen rawText -> currentPos < chunkEnd rawText currentPos.
Proof.
  intros Hlt. unfold chunkEnd, MAX_CHARS_PER_CHUNK.
  change (6000 / 2) with 3000.
  repeat match goal with
         | |- context [if ?b then _ else _] =>
             let E := fresh "E" in destruct b eqn:E
         end; lia.
Qed.


Definition isBreak (c : N) : bool := N.eqb c PERIOD || N.eqb c NEWLINE.

(** A sentence or line break lies past the midpoint of the chunk that
    starts at [start], and not beyond its size boundary. *)
Definition breakPastMidpoint (rawText : jsstring) (start : Z) : Prop :=
  exists (p : nat) (c : N),
    start + MAX_CHARS_PER_CHUNK / 2 < Z.of_nat p <= start + MAX_CHARS_PER_CHUNK
    /\ rawText !! p = Some c /\ isBreak c = true.

(** The chunk's last character is a sentence or line break. *)
Definition endsWithBreak (chunk : jsstring) : Prop :=
  exists c, last chunk = Some c /\ isBreak c = true.

Lemma chunkEnd_le (rawText : jsstring) (currentPos : Z) :
  0 <= currentPos -> chunkEnd rawText currentPos <= strlen rawText.
Proof.
  intros Hpos. unfold chunkEnd.
  destruct (Z.ltb_spec (Z.min (currentPos + MAX_CHARS_PER_CHUNK) (strlen rawText))
              (strlen rawText)) as [Hlt|Hge]; [|lia].
  destruct (Z.gtb_spec
              (Z.max (lastIndexOf rawText PERIOD
                        (Z.min (currentPos + MAX_CHARS_PER_CHUNK) (strlen rawText)))
                     (lastIndexOf rawText NEWLINE
                        (Z.min (currentPos + MAX_CHARS_PER_CHUNK) (strlen rawText))))
              (currentPos + MAX_CHARS_PER_CHUNK / 2)) as [Hbp|Hbp]; [|lia].
  pose proof (lastIndexOf_found rawText PERIOD
                (Z.min (currentPos + MAX_CHARS_PER_CHUNK) (strlen rawText))).
  pose proof (lastIndexOf_found rawText NEWLINE
                (Z.min (currentPos + MAX_CHARS_PER_CHUNK) (strlen rawText))).
  unfold MAX_CHARS_PER_CHUNK in *. simpl in *. lia.
Qed.

(** When the iteration stops short of the end of the text and a break
    lies in the window, the character just before the chosen end is a
    break. *)
Lemma chunkEnd_break (rawText : jsstring) (currentPos : Z) :
  0 <= currentPos ->
  chunkEnd rawText currentPos < strlen rawText ->
  breakPastMidpoint rawText currentPos ->
  exists c, rawText !! Z.to_nat (chunkEnd rawText currentPos - 1) = Some c
            /\ isBreak c = true.
Proof.
  unfold breakPastMidpoint, chunkEnd, MAX_CHARS_PER_CHUNK.
  change (6000 / 2) with 3000.
  intros Hpos Hlt (p & c & Hp & Hc & Hbrk). revert Hlt.
  set (endPos := Z.min (currentPos + 6000) (strlen rawText)).
  destruct (Z.ltb_spec endPos (strlen rawText)) as [Hend|Hend]; [|lia].
  assert (HendEq : endPos = currentPos + 6000) by lia.
  set (lp := lastIndexOf rawText PERIOD endPos).
  set (ln := lastIndexOf rawText NEWLINE endPos).
  assert (Hmax : Z.of_nat p <= Z.max lp ln).
  { unfold isBreak in Hbrk. apply orb_true_iff in Hbrk as [E|E];
      apply N.eqb_eq in E; subst c.
    - pose proof (lastIndexOf_max rawText PERIOD endPos p Hc). fold lp in H. lia.
    - pose proof (lastIndexOf_max rawText NEWLINE endPos p Hc). fold ln in H. lia. }
  destruct (Z.gtb_spec (Z.max lp ln) (currentPos + 3000))
    as [Hbp|Hbp]; [|lia].
  intros _. replace (Z.max lp ln + 1 - 1) with (Z.max lp ln) by lia.
  destruct (Z.max_spec lp ln) as [[_ Hm]|[_ Hm]]; rewrite Hm in *.
  - destruct (lastIndexOf_found rawText NEWLINE endPos) as [E|[_ E]];
      fold ln in E; [lia|].
    exists NEWLINE. split; [done|]. unfold isBreak.
    by rewrite N.eqb_refl, orb_true_r.
  - destruct (lastIndexOf_found rawText PERIOD endPos) as [E|[_ E]];
      fold lp in E; [lia|].
    exists PERIOD. split; [done|]. unfold isBreak. by rewrite N.eqb_refl.
Qed.

(** Every chunk that stops short of the end of the text ends with a
    break whenever one lies in its window. *)
Definition goodBoundaries (rawText : jsstring) (chunks : list jsstring) : Prop :=
  forall pre c post,
    chunks = pre ++ c :: post ->
    strlen (concat pre) + strlen c < strlen rawText ->
    breakPastMidpoint rawText (strlen (concat pre)) ->
    endsWithBreak c.

Lemma goodBoundaries_snoc (rawText : jsstring) chunks currentPos :
  0 <= currentPos < strlen rawText ->
  concat chunks = take (Z.to_nat currentPos) rawText ->
  goodBoundaries rawText chunks ->
  goodBoundaries rawText
    (chunks ++ [slice rawText currentPos (chunkEnd rawText currentPos)]).
Proof.
  intros Hpos Hcat Hgood pre c post Heq Hshort Hbrk.
  pose proof (chunkEnd_gt rawText currentPos ltac:(lia)) as Hgt.
  pose proof (chunkEnd_le rawText currentPos ltac:(lia)) as Hle.
  destruct post as [|d post _] using rev_ind.
  - apply app_inj_tail in Heq as [<- <-].
    assert (Hstart : strlen (concat chunks) = currentPos).
    { rewrite Hcat. unfold strlen in *. rewrite length_take. lia. }
    rewrite Hstart in Hshort, Hbrk.
    rewrite strlen_slice in Hshort by lia.
    destruct (chunkEnd_break rawText currentPos) as (b & Hb & Hbb);
      [lia|lia|done|].
    exists b. split; [|done]. by rewrite last_slice by lia.
  - rewrite app_comm_cons, app_assoc in Heq.
    apply app_inj_tail in Heq as [-> _]. by eapply Hgood.
Qed.

Lemma chunkLoop_correct (rawText : jsstring) (currentPos : Z)
  (chunks : list jsstring) :
  0 <= currentPos <= strlen rawText ->
  concat chunks = take (Z.to_nat currentPos) rawText ->
  Forall (fun c => c <> []) chunks ->
  goodBoundaries rawText chunks ->
  concat (chunkLoop rawText currentPos chunks) = rawText
  /\ Forall (fun c => c <> []) (chunkLoop rawText currentPos chunks)
  /\ goodBoundaries rawText (chunkLoop rawText currentPos chunks).
Proof.
  funelim (chunkLoop rawText currentPos chunks); intros Hpos Hcat Hne Hgood.
  - pose proof (chunkEnd_gt rawText currentPos l) as Hgt.
    pose proof (chunkEnd_le rawText currentPos ltac:(lia)) as Hle.
    apply H.
    + lia.
    + rewrite concat_app, Hcat. simpl. rewrite app_nil_r.
      apply take_app_slice; lia.
    + apply Forall_app. split; [done|]. constructor; [|done].
      intros E. apply (f_equal strlen) in E.
      rewrite strlen_slice in E by lia. simpl in E. unfold strlen in *.
      simpl in E. lia.
    + apply goodBoundaries_snoc; [lia|done|done].
  - split; [|done]. rewrite Hcat. apply take_ge. unfold strlen in *. lia.
Qed.


(** C2.  For a text longer than the 6000-character threshold, the chunks
    concatenated in order are exactly the text (nothing lost, nothing
    duplicated), no chunk is empty, and every chunk that is followed by
    another one ends with a '.' or a newline whenever such a character
    lies past the midpoint of the chunk's 6000-character window. *)
Theorem chunks_partition_text (rawText : jsstring) :
  strlen rawText > MAX_CHARS_PER_CHUNK ->
  concat (splitIntoChunks rawText) = rawText
  /\ Forall (fun c => c <> []) (splitIntoChunks rawText)
  /\ forall pre c post,
       splitIntoChunks rawText = pre ++ c :: post ->
       post <> [] ->
       breakPastMidpoint rawText (strlen (concat pre)) ->
       endsWithBreak c.
Proof.
  intros Hlong.
  destruct (chunkLoop_correct rawText 0 []) as (Hcat & Hne & Hgood).
  - unfold strlen. lia.
  - done.
  - constructor.
  - intros pre c post Heq. by destruct pre.
  - fold (splitIntoChunks rawText) in Hcat, Hne, Hgood.
    split; [done|]. split; [done|].
    intros pre c post Heq Hpost Hbrk.
    apply (Hgood pre c post Heq); [|done].
    rewrite Heq in Hcat, Hne.
    apply Forall_app in Hne as [_ Hne]. apply Forall_cons in Hne as [_ Hne].
    destruct post as [|d post]; [done|].
    apply Forall_cons in Hne as [Hd _].
    apply (f_equal strlen) in Hcat. revert Hcat. unfold strlen.
    rewrite concat_app. simpl. rewrite !length_app.
    destruct d; [done|]. simpl. lia.
Qed.

(** A text of 8001 characters with a full stop at index 4000. *)
Definition sampleText : jsstring :=
  replicate 4000 97%N ++ [PERIOD] ++ replicate 4000 98%N.

Lemma chunks_partition_text_witness :
  strlen sampleText > MAX_CHARS_PER_CHUNK
  /\ concat (splitIntoChunks sampleText) = sampleText.
Proof.
  assert (H : strlen sampleText > MAX_CHARS_PER_CHUNK) by (vm_compute; reflexivity).
  split; [exact H|].
  exact (proj1 (chunks_partition_text sampleText H)).
Defined.

Example sampleText_chunks :
  map strlen (splitIntoChunks sampleText) = [4001; 4000].
Proof. vm_compute. reflexivity. Qed.

End ChunkingProps.

(** ** Loops that write pixels *)

Module PixelProps.

(** Case analysis on every integer comparison of the goal. *)
Ltac zbool :=
  repeat match goal with
         | |- context [?a <=? ?b] => destruct (Z.leb_spec a b)
         | |- context [?a <? ?b] => destruct (Z.ltb_spec a b)
         | |- context [?a =? ?b] => destruct (Z.eqb_spec a b)
         end;
  simpl; try done; try lia.

(** The [PixelBuffer] invariant of a decoded image. *)
Record wfPixelBuffer (img : PixelBuffer) : Prop := {
  wf_width : 0 < width img;
  wf_height : 0 < height img;
  wf_channels : 0 < channels img;
  wf_length :
    Z.of_nat (length (data img)) = width img * height img * channels img;
}.

Lemma forRange_snoc {S : Type} (lo hi : Z) (body : Z -> S -> S) (s : S) :
  lo <= hi -> forRange lo (hi + 1) body s = body hi (forRange lo hi body s).
Proof.
  intros Hle. unfold forRange.
  replace (hi + 1 - lo) with (Z.of_nat (Datatypes.S (Z.to_nat (hi - lo)))) by lia.
  rewrite seqZ_S, fold_left_app. simpl.
  rewrite Z2Nat.id by lia. f_equal. lia.
Qed.

Lemma forRange_empty {S : Type} (lo hi : Z) (body : Z -> S -> S) (s : S) :
  hi <= lo -> forRange lo hi body s = s.
Proof. intros Hle. unfold forRange. by rewrite seqZ_nil by lia. Qed.

(** Loop invariant rule for [forRange]. *)
Lemma forRange_ind {S : Type} (P : Z -> S -> Prop) (lo hi : Z)
  (body : Z -> S -> S) (s : S) :
  lo <= hi ->
  P lo s ->
  (forall i s, lo <= i < hi -> P i s -> P (i + 1) (body i s)) ->
  P hi (forRange lo hi body s).
Proof.
  intros Hle Hinit Hstep.
  replace hi with (lo + Z.of_nat (Z.to_nat (hi - lo))) by lia.
  assert (Hn : lo + Z.of_nat (Z.to_nat (hi - lo)) <= hi) by lia.
  induction (Z.to_nat (hi - lo)) as [|n IH].
  - rewrite Z.add_0_r, forRange_empty by lia. done.
  - replace (lo + Z.of_nat (Datatypes.S n)) with (lo + Z.of_nat n + 1) by lia.
    rewrite forRange_snoc by lia. apply Hstep; [lia|]. apply IH. lia.
Qed.

(** The value written last by a loop over [l]. *)
Definition lastWrite (Wi : Z -> option Z) (l : list Z) : option Z :=
  fold_left (fun acc i => match Wi i with Some v => Some v | None => acc end)
    l None.

(** A loop whose iteration [i] writes only where [i] is the pixel's own
    coordinate. *)
Lemma lastWrite_point (V : Z -> option Z) (p lo : Z) (n : nat) :
  lastWrite (fun i => if p =? i then V i else None) (seqZ lo (Z.of_nat n))
  = if (lo <=? p) && (p <? lo + Z.of_nat n) then V p else None.
Proof.
  induction n as [|n IH].
  - change (seqZ lo (Z.of_nat 0)) with (@nil Z). unfold lastWrite. simpl. zbool.
  - rewrite seqZ_S. unfold lastWrite in *. rewrite fold_left_app, IH. simpl.
    destruct (Z.eqb_spec p (lo + Z.of_nat n)) as [->|Hne].
    + destruct (V (lo + Z.of_nat n)); zbool.
    + zbool.
Qed.

(** A loop whose iterations all write the same value [v], each where its
    own test [A i] holds. *)
Lemma lastWrite_paint (A : Z -> bool) (v : Z) (l : list Z) :
  lastWrite (fun i => if A i then Some v else None) l
  = if existsb A l then Some v else None.
Proof.
  induction l as [|i l IH] using rev_ind; [done|].
  unfold lastWrite in *. rewrite fold_left_app, IH, existsb_app. simpl.
  destruct (A i), (existsb A l); done.
Qed.

Lemma lastWrite_none (l : list Z) : lastWrite (fun _ => None) l = None.
Proof. unfold lastWrite. by induction l. Qed.

Lemma lastWrite_ext (Wi Wi' : Z -> option Z) (l : list Z) :
  (forall i, i ∈ l -> Wi i = Wi' i) -> lastWrite Wi l = lastWrite Wi' l.
Proof.
  induction l as [|i l IH] using rev_ind; intros Hext; [done|].
  unfold lastWrite in *. rewrite !fold_left_app. simpl.
  rewrite IH, Hext; [done| |].
  - apply elem_of_app. right. by apply list_elem_of_singleton.
  - intros j Hj. apply Hext, elem_of_app. by left.
Qed.

Section Writers.

Variables w h ch : Z.
Hypothesis w_pos : 0 < w.
Hypothesis h_pos : 0 < h.
Hypothesis ch_pos : 0 < ch.

Set Default Proof Using "w_pos h_pos ch_pos".

(** Index of channel [c] of the pixel at column [x] of row [y]. *)
Definition offset (y x c : Z) : Z := (y * w + x) * ch + c.

Definition inImage (y x : Z) : Prop := 0 <= y < h /\ 0 <= x < w.

Definition inImageb (y x : Z) : bool :=
  (0 <=? y) && (y <? h) && (0 <=? x) && (x <? w).

Definition sized (out : list Z) : Prop := Z.of_nat (length out) = w * h * ch.

(** [f] leaves the size of the buffer alone and, on every pixel, either
    writes the value [W] gives to all its channels or changes nothing. *)
Definition Writes (f : list Z -> list Z) (W : Z -> Z -> option Z) : Prop :=
  forall out, sized out ->
    sized (f out)
    /\ forall y x c, inImage y x -> 0 <= c < ch ->
         f out !! Z.to_nat (offset y x c)
         = match W y x with
           | Some v => Some v
           | None => out !! Z.to_nat (offset y x c)
           end.

Lemma inImageb_spec y x : inImageb y x = true <-> inImage y x.
Proof. unfold inImageb, inImage. lia. Qed.

Lemma offset_bound y x c :
  inImage y x -> 0 <= c < ch -> 0 <= offset y x c < w * h * ch.
Proof.
  unfold inImage, offset. intros [Hy Hx] Hc.
  assert (H1 : 0 <= y * w) by nia.
  assert (H2 : y * w + x + 1 <= h * w) by nia.
  assert (H3 : (y * w + x + 1) * ch <= h * w * ch) by nia.
  assert (H4 : 0 <= (y * w + x) * ch) by nia.
  lia.
Qed.

Lemma offset_same_pixel y x c y0 x0 c0 :
  inImage y x -> inImage y0 x0 -> 0 <= c < ch -> 0 <= c0 < ch ->
  offset y x c = offset y0 x0 c0 -> y = y0 /\ x = x0.
Proof.
  unfold inImage, offset. intros [Hy Hx] [Hy0 Hx0] Hc Hc0 Heq.
  assert (Hp : y * w + x = y0 * w + x0).
  { destruct (Z.lt_trichotomy (y * w + x) (y0 * w + x0)) as [Hlt|[Heq'|Hgt]];
      [|done|].
    - assert ((y * w + x + 1) * ch <= (y0 * w + x0) * ch) by nia. lia.
    - assert ((y0 * w + x0 + 1) * ch <= (y * w + x) * ch) by nia. lia. }
  assert (y = y0).
  { destruct (Z.lt_trichotomy y y0) as [Hlt|[Heq'|Hgt]]; [|done|].
    - assert ((y + 1) * w <= y0 * w) by nia. lia.
    - assert ((y0 + 1) * w <= y * w) by nia. lia. }
  subst. lia.
Qed.

Lemma writes_id : Writes (fun out => out) (fun _ _ => None).
Proof. intros out Hsz. done. Qed.

Lemma writes_ext f W W' :
  (forall y x, inImage y x -> W y x = W' y x) -> Writes f W -> Writes f W'.
Proof.
  intros Hext Hf out Hsz. destruct (Hf out Hsz) as [Hsz' Hlk].
  split; [done|]. intros y x c Hin Hc. rewrite <- Hext by done. by apply Hlk.
Qed.

Lemma writes_compose f g Wf Wg :
  Writes f Wf -> Writes g Wg ->
  Writes (fun out => g (f out))
    (fun y x => match Wg y x with Some v => Some v | None => Wf y x end).
Proof.
  intros Hf Hg out Hsz.
  destruct (Hf out Hsz) as [Hsz1 Hlk1]. destruct (Hg (f out) Hsz1) as [Hsz2 Hlk2].
  split; [done|]. intros y x c Hin Hc.
  rewrite Hlk2 by done. destruct (Wg y x); [done|]. by apply Hlk1.
Qed.

Lemma writes_if (b : bool) f W :
  Writes f W ->
  Writes (fun out => if b then f out else out)
    (fun y x => if b then W y x else None).
Proof. destruct b; [done|]. intros _. apply writes_id. Qed.

(** A loop writes what its iterations write, the latest one winning. *)
Lemma writes_fold (l : list Z) body (Wi : Z -> Z -> Z -> option Z) :
  (forall i, i ∈ l -> Writes (body i) (Wi i)) ->
  Writes (fun out => fold_left (fun s i => body i s) l out)
    (fun y x => lastWrite (fun i => Wi i y x) l).
Proof.
  induction l as [|i l IH] using rev_ind; intros Hbody.
  - apply writes_id.
  - assert (Hl : Writes (fun out => fold_left (fun s i => body i s) l out)
                   (fun y x => lastWrite (fun i => Wi i y x) l)).
    { apply IH. intros j Hj. apply Hbody, elem_of_app. by left. }
    assert (Hi : Writes (body i) (Wi i)).
    { apply Hbody, elem_of_app. right. by apply list_elem_of_singleton. }
    pose proof (writes_compose _ _ _ _ Hl Hi) as Hc.
    intros out Hsz. destruct (Hc out Hsz) as [H1 H2].
    rewrite fold_left_app. simpl. split; [done|].
    intros y x c Hin Hcr. rewrite H2 by done.
    unfold lastWrite. by rewrite fold_left_app.
Qed.

Lemma writes_forRange (lo hi : Z) body (Wi : Z -> Z -> Z -> option Z) :
  (forall i, lo <= i < hi -> Writes (body i) (Wi i)) ->
  Writes (forRange lo hi body)
    (fun y x => lastWrite (fun i => Wi i y x) (seqZ lo (hi - lo))).
Proof.
  intros Hbody. apply writes_fold. intros i Hi%elem_of_seqZ.
  apply Hbody. lia.
Qed.

(** One [writeByte] per channel writes the pixel. *)
Lemma writes_writePixel y0 x0 v :
  inImage y0 x0 ->
  Writes (writePixel ch ((y0 * w + x0) * ch) v)
    (fun y x => if (y =? y0) && (x =? x0) then Some v else None).
Proof.
  intros Hin0 out Hsz. set (idx := (y0 * w + x0) * ch).
  pose (covered := fun (c : Z) (j : nat) =>
                     (idx <=? Z.of_nat j) && (Z.of_nat j <? idx + c)).
  assert (Hinv : sized (writePixel ch idx v out)
                 /\ forall j : nat,
                      writePixel ch idx v out !! j
                      = if covered ch j then Some v else out !! j).
  { unfold writePixel.
    apply (forRange_ind
             (fun c o => sized o
                         /\ forall j : nat,
                              o !! j = if covered c j then Some v
                                       else out !! j));
      [lia| |].
    - split; [done|]. intros j. unfold covered.
      destruct (Z.leb_spec idx (Z.of_nat j)),
        (Z.ltb_spec (Z.of_nat j) (idx + 0)); try done; lia.
    - intros c o Hc [Ho Hlk].
      pose proof (offset_bound y0 x0 c Hin0 ltac:(lia)) as Hb.
      unfold offset in Hb. fold idx in Hb. unfold writeByte.
      destruct (Z.ltb_spec (idx + c) 0); [lia|]. split.
      + unfold sized. by rewrite length_insert.
      + intros j. rewrite list_lookup_insert, Hlk. unfold sized in Ho.
        unfold covered.
        destruct (decide _), (Z.leb_spec idx (Z.of_nat j)),
          (Z.ltb_spec (Z.of_nat j) (idx + c)),
          (Z.ltb_spec (Z.of_nat j) (idx + (c + 1))); simpl; try done; lia. }
  destruct Hinv as [Hsz' Hlk]. split; [done|].
  intros y x c Hin Hc. rewrite Hlk. unfold covered.
  pose proof (offset_bound y x c Hin Hc) as Hb.
  rewrite Z2Nat.id by lia.
  destruct (Z.leb_spec idx (offset y x c)) as [Hr1|Hr1]; simpl.
  - destruct (Z.ltb_spec (offset y x c) (idx + ch)) as [Hr2|Hr2].
    + destruct (offset_same_pixel y x c y0 x0 (offset y x c - idx))
        as [-> ->]; [done|done|done|lia|unfold offset; fold idx; lia|].
      by rewrite !Z.eqb_refl.
    + destruct (Z.eqb_spec y y0) as [->|]; [|done].
      destruct (Z.eqb_spec x x0) as [->|]; [|done].
      unfold offset in *. fold idx in Hr2. lia.
  - destruct (Z.eqb_spec y y0) as [->|]; [|done].
    destruct (Z.eqb_spec x x0) as [->|]; [|done].
    unfold offset in *. fold idx in Hr1. lia.
Qed.

(** The two pixel loops of a filter whose body at [(x, y)] writes (or
    leaves) the pixel at [(x, y)] itself. *)
Lemma writes_pixel_loops (V : Z -> Z -> option Z) body :
  (forall y x, inImage y x ->
     Writes (body y x)
       (fun py px => if (py =? y) && (px =? x) then V y x else None)) ->
  Writes (forRange 0 h (fun y => forRange 0 w (fun x => body y x))) V.
Proof.
  intros Hbody.
  eapply writes_ext; [|apply (writes_forRange 0 h _
    (fun y py px => if py =? y then V y px else None))].
  - intros py px [Hy Hx]. simpl.
    replace (h - 0) with (Z.of_nat (Z.to_nat h)) by lia.
    rewrite (lastWrite_point (fun y => V y px) py 0). zbool.
  - intros y Hy.
    eapply writes_ext; [|apply (writes_forRange 0 w _
      (fun x py px => if (py =? y) && (px =? x) then V y x else None))].
    + intros py px [Hpy Hpx]. simpl.
      replace (w - 0) with (Z.of_nat (Z.to_nat w)) by lia.
      destruct (Z.eqb_spec py y) as [->|Hne]; simpl.
      * rewrite (lastWrite_point (fun x => V y x) px 0).
        destruct (Z.leb_spec 0 px), (Z.ltb_spec px (0 + Z.of_nat (Z.to_nat w)));
          try done; lia.
      * apply lastWrite_none.
    + intros x Hx. apply Hbody. unfold inImage. lia.
Qed.

End Writers.

Unset Default Proof Using.


(** Coordinates and byte positions of an image. *)
Definition inside (img : PixelBuffer) (y x : Z) : Prop :=
  inImage (width img) (height img) y x.

Definition byteIndex (img : PixelBuffer) (y x c : Z) : nat :=
  Z.to_nat (offset (width img) (channels img) y x c).

Section Wf.

Variable img : PixelBuffer.
Hypothesis Hwf : wfPixelBuffer img.

Lemma readByte_inside y x :
  inside img y x ->
  exists v,
    readByte (data img) ((y * width img + x) * channels img) = Some v
    /\ data img !! byteIndex img y x 0 = Some v.
Proof.
  intros Hin. destruct Hwf as [Hw Hh Hc Hlen].
  pose proof (offset_bound _ _ _ Hw Hh Hc y x 0 Hin ltac:(lia)) as Hb.
  unfold byteIndex, offset in *. rewrite Z.add_0_r in *.
  unfold readByte. destruct (Z.ltb_spec ((y * width img + x) * channels img) 0);
    [lia|].
  destruct (lookup_lt_is_Some_2 (data img)
              (Z.to_nat ((y * width img + x) * channels img))) as [v Hv];
    [lia|].
  exists v. by rewrite Hv.
Qed.

(** What a finished pixel loop leaves in a buffer that started filled
    with [v0]. *)
Lemma writes_on_fill f (V : Z -> Z -> option Z) (v0 y x c : Z) :
  Writes (width img) (height img) (channels img) f V ->
  inside img y x -> 0 <= c < channels img ->
  f (replicate (length (data img)) v0) !! byteIndex img y x c
  = Some (default v0 (V y x)).
Proof.
  intros Hf Hin Hc. destruct Hwf as [Hw Hh Hch Hlen].
  destruct (Hf (replicate (length (data img)) v0)) as [_ Hlk].
  { unfold sized. by rewrite length_replicate. }
  unfold byteIndex. rewrite Hlk by done.
  destruct (V y x); [done|]. simpl.
  apply lookup_replicate_2.
  pose proof (offset_bound _ _ _ Hw Hh Hch y x c Hin Hc). lia.
Qed.

Lemma writes_length f V :
  Writes (width img) (height img) (channels img) f V ->
  forall v, length (f (replicate (length (data img)) v)) = length (data img).
Proof.
  intros Hf v. destruct Hwf as [Hw Hh Hch Hlen].
  destruct (Hf (replicate (length (data img)) v)) as [Hsz _].
  { unfold sized. by rewrite length_replicate. }
  unfold sized in Hsz. lia.
Qed.

End Wf.

End PixelProps.

(** ** Erosion and dilation *)

Module MorphologyProps.

Import Morphology PixelProps.

(** The pixel at [(x, y)] is dark in [img]: its first channel is below
    128. *)
Definition darkAt (img : PixelBuffer) (y x : Z) : Prop :=
  exists v, data img !! byteIndex img y x 0 = Some v /\ v < 128.

Definition darkAtb (img : PixelBuffer) (y x : Z) : bool :=
  ltNum (readByte (data img) ((y * width img + x) * channels img)) 128.

(** [(ny, nx)] lies in the square of radius [half] around [(y, x)]. *)
Definition near (half y x ny nx : Z) : Prop :=
  - half <= ny - y <= half /\ - half <= nx - x <= half.

Section Wf.

Variable img : PixelBuffer.
Hypothesis Hwf : wfPixelBuffer img.

Lemma darkAtb_spec y x :
  inside img y x -> darkAtb img y x = true <-> darkAt img y x.
Proof.
  intros Hin. destruct (readByte_inside img Hwf y x Hin) as (v & Hr & Hl).
  unfold darkAtb, darkAt. rewrite Hr, Hl. simpl. split.
  - intros Hv. exists v. split; [done|]. lia.
  - intros (v' & Hv' & Hlt). injection Hv' as <-. lia.
Qed.

Lemma geNum_inside y x :
  inside img y x ->
  geNum (readByte (data img) ((y * width img + x) * channels img)) 128
  = negb (darkAtb img y x).
Proof.
  intros Hin. destruct (readByte_inside img Hwf y x Hin) as (v & Hr & _).
  unfold darkAtb. rewrite Hr. simpl. lia.
Qed.

End Wf.

(** *** Erosion *)

Lemma forWhileList_and (t : Z -> bool) (body : Z -> bool -> bool) (l : list Z) :
  (forall i b, i ∈ l -> body i b = b && t i) ->
  forall b, forWhileList (fun allBlack => allBlack) body l b = b && forallb t l.
Proof.
  induction l as [|i l IH]; intros Hbody b; simpl.
  - by rewrite andb_true_r.
  - destruct b; [|done].
    rewrite IH by (intros j b' Hj; apply Hbody; by right).
    rewrite Hbody by left. done.
Qed.

(** The early-exit loops of [allBlackAt] test the whole neighbourhood. *)
Lemma allBlackAt_forallb (img : PixelBuffer) (half y x : Z) :
  wfPixelBuffer img ->
  allBlackAt img half y x
  = forallb (fun dy =>
      forallb (fun dx =>
        inImageb (width img) (height img) (y + dy) (x + dx)
        && darkAtb img (y + dy) (x + dx))
        (seqZ (- half) (half + 1 - - half)))
      (seqZ (- half) (half + 1 - - half)).
Proof.
  intros Hwf. pose proof Hwf as [Hw Hh Hch _].
  unfold allBlackAt, forRangeWhile.
  rewrite (forWhileList_and
             (fun dy => forallb (fun dx =>
                inImageb (width img) (height img) (y + dy) (x + dx)
                && darkAtb img (y + dy) (x + dx))
                (seqZ (- half) (half + 1 - - half)))); [done|].
  intros dy b _.
  apply (forWhileList_and
           (fun dx => inImageb (width img) (height img) (y + dy) (x + dx)
                      && darkAtb img (y + dy) (x + dx))).
  intros dx b' _.
  destruct (inImageb (width img) (height img) (y + dy) (x + dx)) eqn:Hin.
  - pose proof (proj1 (inImageb_spec _ _ _ Hw Hh Hch _ _) Hin) as Hins.
    unfold inImageb in Hin. rewrite Hin.
    rewrite (geNum_inside img Hwf) by done.
    by destruct (darkAtb img (y + dy) (x + dx)), b'.
  - unfold inImageb in Hin. rewrite Hin. by destruct b'.
Qed.

Lemma allBlackAt_spec (img : PixelBuffer) (half y x : Z) :
  wfPixelBuffer img ->
  allBlackAt img half y x = true
  <-> forall ny nx, near half y x ny nx -> inside img ny nx /\ darkAt img ny nx.
Proof.
  intros Hwf. pose proof Hwf as [Hw Hh Hch _].
  rewrite allBlackAt_forallb by done.
  rewrite forallb_forall. split.
  - intros Hall ny nx [Hy Hx].
    specialize (Hall (ny - y)). rewrite <- list_elem_of_In, elem_of_seqZ in Hall.
    specialize (Hall ltac:(lia)). rewrite forallb_forall in Hall.
    specialize (Hall (nx - x)). rewrite <- list_elem_of_In, elem_of_seqZ in Hall.
    specialize (Hall ltac:(lia)).
    replace (y + (ny - y)) with ny in Hall by lia.
    replace (x + (nx - x)) with nx in Hall by lia.
    apply andb_true_iff in Hall as [Hin Hd].
    apply (inImageb_spec _ _ _ Hw Hh Hch) in Hin. split; [done|].
    by apply darkAtb_spec.
  - intros Hall dy Hdy%list_elem_of_In%elem_of_seqZ.
    apply forallb_forall. intros dx Hdx%list_elem_of_In%elem_of_seqZ.
    destruct (Hall (y + dy) (x + dx)) as [Hin Hd]; [unfold near; lia|].
    apply andb_true_iff.
    split; [by apply (inImageb_spec _ _ _ Hw Hh Hch)|by apply darkAtb_spec].
Qed.

Lemma erodePixels_writes (img : PixelBuffer) (kernelSize : Z) :
  wfPixelBuffer img ->
  Writes (width img) (height img) (channels img)
    (forRange 0 (height img) (fun y =>
       forRange 0 (width img) (fun x outputData =>
         if allBlackAt img (kernelSize / 2) y x
         then writePixel (channels img)
                ((y * width img + x) * channels img) 0 outputData
         else outputData)))
    (fun y x => if allBlackAt img (kernelSize / 2) y x then Some 0 else None).
Proof.
  intros [Hw Hh Hch Hlen].
  apply (writes_pixel_loops _ _ _ Hw Hh Hch). intros y' x' Hin'.
  eapply (writes_ext _ _ _ Hw Hh Hch);
    [|apply (writes_if _ _ _ Hw Hh Hch),
        (writes_writePixel _ _ _ Hw Hh Hch y' x' 0 Hin')].
  intros py px _. simpl.
  by destruct (allBlackAt _ _ _ _), ((py =? y') && (px =? x')).
Qed.

(** The pixel loops of [erodePixels] write 0 exactly on the pixels
    whose neighbourhood test succeeds. *)
Lemma erodePixels_lookup (img : PixelBuffer) (kernelSize y x c : Z) :
  wfPixelBuffer img -> inside img y x -> 0 <= c < channels img ->
  data (erodePixels img kernelSize) !! byteIndex img y x c
  = Some (if allBlackAt img (kernelSize / 2) y x then 0 else 255).
Proof.
  intros Hwf Hin Hc.
  etrans; [exact (writes_on_fill img Hwf _ _ 255 y x c
                    (erodePixels_writes img kernelSize Hwf) Hin Hc)|].
  simpl. by destruct (allBlackAt _ _ _ _).
Qed.

(** *** Dilation *)

Section Paint.

Variables w h ch : Z.
Hypothesis w_pos : 0 < w.
Hypothesis h_pos : 0 < h.
Hypothesis ch_pos : 0 < ch.

(** A loop whose iterations all paint with [v] paints the union. *)
Lemma writes_forRange_paint (lo hi v : Z) body (A : Z -> Z -> Z -> bool) :
  (forall i, lo <= i < hi ->
     Writes w h ch (body i) (fun y x => if A i y x then Some v else None)) ->
  Writes w h ch (forRange lo hi body)
    (fun y x => if existsb (fun i => A i y x) (seqZ lo (hi - lo))
                then Some v else None).
Proof using w_pos h_pos ch_pos.
  intros Hbody.
  eapply (writes_ext _ _ _ w_pos h_pos ch_pos);
    [|apply (writes_forRange _ _ _ w_pos h_pos ch_pos lo hi body
               (fun i y x => if A i y x then Some v else None) Hbody)].
  intros y x _. simpl. apply lastWrite_paint.
Qed.

End Paint.

(** The test the scatter loops of [dilatePixels] amount to at the
    output pixel [(px, py)]. *)
Definition scattered (img : PixelBuffer) (half py px : Z) : bool :=
  existsb (fun y =>
    existsb (fun x =>
      darkAtb img y x
      && existsb (fun dy =>
           existsb (fun dx =>
             inImageb (width img) (height img) (y + dy) (x + dx)
             && ((py =? y + dy) && (px =? x + dx)))
             (seqZ (- half) (half + 1 - - half)))
           (seqZ (- half) (half + 1 - - half)))
      (seqZ 0 (width img - 0)))
    (seqZ 0 (height img - 0)).

Lemma dilatePixels_writes (img : PixelBuffer) (kernelSize : Z) :
  wfPixelBuffer img ->
  Writes (width img) (height img) (channels img)
    (forRange 0 (height img) (fun y =>
      forRange 0 (width img) (fun x outputData =>
        let idx := (y * width img + x) * channels img in
        if ltNum (readByte (data img) idx) 128 then
          forRange (- (kernelSize / 2)) (kernelSize / 2 + 1) (fun dy =>
            forRange (- (kernelSize / 2)) (kernelSize / 2 + 1)
              (fun dx outputData =>
              let ny := y + dy in
              let nx := x + dx in
              if (0 <=? ny) && (ny <? height img) && (0 <=? nx)
                 && (nx <? width img)
              then
                let nidx := (ny * width img + nx) * channels img in
                writePixel (channels img) nidx 0 outputData
              else outputData)) outputData
        else outputData)))
    (fun py px => if scattered img (kernelSize / 2) py px
                  then Some 0 else None).
Proof.
  intros [Hw Hh Hch Hlen]. unfold scattered.
  apply (writes_forRange_paint _ _ _ Hw Hh Hch). intros y Hy.
  apply (writes_forRange_paint _ _ _ Hw Hh Hch). intros x Hx. simpl.
  fold (darkAtb img y x).
  eapply (writes_ext _ _ _ Hw Hh Hch);
    [|apply (writes_if _ _ _ Hw Hh Hch (darkAtb img y x)),
        (writes_forRange_paint _ _ _ Hw Hh Hch)].
  { intros py px _. simpl. destruct (darkAtb img y x); simpl; reflexivity. }
  intros dy Hdy.
  apply (writes_forRange_paint _ _ _ Hw Hh Hch). intros dx Hdx.
  fold (inImageb (width img) (height img) (y + dy) (x + dx)).
  destruct (inImageb (width img) (height img) (y + dy) (x + dx)) eqn:Hin.
  - apply (inImageb_spec _ _ _ Hw Hh Hch) in Hin. simpl.
    apply (writes_writePixel _ _ _ Hw Hh Hch (y + dy) (x + dx) 0 Hin).
  - simpl. apply (writes_id _ _ _ Hw Hh Hch).
Qed.

Lemma dilatePixels_lookup (img : PixelBuffer) (kernelSize y x c : Z) :
  wfPixelBuffer img -> inside img y x -> 0 <= c < channels img ->
  data (dilatePixels img kernelSize) !! byteIndex img y x c
  = Some (if scattered img (kernelSize / 2) y x then 0 else 255).
Proof.
  intros Hwf Hin Hc.
  etrans; [exact (writes_on_fill img Hwf _ _ 255 y x c
                    (dilatePixels_writes img kernelSize Hwf) Hin Hc)|].
  simpl. by destruct (scattered _ _ _ _).
Qed.

(** Scatter is gather: an output pixel is painted by some dark source
    pixel exactly when a dark pixel of the image lies in its own
    neighbourhood. *)
Lemma scattered_spec (img : PixelBuffer) (half py px : Z) :
  wfPixelBuffer img -> inside img py px ->
  scattered img half py px = true
  <-> exists ny nx,
        inside img ny nx /\ near half py px ny nx /\ darkAt img ny nx.
Proof.
  intros Hwf Hin. pose proof Hwf as [Hw Hh Hch _]. unfold scattered. split.
  - intros (y & Hy%list_elem_of_In%elem_of_seqZ & H1)%existsb_exists.
    apply existsb_exists in H1
      as (x & Hx%list_elem_of_In%elem_of_seqZ & H2).
    apply andb_true_iff in H2 as [Hd H3].
    apply existsb_exists in H3
      as (dy & Hdy%list_elem_of_In%elem_of_seqZ & H4).
    apply existsb_exists in H4
      as (dx & Hdx%list_elem_of_In%elem_of_seqZ & H5).
    apply andb_true_iff in H5 as [_ H6].
    apply andb_true_iff in H6 as [Ey%Z.eqb_eq Ex%Z.eqb_eq].
    assert (Hyx : inside img y x) by (unfold inside, inImage; lia).
    exists y, x. split; [done|]. split; [unfold near; lia|].
    by apply darkAtb_spec.
  - intros (ny & nx & Hn & [Hny Hnx] & Hd).
    pose proof Hn as [Hn1 Hn2].
    apply existsb_exists. exists ny.
    split; [apply list_elem_of_In, elem_of_seqZ; lia|].
    apply existsb_exists. exists nx.
    split; [apply list_elem_of_In, elem_of_seqZ; lia|].
    apply andb_true_iff. split; [by apply darkAtb_spec|].
    apply existsb_exists. exists (py - ny).
    split; [apply list_elem_of_In, elem_of_seqZ; lia|].
    apply existsb_exists. exists (px - nx).
    split; [apply list_elem_of_In, elem_of_seqZ; lia|].
    replace (ny + (py - ny)) with py by lia.
    replace (nx + (px - nx)) with px by lia.
    rewrite !Z.eqb_refl, andb_true_r.
    by apply (inImageb_spec _ _ _ Hw Hh Hch).
Qed.

(** [applyDilation] and [applyErosion] decode, run the pixel loops and
    encode. *)
Lemma applyDilation_pixels {Buffer : Type} `{!ImageCodec Buffer}
  (imageBuffer : Buffer) (img : PixelBuffer) (kernelSize : Z) :
  raw imageBuffer = Ok img ->
  applyDilation imageBuffer kernelSize
  = fromRawPng (dilatePixels img kernelSize).
Proof. unfold applyDilation. by intros ->. Qed.

Lemma applyErosion_pixels {Buffer : Type} `{!ImageCodec Buffer}
  (imageBuffer : Buffer) (img : PixelBuffer) (kernelSize : Z) :
  raw imageBuffer = Ok img ->
  applyErosion imageBuffer kernelSize
  = fromRawPng (erodePixels img kernelSize).
Proof. unfold applyErosion. by intros ->. Qed.

(** *** The claims *)

(** A 3x3 single-channel image: dark everywhere but the last pixel. *)
Definition sampleImage : PixelBuffer :=
  mkPixelBuffer 3 3 1 [0; 0; 0; 0; 0; 0; 0; 0; 255].

Lemma sampleImage_wf : wfPixelBuffer sampleImage.
Proof. constructor; simpl; lia. Qed.

Example sampleImage_eroded :
  data (erodePixels sampleImage 3)
  = [255; 255; 255; 255; 255; 255; 255; 255; 255]
  /\ data (erodePixels sampleImage 1) = [0; 0; 0; 0; 0; 0; 0; 0; 255].
Proof. split; vm_compute; reflexivity. Qed.

Example sampleImage_dilated :
  data (dilatePixels (mkPixelBuffer 3 3 1 [255; 255; 255; 255; 255; 255;
                                           255; 255; 0]) 3)
  = [255; 255; 255; 255; 0; 0; 255; 0; 0].
Proof. vm_compute. reflexivity. Qed.

(** C6.  On a well-formed buffer, for every kernel size (odd or not),
    with [half = floor(kernelSize/2)]: the output of the erosion loops has
    the dimensions of the input, every byte of it is 0 or 255, and the
    pixel at [(x, y)] is 0 in every channel exactly when every position
    of its [half]-radius square lies inside the image and is dark in the
    source; so a pixel closer than [half] to a border comes out 255. *)
Theorem erosion_dark_iff_neighbourhood_dark (img : PixelBuffer)
  (kernelSize : Z) :
  wfPixelBuffer img ->
  let out := erodePixels img kernelSize in
  let half := kernelSize / 2 in
  width out = width img /\ height out = height img
  /\ channels out = channels img
  /\ length (data out) = length (data img)
  /\ forall y x c, inside img y x -> 0 <= c < channels img ->
       (data out !! byteIndex img y x c = Some 0
        \/ data out !! byteIndex img y x c = Some 255)
       /\ (data out !! byteIndex img y x c = Some 0
           <-> forall ny nx, near half y x ny nx ->
                 inside img ny nx /\ darkAt img ny nx)
       /\ (y < half \/ x < half
           \/ height img - half <= y \/ width img - half <= x ->
           data out !! byteIndex img y x c = Some 255).
Proof.
  intros Hwf out half.
  split; [done|]. split; [done|]. split; [done|]. split.
  { exact (writes_length img Hwf _ _
             (erodePixels_writes img kernelSize Hwf) 255). }
  intros y x c Hin Hc. subst out. rewrite erodePixels_lookup by done.
  fold half. destruct (allBlackAt img half y x) eqn:E.
  - pose proof (proj1 (allBlackAt_spec img half y x Hwf) E) as Hall.
    clear E. rename Hall into E.
    split; [by left|]. split; [done|].
    intros Hborder. exfalso. destruct Hin as [Hy Hx].
    destruct Hborder as [Hb|[Hb|[Hb|Hb]]].
    + destruct (E (y - half) x) as [[? ?] _]; [unfold near; lia|lia].
    + destruct (E y (x - half)) as [[? ?] _]; [unfold near; lia|lia].
    + destruct (E (y + half) x) as [[? ?] _]; [unfold near; lia|lia].
    + destruct (E y (x + half)) as [[? ?] _]; [unfold near; lia|lia].
  - split; [by right|]. split; [|done].
    split; [done|]. intros Hall.
    pose proof (proj2 (allBlackAt_spec img half y x Hwf) Hall). congruence.
Qed.

Lemma erosion_dark_iff_neighbourhood_dark_witness :
  wfPixelBuffer sampleImage
  /\ length (data (erodePixels sampleImage 3)) = length (data sampleImage).
Proof.
  split; [exact sampleImage_wf|].
  exact (proj1 (proj2 (proj2 (proj2
    (erosion_dark_iff_neighbourhood_dark sampleImage 3 sampleImage_wf))))).
Defined.

(** C7.  On a well-formed buffer, for every kernel size, with
    [half = floor(kernelSize/2)]: the scatter loops of the dilation leave
    the pixel at [(x, y)] at 0 in every channel exactly when some pixel
    inside the image and within its [half]-radius square is dark in the
    source, and at 255 otherwise; the output has the dimensions of the
    input. *)
Theorem dilation_scatter_is_gather (img : PixelBuffer) (kernelSize : Z) :
  wfPixelBuffer img ->
  let out := dilatePixels img kernelSize in
  let half := kernelSize / 2 in
  width out = width img /\ height out = height img
  /\ channels out = channels img
  /\ length (data out) = length (data img)
  /\ forall y x c, inside img y x -> 0 <= c < channels img ->
       (data out !! byteIndex img y x c = Some 0
        \/ data out !! byteIndex img y x c = Some 255)
       /\ (data out !! byteIndex img y x c = Some 0
           <-> exists ny nx,
                 inside img ny nx /\ near half y x ny nx
                 /\ darkAt img ny nx).
Proof.
  intros Hwf out half.
  split; [done|]. split; [done|]. split; [done|]. split.
  { exact (writes_length img Hwf _ _
             (dilatePixels_writes img kernelSize Hwf) 255). }
  intros y x c Hin Hc. subst out. rewrite dilatePixels_lookup by done.
  fold half. destruct (scattered img half y x) eqn:E.
  - pose proof (proj1 (scattered_spec img half y x Hwf Hin) E).
    split; [by left|]. done.
  - split; [by right|]. split; [done|].
    intros Hex. pose proof (proj2 (scattered_spec img half y x Hwf Hin) Hex).
    congruence.
Qed.

Lemma dilation_scatter_is_gather_witness :
  wfPixelBuffer sampleImage
  /\ length (data (dilatePixels sampleImage 3)) = length (data sampleImage).
Proof.
  split; [exact sampleImage_wf|].
  exact (proj1 (proj2 (proj2 (proj2
    (dilation_scatter_is_gather sampleImage 3 sampleImage_wf))))).
Defined.

(** C10.  On a well-formed buffer and for a kernel size that is not
    negative: a pixel that is dark in the input of the dilation is 0 in
    its output, and a pixel that is 0 in the output of the erosion was
    dark in its input. *)
Theorem dilation_extensive_erosion_antiextensive (img : PixelBuffer)
  (kernelSize y x c : Z) :
  wfPixelBuffer img -> 0 <= kernelSize ->
  inside img y x -> 0 <= c < channels img ->
  (darkAt img y x ->
   data (dilatePixels img kernelSize) !! byteIndex img y x c = Some 0)
  /\ (data (erodePixels img kernelSize) !! byteIndex img y x c = Some 0 ->
      darkAt img y x).
Proof.
  intros Hwf Hk Hin Hc.
  assert (Hhalf : 0 <= kernelSize / 2) by (apply Z.div_pos; lia).
  split.
  - intros Hd. rewrite dilatePixels_lookup by done.
    assert (E : scattered img (kernelSize / 2) y x = true).
    { apply (scattered_spec img _ y x Hwf Hin). exists y, x.
      split; [done|]. split; [unfold near; lia|done]. }
    by rewrite E.
  - rewrite erodePixels_lookup by done.
    destruct (allBlackAt img (kernelSize / 2) y x) eqn:E; [|done].
    intros _. pose proof (proj1 (allBlackAt_spec img _ y x Hwf) E) as Hall.
    apply (Hall y x). unfold near. lia.
Qed.

Lemma dilation_extensive_erosion_antiextensive_witness :
  wfPixelBuffer sampleImage /\ 0 <= 3
  /\ inside sampleImage 1 1 /\ 0 <= 0 < channels sampleImage
  /\ (data (erodePixels sampleImage 3) !! byteIndex sampleImage 1 1 0 = Some 0
      -> darkAt sampleImage 1 1).
Proof.
  assert (H1 : inside sampleImage 1 1) by (unfold inside, inImage; simpl; lia).
  assert (H2 : 0 <= 0 < channels sampleImage) by (simpl; lia).
  assert (H3 : 0 <= 3) by lia.
  split; [exact sampleImage_wf|]. split; [exact H3|].
  split; [exact H1|]. split; [exact H2|].
  exact (proj2 (dilation_extensive_erosion_antiextensive sampleImage 3 1 1 0
                  sampleImage_wf H3 H1 H2)).
Defined.

End MorphologyProps.

(** ** Binary64 arithmetic

    What the properties need of the arithmetic: the comparison is a
    strict order that [NaN] takes no part in, and an integer quotient
    of integers below 2^53 is computed exactly. *)

Module Float64Props.

Import Float64.

(** *** Comparison *)

Definition lex (e1 : Z) (m1 : positive) (e2 : Z) (m2 : positive) : comparison :=
  match Z.compare e1 e2 with
  | Lt => Lt
  | Gt => Gt
  | Eq => Pos.compare_cont Eq m1 m2
  end.

Lemma lex_Lt e1 m1 e2 m2 :
  lex e1 m1 e2 m2 = Lt <-> e1 < e2 \/ (e1 = e2 /\ (m1 < m2)%positive).
Proof.
  unfold lex. change (Pos.compare_cont Eq m1 m2) with (Pos.compare m1 m2).
  destruct (Z.compare_spec e1 e2); destruct (Pos.compare_spec m1 m2);
    split; try done; try lia.
Qed.

Lemma lex_Eq e1 m1 e2 m2 :
  lex e1 m1 e2 m2 = Eq <-> e1 = e2 /\ m1 = m2.
Proof.
  unfold lex. change (Pos.compare_cont Eq m1 m2) with (Pos.compare m1 m2).
  destruct (Z.compare_spec e1 e2); destruct (Pos.compare_spec m1 m2);
    split; try done; try lia.
Qed.

Lemma lex_Gt e1 m1 e2 m2 :
  lex e1 m1 e2 m2 = Gt <-> e2 < e1 \/ (e1 = e2 /\ (m2 < m1)%positive).
Proof.
  unfold lex. change (Pos.compare_cont Eq m1 m2) with (Pos.compare m1 m2).
  destruct (Z.compare_spec e1 e2); destruct (Pos.compare_spec m1 m2);
    split; try done; try lia.
Qed.

Lemma CompOpp_Lt c : CompOpp c = Lt <-> c = Gt.
Proof. by destruct c. Qed.
Lemma CompOpp_Eq c : CompOpp c = Eq <-> c = Eq.
Proof. by destruct c. Qed.

Ltac lexes :=
  repeat match goal with
  | H : Some _ = Some _ |- _ => injection H as H
  | H : CompOpp _ = Lt |- _ => apply (proj1 (CompOpp_Lt _)) in H
  | H : CompOpp _ = Eq |- _ => apply (proj1 (CompOpp_Eq _)) in H
  | H : lex _ _ _ _ = Lt |- _ => apply (proj1 (lex_Lt _ _ _ _)) in H
  | H : lex _ _ _ _ = Eq |- _ => apply (proj1 (lex_Eq _ _ _ _)) in H
  | H : lex _ _ _ _ = Gt |- _ => apply (proj1 (lex_Gt _ _ _ _)) in H
  | |- Some _ = Some _ => f_equal
  | |- CompOpp _ = Lt => apply (proj2 (CompOpp_Lt _))
  | |- lex _ _ _ _ = Lt => apply (proj2 (lex_Lt _ _ _ _))
  | |- lex _ _ _ _ = Gt => apply (proj2 (lex_Gt _ _ _ _))
  end.

Lemma SFcompare_finite s1 m1 e1 s2 m2 e2 :
  SFcompare (S754_finite s1 m1 e1) (S754_finite s2 m2 e2)
  = Some match s1, s2 with
         | true, false => Lt
         | false, true => Gt
         | false, false => lex e1 m1 e2 m2
         | true, true => CompOpp (lex e1 m1 e2 m2)
         end.
Proof. destruct s1, s2; simpl; unfold lex; by destruct (e1 ?= e2). Qed.

Lemma SFcompare_trans (a b c : spec_float) :
  SFcompare a b = Some Lt ->
  SFcompare b c = Some Lt \/ SFcompare b c = Some Eq ->
  SFcompare a c = Some Lt.
Proof.
  destruct a as [sa|sa| |sa ma ea], b as [sb|sb| |sb mb eb],
    c as [sc|sc| |sc mc ec];
    rewrite ?SFcompare_finite;
    try destruct sa; try destruct sb; try destruct sc; simpl;
    intros Hab [Hbc|Hbc]; try done; lexes; lia.
Qed.

Lemma SFcompare_irrefl (a : spec_float) : SFcompare a a <> Some Lt.
Proof.
  destruct a as [[]|[]| |[] m e]; rewrite ?SFcompare_finite; simpl; try done;
    intros H; lexes; lia.
Qed.

Lemma fltb_fleb_trans (a b c : spec_float) :
  fltb a b = true -> fleb b c = true -> fltb a c = true.
Proof.
  unfold fltb, fleb, SFltb, SFleb. intros Hab Hbc.
  destruct (SFcompare a b) as [[]|] eqn:Eab; try done.
  destruct (SFcompare b c) as [[]|] eqn:Ebc; try done.
  - by rewrite (SFcompare_trans a b c Eab (or_intror Ebc)).
  - by rewrite (SFcompare_trans a b c Eab (or_introl Ebc)).
Qed.

Lemma fltb_fleb (a b : spec_float) : fltb a b = true -> fleb a b = true.
Proof.
  unfold fltb, fleb, SFltb, SFleb. by destruct (SFcompare a b) as [[]|].
Qed.

Lemma fltb_asym (a b : spec_float) : fltb a b = true -> fleb b a = false.
Proof.
  unfold fltb, fleb, SFltb, SFleb.
  destruct (SFcompare a b) as [[]|] eqn:Eab; try done. intros _.
  destruct (SFcompare b a) as [[]|] eqn:Eba; try done.
  - by destruct (SFcompare_irrefl a
                   (SFcompare_trans a b a Eab (or_intror Eba))).
  - by destruct (SFcompare_irrefl a
                   (SFcompare_trans a b a Eab (or_introl Eba))).
Qed.

(** *** Integers and exact quotients *)

Definition digits (p : positive) : Z := Zpos (digits2_pos p).

Lemma digits_log2 (p : positive) : digits p = Z.log2 (Zpos p) + 1.
Proof.
  assert (Hsize : forall q, digits2_pos q = Pos.size q)
    by (induction q; simpl; congruence).
  unfold digits. destruct p; simpl; rewrite ?Hsize; lia.
Qed.

Lemma digits_pos (p : positive) : 1 <= digits p.
Proof. unfold digits. lia. Qed.

Lemma digits_bound (p : positive) : digits p <= prec <-> Zpos p < 2 ^ prec.
Proof.
  rewrite digits_log2. unfold prec.
  rewrite (Z.log2_lt_pow2 (Zpos p) 53) by lia. lia.
Qed.

Lemma digits_mul (n c : positive) :
  digits n <= digits (n * c) <= digits n + digits c.
Proof.
  rewrite !digits_log2, Pos2Z.inj_mul. split.
  - assert (Z.log2 (Zpos n) <= Z.log2 (Zpos n * Zpos c)); [|lia].
    apply Z.log2_le_mono. nia.
  - pose proof (Z.log2_mul_above (Zpos n) (Zpos c)). lia.
Qed.

Lemma shiftl_nat_xO (p : positive) (n : nat) :
  Pos.shiftl_nat (xO p) n = xO (Pos.shiftl_nat p n).
Proof. induction n as [|n IH]; simpl; [done|]. by rewrite IH. Qed.

Lemma Zpos_shiftl_nat (p : positive) (n : nat) :
  Zpos (Pos.shiftl_nat p n) = Zpos p * 2 ^ Z.of_nat n.
Proof.
  induction n as [|n IH]; [simpl; lia|].
  rewrite Nat2Z.inj_succ, Z.pow_succ_r by lia.
  change (Pos.shiftl_nat p (S n)) with (xO (Pos.shiftl_nat p n)).
  rewrite Pos2Z.inj_xO, IH. lia.
Qed.

Lemma digits_shiftl_nat (p : positive) (n : nat) :
  digits (Pos.shiftl_nat p n) = digits p + Z.of_nat n.
Proof.
  induction n as [|n IH]; [simpl; lia|].
  change (Pos.shiftl_nat p (S n)) with (xO (Pos.shiftl_nat p n)).
  unfold digits in *. simpl digits2_pos. lia.
Qed.

Lemma iter_pos_nat {A : Type} (f : A -> A) (p : positive) (x : A) :
  SpecFloat.iter_pos f p x = Nat.iter (Pos.to_nat p) f x.
Proof.
  revert x. induction p as [p IH|p IH|]; intros x.
  - change (SpecFloat.iter_pos f p~1 x)
      with (SpecFloat.iter_pos f p (SpecFloat.iter_pos f p (f x))).
    rewrite !IH, Pos2Nat.inj_xI.
    replace (S (2 * Pos.to_nat p)) with (S (Pos.to_nat p + Pos.to_nat p))
      by lia.
    by rewrite Nat.iter_succ_r, Nat.iter_add.
  - change (SpecFloat.iter_pos f p~0 x)
      with (SpecFloat.iter_pos f p (SpecFloat.iter_pos f p x)).
    rewrite !IH, Pos2Nat.inj_xO.
    replace (2 * Pos.to_nat p)%nat with (Pos.to_nat p + Pos.to_nat p)%nat
      by lia.
    by rewrite Nat.iter_add.
  - done.
Qed.

(** Shifting out zero bits loses nothing. *)
Lemma shr_zeros (m : positive) (n : nat) :
  Nat.iter n shr_1
    (Build_shr_record (Zpos (Pos.shiftl_nat m n)) false false)
  = Build_shr_record (Zpos m) false false.
Proof.
  revert m. induction n as [|n IH]; intros m; [done|].
  change (Pos.shiftl_nat m (S n)) with (xO (Pos.shiftl_nat m n)).
  rewrite <- shiftl_nat_xO. simpl Nat.iter. by rewrite IH.
Qed.

Lemma canonical_fexp (m : positive) (e : Z) :
  canonical_mantissa prec emax m e = true ->
  fexp prec emax (digits m + e) = e.
Proof. unfold canonical_mantissa, digits. by intros H%Z.eqb_eq. Qed.

Lemma shr_fexp_exact (m : positive) (e : Z) (n : nat) :
  canonical_mantissa prec emax m e = true ->
  shr_fexp prec emax (Zpos (Pos.shiftl_nat m n)) (e - Z.of_nat n) loc_Exact
  = (Build_shr_record (Zpos m) false false, e).
Proof.
  intros Hcan. unfold shr_fexp.
  change (Zdigits2 (Zpos (Pos.shiftl_nat m n)))
    with (digits (Pos.shiftl_nat m n)).
  rewrite digits_shiftl_nat.
  replace (digits m + Z.of_nat n + (e - Z.of_nat n)) with (digits m + e)
    by lia.
  rewrite (canonical_fexp m e Hcan).
  replace (e - (e - Z.of_nat n)) with (Z.of_nat n) by lia.
  simpl shr_record_of_loc. destruct n as [|n].
  - simpl. f_equal. lia.
  - unfold shr. rewrite Nat2Z.inj_succ, <- Zpos_P_of_succ_nat.
    rewrite iter_pos_nat, SuccNat2Pos.id_succ, shr_zeros. f_equal. lia.
Qed.

(** A canonical mantissa, with or without trailing zero bits, is kept
    by the rounding. *)
Lemma binary_round_aux_exact (s : bool) (m : positive) (e : Z) (n : nat) :
  canonical_mantissa prec emax m e = true -> e <= emax - prec ->
  binary_round_aux prec emax s (Zpos (Pos.shiftl_nat m n)) (e - Z.of_nat n)
    loc_Exact
  = S754_finite s m e.
Proof.
  intros Hcan Hle. unfold binary_round_aux.
  rewrite (shr_fexp_exact m e n Hcan). simpl.
  pose proof (shr_fexp_exact m e 0 Hcan) as H0.
  change (Pos.shiftl_nat m 0) with m in H0.
  replace (e - Z.of_nat 0) with e in H0 by lia.
  rewrite H0. simpl. by destruct (Z.leb_spec e (emax - prec)); [|lia].
Qed.

(** The binary64 number of a positive integer below [2^53]. *)
Definition normal (p : positive) : spec_float :=
  S754_finite false (Pos.shiftl_nat p (Z.to_nat (prec - digits p)))
    (digits p - prec).

Lemma normal_canonical (p : positive) :
  digits p <= prec ->
  canonical_mantissa prec emax
    (Pos.shiftl_nat p (Z.to_nat (prec - digits p))) (digits p - prec) = true.
Proof.
  intros Hd. unfold canonical_mantissa. apply Z.eqb_eq.
  change (Zpos (digits2_pos ?q)) with (digits q).
  rewrite digits_shiftl_nat. pose proof (digits_pos p).
  unfold fexp, emin, prec, emax in *. lia.
Qed.

Lemma ofZ_pos (p : positive) : digits p <= prec -> ofZ (Zpos p) = normal p.
Proof.
  intros Hd. pose proof (digits_pos p) as Hd1.
  unfold ofZ, binary_normalize, binary_round, shl_align.
  change (Zpos (digits2_pos p)) with (digits p).
  assert (Hf : fexp prec emax (digits p + 0) = digits p - prec)
    by (unfold fexp, emin, prec, emax in *; lia).
  rewrite Hf.
  pose proof (binary_round_aux_exact false _ _ 0 (normal_canonical p Hd)
                ltac:(unfold prec, emax in *; lia)) as Hround.
  change (Pos.shiftl_nat ?q 0) with q in Hround.
  replace (digits p - prec - Z.of_nat 0) with (digits p - prec) in Hround
    by lia.
  destruct (digits p - prec - 0) as [|k|k] eqn:Ek.
  - replace (Z.to_nat (prec - digits p)) with 0%nat in Hround by lia.
    change (Pos.shiftl_nat p 0) with p in Hround.
    replace (digits p - prec) with 0 in Hround by lia.
    rewrite Hround. unfold normal.
    replace (Z.to_nat (prec - digits p)) with 0%nat by lia.
    by replace (digits p - prec) with 0 by lia.
  - lia.
  - rewrite Pos2Nat.inj_iter.
    replace (Z.to_nat (prec - digits p)) with (Pos.to_nat k) in Hround by lia.
    change (nat_rect (fun _ => positive) p (fun _ => xO) (Pos.to_nat k))
      with (Pos.shiftl_nat p (Pos.to_nat k)).
    rewrite Hround. unfold normal.
    by replace (Z.to_nat (prec - digits p)) with (Pos.to_nat k) by lia.
Qed.

(** The quotient of two integers below [2^53] that is itself an
    integer is computed exactly. *)
Lemma fdiv_normal (n c : positive) :
  digits (n * c) <= prec ->
  fdiv (normal (n * c)) (normal n) = normal c.
Proof.
  intros Hd. pose proof (digits_mul n c) as [Hd2 Hd1].
  pose proof (digits_pos n). pose proof (digits_pos c).
  set (d1 := digits (n * c)) in *. set (d2 := digits n) in *.
  set (dc := digits c) in *.
  assert (Hdc : dc <= prec).
  { unfold dc. rewrite digits_bound. apply digits_bound in Hd.
    fold d1 in Hd. rewrite Pos2Z.inj_mul in Hd. nia. }
  unfold fdiv, normal, SFdiv. fold d1 d2 dc.
  set (ma := Pos.shiftl_nat (n * c) (Z.to_nat (prec - d1))).
  set (mb := Pos.shiftl_nat n (Z.to_nat (prec - d2))).
  set (mc := Pos.shiftl_nat c (Z.to_nat (prec - dc))).
  set (j := Z.to_nat (dc - d1 + d2)).
  assert (Hcore : SFdiv_core_binary prec emax (Zpos ma) (d1 - prec)
                    (Zpos mb) (d2 - prec)
                  = (Zpos (Pos.shiftl_nat mc j), dc - prec - Z.of_nat j,
                     loc_Exact)).
  { unfold SFdiv_core_binary.
    change (Zdigits2 (Zpos ma)) with (digits ma).
    change (Zdigits2 (Zpos mb)) with (digits mb).
    unfold ma, mb. rewrite !digits_shiftl_nat. fold d1 d2 ma mb.
    set (e' := Z.min _ _).
    assert (He' : e' = d1 - d2 - prec)
      by (unfold e', fexp, emin, prec, emax in *; lia).
    rewrite He'.
    replace (d1 - prec - (d2 - prec) - (d1 - d2 - prec)) with 53
      by (unfold prec; lia).
    cbv iota.
    assert (Hq : Z.shiftl (Zpos ma) 53
                 = Zpos (Pos.shiftl_nat mc j) * Zpos mb).
    { rewrite Z.shiftl_mul_pow2 by lia. unfold ma, mb, mc.
      rewrite !Zpos_shiftl_nat, Pos2Z.inj_mul.
      rewrite !Z2Nat.id by (unfold j, prec in *; lia).
      unfold j. rewrite Z2Nat.id by lia.
      assert (Hpow : 2 ^ (prec - d1) * 2 ^ 53
                     = 2 ^ (prec - dc) * 2 ^ (dc - d1 + d2) * 2 ^ (prec - d2)).
      { rewrite <- !Z.pow_add_r by (unfold prec in *; lia).
        f_equal. unfold prec. lia. }
      transitivity (Zpos n * Zpos c * (2 ^ (prec - d1) * 2 ^ 53)); [ring|].
      rewrite Hpow. ring. }
    rewrite Hq.
    destruct (Z.div_eucl (Zpos (Pos.shiftl_nat mc j) * Zpos mb) (Zpos mb))
      as [q r] eqn:Ediv.
    assert (Eq : q = Zpos (Pos.shiftl_nat mc j)).
    { transitivity (Zpos (Pos.shiftl_nat mc j) * Zpos mb / Zpos mb).
      - unfold Z.div. by rewrite Ediv.
      - by rewrite Z.div_mul. }
    assert (Er : r = 0).
    { transitivity ((Zpos (Pos.shiftl_nat mc j) * Zpos mb) mod Zpos mb).
      - unfold Z.modulo. by rewrite Ediv.
      - by rewrite Z.mod_mul. }
    subst q r. f_equal; [f_equal; unfold j; lia|].
    unfold new_location, new_location_even, new_location_odd.
    by destruct (Z.even (Zpos mb)). }
  rewrite Hcore. simpl xorb.
  apply binary_round_aux_exact.
  - by apply normal_canonical.
  - unfold prec, emax in *. lia.
Qed.

(** The same, on integers. *)
Lemma fdiv_exact (n c : Z) :
  0 < n < 2 ^ prec -> 0 <= c -> n * c < 2 ^ prec ->
  fdiv (ofZ (n * c)) (ofZ n) = ofZ c.
Proof.
  intros Hn Hc Hlt. destruct n as [|n|n]; [lia| |lia].
  assert (Hdn : digits n <= prec) by (apply digits_bound; lia).
  destruct c as [|c|c]; [|clear Hn|lia].
  - rewrite Z.mul_0_r, ofZ_pos by done. reflexivity.
  - change (Zpos n * Zpos c) with (Zpos (n * c)) in *.
    apply digits_bound in Hlt as Hd.
    assert (Hdc : digits c <= prec).
    { rewrite digits_bound. apply digits_bound in Hd.
      rewrite Pos2Z.inj_mul in Hd. nia. }
    rewrite !ofZ_pos by done. by apply fdiv_normal.
Qed.

(** A number minus itself, and the square and the sum of zeros. *)
Lemma fsub_diag_normal (p : positive) :
  fsub (normal p) (normal p) = S754_zero false.
Proof.
  unfold fsub, normal, SFsub. rewrite Z.min_id. unfold shl_align.
  by rewrite Z.sub_diag.
Qed.

Lemma fsub_diag (c : Z) :
  0 <= c < 2 ^ prec -> fsub (ofZ c) (ofZ c) = S754_zero false.
Proof.
  intros Hc. destruct c as [|c|c]; [done| |lia].
  rewrite ofZ_pos by (apply digits_bound; lia). apply fsub_diag_normal.
Qed.

End Float64Props.

(** ** Adaptive threshold *)

Module ThresholdProps.

Import Threshold PixelProps Float64Props.

(** [f lo + ... + f (hi - 1)] *)
Definition sumRange (lo hi : Z) (f : Z -> Z) : Z :=
  forRange lo hi (fun i acc => acc + f i) 0.

(** First-channel intensity of the pixel at [(x, y)]. *)
Definition pixel (img : PixelBuffer) (y x : Z) : Z :=
  byteValue (data img) ((y * width img + x) * channels img).

(** Direct sum of the intensities over rows [top..bottom] and columns
    [left..right]. *)
Definition windowSum (img : PixelBuffer) (top bottom left right : Z) : Z :=
  sumRange top (bottom + 1) (fun y =>
    sumRange left (right + 1) (fun x => pixel img y x)).

(** The square window centred at [(x, y)], clipped at the borders of
    the image.  Its radius is the code's [halfBlock],
    [floor(blockSize / 2)], so its side is [2 * radius + 1]: [blockSize]
    for an odd block size, [blockSize + 1] for an even one. *)
Definition radius (blockSize : Z) : Z := blockSize / 2.
Definition top (blockSize y : Z) : Z := Z.max 0 (y - radius blockSize).
Definition bottom (img : PixelBuffer) (blockSize y : Z) : Z :=
  Z.min (height img - 1) (y + radius blockSize).
Definition left (blockSize x : Z) : Z := Z.max 0 (x - radius blockSize).
Definition right (img : PixelBuffer) (blockSize x : Z) : Z :=
  Z.min (width img - 1) (x + radius blockSize).

(** Number of pixels of the clipped window. *)
Definition windowArea (img : PixelBuffer) (blockSize y x : Z) : Z :=
  (right img blockSize x - left blockSize x + 1)
  * (bottom img blockSize y - top blockSize y + 1).

(** The mean of the intensities over the clipped window as the code
    has it: the binary64 quotient of the sum of the window's pixels by
    their number. *)
Definition localMean (img : PixelBuffer) (blockSize y x : Z) : float64 :=
  fdiv (ofZ (windowSum img (top blockSize y) (bottom img blockSize y)
               (left blockSize x) (right img blockSize x)))
       (ofZ (windowArea img blockSize y x)).

(** The same mean in exact arithmetic. *)
Definition exactMean (img : PixelBuffer) (blockSize y x : Z) : Q :=
  (inject_Z (windowSum img (top blockSize y) (bottom img blockSize y)
               (left blockSize x) (right img blockSize x))
   / inject_Z (windowArea img blockSize y x))%Q.

(** The rational a finite binary64 number stands for. *)
Definition exactValue (a : float64) : Q :=
  match a with
  | S754_finite s m e =>
      ((if s then -1 else 1) * inject_Z (Zpos m) * 2 ^ e)%Q
  | _ => 0%Q
  end.

(** *** Sums over ranges *)

Lemma sumRange_empty lo hi f : hi <= lo -> sumRange lo hi f = 0.
Proof. intros. unfold sumRange. by rewrite forRange_empty. Qed.

Lemma sumRange_snoc lo hi f :
  lo <= hi -> sumRange lo (hi + 1) f = sumRange lo hi f + f hi.
Proof. intros. unfold sumRange. by rewrite forRange_snoc. Qed.

Lemma range_induction (P : Z -> Prop) (lo : Z) :
  P lo -> (forall i, lo <= i -> P i -> P (i + 1)) ->
  forall hi, lo <= hi -> P hi.
Proof.
  intros Hlo Hstep hi Hle.
  replace hi with (lo + Z.of_nat (Z.to_nat (hi - lo))) by lia.
  induction (Z.to_nat (hi - lo)) as [|n IH].
  - by rewrite Z.add_0_r.
  - replace (lo + Z.of_nat (S n)) with (lo + Z.of_nat n + 1) by lia.
    apply Hstep; [lia|done].
Qed.

Lemma sumRange_split lo mid hi f :
  lo <= mid <= hi -> sumRange lo hi f = sumRange lo mid f + sumRange mid hi f.
Proof.
  intros [Hlo Hhi]. revert hi Hhi. apply range_induction.
  - rewrite (sumRange_empty mid mid) by lia. lia.
  - intros i Hi IH. rewrite !sumRange_snoc by lia. lia.
Qed.

Lemma sumRange_ext lo hi f g :
  (forall i, lo <= i < hi -> f i = g i) -> sumRange lo hi f = sumRange lo hi g.
Proof.
  destruct (Z.le_gt_cases lo hi) as [Hle|Hgt];
    [|intros _; by rewrite !sumRange_empty by lia].
  revert hi Hle. apply (range_induction
    (fun hi => (forall i, lo <= i < hi -> f i = g i) ->
               sumRange lo hi f = sumRange lo hi g)).
  - intros _. by rewrite !sumRange_empty by lia.
  - intros i Hi IH Hext. rewrite !sumRange_snoc by lia.
    rewrite IH, Hext; [done|lia|]. intros j Hj. apply Hext. lia.
Qed.

Lemma sumRange_sub lo hi f g :
  sumRange lo hi (fun i => f i - g i) = sumRange lo hi f - sumRange lo hi g.
Proof.
  destruct (Z.le_gt_cases lo hi) as [Hle|Hgt];
    [|by rewrite !sumRange_empty by lia].
  revert hi Hle. apply range_induction.
  - by rewrite !sumRange_empty by lia.
  - intros i Hi IH. rewrite !sumRange_snoc by lia. lia.
Qed.

Lemma sumRange_zero lo hi : sumRange lo hi (fun _ => 0) = 0.
Proof.
  destruct (Z.le_gt_cases lo hi) as [Hle|Hgt];
    [|by rewrite !sumRange_empty by lia].
  revert hi Hle. apply range_induction.
  - by rewrite !sumRange_empty by lia.
  - intros i Hi IH. rewrite !sumRange_snoc by lia. lia.
Qed.

(** *** The summed-area table *)

(** Sum of the first [j] pixels of row [y], and of the first [j] pixels
    of each of the first [i] rows. *)
Definition rowPrefix (img : PixelBuffer) (y j : Z) : Z :=
  sumRange 0 j (fun x => pixel img y x).

Definition prefixSum (img : PixelBuffer) (i j : Z) : Z :=
  sumRange 0 i (fun y => rowPrefix img y j).

Lemma prefixSum_row0 img j : prefixSum img 0 j = 0.
Proof. unfold prefixSum. by rewrite sumRange_empty. Qed.

Lemma prefixSum_col0 img i : prefixSum img i 0 = 0.
Proof.
  unfold prefixSum, rowPrefix.
  rewrite (sumRange_ext _ _ _ (fun _ => 0)); [apply sumRange_zero|].
  intros y _. by rewrite sumRange_empty.
Qed.

Lemma prefixSum_snoc img i j :
  0 <= i -> prefixSum img (i + 1) j = prefixSum img i j + rowPrefix img i j.
Proof. intros. unfold prefixSum. by rewrite sumRange_snoc. Qed.

Lemma cell_writeByte (integral : list Z) (k0 v k : Z) :
  0 <= k0 < Z.of_nat (length integral) -> 0 <= k ->
  cell (writeByte integral k0 v) k = if k =? k0 then v else cell integral k.
Proof.
  intros Hk0 Hk. unfold cell, readByte, writeByte.
  destruct (Z.ltb_spec k0 0); [lia|]. destruct (Z.ltb_spec k 0); [lia|].
  destruct (Z.eqb_spec k k0) as [->|Hne].
  - by rewrite list_lookup_insert_eq by lia.
  - by rewrite list_lookup_insert_ne by lia.
Qed.

Lemma length_insert_writeByte (integral : list Z) (k v : Z) :
  length (writeByte integral k v) = length integral.
Proof. unfold writeByte. destruct (k <? 0); [done|]. apply length_insert. Qed.

Lemma cell_replicate (n : nat) (k : Z) : cell (replicate n 0) k = 0.
Proof.
  unfold cell, readByte. destruct (k <? 0); [done|].
  destruct (replicate n 0 !! Z.to_nat k) eqn:E; [|done].
  by apply lookup_replicate in E as [-> _].
Qed.

Section Table.

Variable img : PixelBuffer.
Hypothesis Hwf : wfPixelBuffer img.

Let w := width img.
Let h := height img.

(** Position of the table cell of row [i] and column [j]. *)
Definition cellIndex (i j : Z) : Z := i * (width img + 1) + j.

Lemma cellIndex_bound i j :
  0 <= i <= h -> 0 <= j <= w ->
  0 <= cellIndex i j < (w + 1) * (h + 1).
Proof.
  unfold cellIndex, w, h. intros Hi Hj. destruct Hwf as [Hw Hh _ _].
  assert (0 <= i * (width img + 1)) by nia.
  assert ((i + 1) * (width img + 1) <= (height img + 1) * (width img + 1))
    by nia.
  lia.
Qed.

Lemma cellIndex_inj i j i' j' :
  0 <= j <= w -> 0 <= j' <= w ->
  cellIndex i j = cellIndex i' j' -> i = i' /\ j = j'.
Proof.
  unfold cellIndex, w. intros Hj Hj' Heq.
  assert (i = i').
  { destruct (Z.lt_trichotomy i i') as [Hlt|[E|Hgt]]; [|done|].
    - assert ((i + 1) * (width img + 1) <= i' * (width img + 1)) by nia. lia.
    - assert ((i' + 1) * (width img + 1) <= i * (width img + 1)) by nia. lia. }
  subst. lia.
Qed.

(** The table holds the prefix sums of the cells marked [filled] and 0
    elsewhere. *)
Definition tableInv (filled : Z -> Z -> bool) (integral : list Z) : Prop :=
  Z.of_nat (length integral) = (w + 1) * (h + 1)
  /\ forall i j, 0 <= i <= h -> 0 <= j <= w ->
       cell integral (cellIndex i j)
       = if filled i j then prefixSum img i j else 0.

(** One row of the table. *)
Lemma integral_row (y : Z) (integral : list Z) :
  0 <= y < h ->
  tableInv (fun i _ => i <=? y) integral ->
  tableInv (fun i _ => i <=? y + 1)
    (snd (forRange 0 w (fun x '(rowSum, integral) =>
            let idx := (y * w + x) * channels img in
            let rowSum := rowSum + byteValue (data img) idx in
            (rowSum,
             writeByte integral ((y + 1) * (w + 1) + (x + 1))
               (cell integral (y * (w + 1) + (x + 1)) + rowSum)))
          (0, integral))).
Proof.
  intros Hy Hinv. pose proof Hwf as [Hw Hh _ _]. fold w in Hw. fold h in Hh.
  assert (Hloop :
    let st := forRange 0 w (fun x '(rowSum, integral) =>
                let idx := (y * w + x) * channels img in
                let rowSum := rowSum + byteValue (data img) idx in
                (rowSum,
                 writeByte integral ((y + 1) * (w + 1) + (x + 1))
                   (cell integral (y * (w + 1) + (x + 1)) + rowSum)))
               (0, integral) in
    fst st = rowPrefix img y w
    /\ tableInv (fun i j => (i <=? y) || ((i =? y + 1) && (j <=? w))) (snd st)).
  { apply (forRange_ind
             (fun x st =>
                fst st = rowPrefix img y x
                /\ tableInv (fun i j => (i <=? y)
                                        || ((i =? y + 1) && (j <=? x)))
                     (snd st))); [lia| |].
    - split; [unfold rowPrefix; by rewrite sumRange_empty|].
      destruct Hinv as [Hlen Hcells]. split; [done|].
      intros i j Hi Hj. rewrite Hcells by done.
      destruct (Z.leb_spec i y); [done|]. simpl.
      destruct (Z.eqb_spec i (y + 1)) as [->|]; [|done].
      destruct (Z.leb_spec j 0); [|done]. simpl.
      replace j with 0 by lia. by rewrite prefixSum_col0.
    - intros x [rowSum tbl] Hx [Hsum [Hlen Hcells]]. simpl in *.
      assert (Hrow : rowSum + byteValue (data img) ((y * w + x) * channels img)
                     = rowPrefix img y (x + 1)).
      { unfold rowPrefix. rewrite sumRange_snoc by lia. fold (rowPrefix img y x).
        by rewrite Hsum. }
      split; [done|].
      pose proof (cellIndex_bound (y + 1) (x + 1) ltac:(lia) ltac:(lia)) as Hb.
      unfold cellIndex in Hb. fold w in Hb.
      split; [by rewrite length_insert_writeByte|].
      intros i j Hi Hj.
      pose proof (cellIndex_bound i j Hi Hj) as Hbij.
      rewrite cell_writeByte by lia.
      destruct (Z.eqb_spec (cellIndex i j) ((y + 1) * (w + 1) + (x + 1)))
        as [E|Hne].
      + apply (cellIndex_inj i j (y + 1) (x + 1)) in E as [-> ->]; [|lia..].
        rewrite Z.eqb_refl, Z.leb_refl, orb_true_r.
        specialize (Hcells y (x + 1) ltac:(lia) ltac:(lia)).
        unfold cellIndex in Hcells. fold w in Hcells. rewrite Hcells.
        rewrite Z.leb_refl. simpl. rewrite Hrow.
        by rewrite prefixSum_snoc by lia.
      + rewrite Hcells by done.
        assert (Hij : ~ (i = y + 1 /\ j = x + 1)).
        { intros [-> ->]. by apply Hne. }
        destruct (Z.leb_spec i y); [done|]. simpl.
        destruct (Z.eqb_spec i (y + 1)) as [->|]; [|done]. simpl.
        destruct (Z.leb_spec j x), (Z.leb_spec j (x + 1)); try done; lia. }
  destruct Hloop as [_ [Hlen Hcells]]. split; [done|].
  intros i j Hi Hj. rewrite Hcells by done.
  destruct (Z.leb_spec i y), (Z.leb_spec i (y + 1)),
    (Z.eqb_spec i (y + 1)), (Z.leb_spec j w); simpl; try done; lia.
Qed.

(** The finished table holds every prefix sum. *)
Lemma buildIntegral_inv : tableInv (fun i _ => i <=? h) (buildIntegral img).
Proof.
  pose proof Hwf as [Hw Hh _ _]. fold w in Hw. fold h in Hh.
  unfold buildIntegral. fold w h.
  apply (forRange_ind (fun y tbl => tableInv (fun i _ => i <=? y) tbl));
    [lia| |].
  - split; [rewrite length_replicate; lia|].
    intros i' j' Hi' Hj'. rewrite cell_replicate.
    destruct (Z.leb_spec i' 0); [|done].
    replace i' with 0 by lia. by rewrite prefixSum_row0.
  - intros y tbl Hy Htbl. by apply integral_row.
Qed.

Lemma buildIntegral_spec (i j : Z) :
  0 <= i <= h -> 0 <= j <= w ->
  cell (buildIntegral img) (cellIndex i j) = prefixSum img i j.
Proof.
  intros Hi Hj. destruct buildIntegral_inv as [_ Hcells].
  rewrite Hcells by done. destruct (Z.leb_spec i h); [done|lia].
Qed.

(** Every cell the threshold loop reads is defined. *)
Lemma buildIntegral_read (i j : Z) :
  0 <= i <= h -> 0 <= j <= w ->
  readByte (buildIntegral img) (cellIndex i j) = Some (prefixSum img i j).
Proof.
  intros Hi Hj. rewrite <- (buildIntegral_spec i j Hi Hj).
  destruct buildIntegral_inv as [Hlen _].
  pose proof (cellIndex_bound i j Hi Hj) as Hb.
  unfold cell, readByte. destruct (Z.ltb_spec (cellIndex i j) 0); [lia|].
  destruct (buildIntegral img !! Z.to_nat (cellIndex i j)) eqn:E; [done|].
  apply lookup_ge_None in E. lia.
Qed.

(** The four-corner query of the table is the direct sum over the
    rectangle. *)
Lemma integral_window (y1 y2 x1 x2 : Z) :
  0 <= y1 <= y2 -> y2 < h -> 0 <= x1 <= x2 -> x2 < w ->
  cornerSum (readByte (buildIntegral img) ((y2 + 1) * (w + 1) + (x2 + 1)))
            (readByte (buildIntegral img) ((y2 + 1) * (w + 1) + x1))
            (readByte (buildIntegral img) (y1 * (w + 1) + (x2 + 1)))
            (readByte (buildIntegral img) (y1 * (w + 1) + x1))
  = ofZ (windowSum img y1 y2 x1 x2).
Proof.
  intros Hy1 Hy2 Hx1 Hx2.
  pose proof (buildIntegral_read (y2 + 1) (x2 + 1) ltac:(lia) ltac:(lia)) as E1.
  pose proof (buildIntegral_read (y2 + 1) x1 ltac:(lia) ltac:(lia)) as E2.
  pose proof (buildIntegral_read y1 (x2 + 1) ltac:(lia) ltac:(lia)) as E3.
  pose proof (buildIntegral_read y1 x1 ltac:(lia) ltac:(lia)) as E4.
  unfold cellIndex in *. fold w in E1, E2, E3, E4. rewrite E1, E2, E3, E4.
  cbn [cornerSum]. f_equal.
  unfold prefixSum, windowSum.
  rewrite (sumRange_split 0 y1 (y2 + 1) (fun y => rowPrefix img y (x2 + 1)))
    by lia.
  rewrite (sumRange_split 0 y1 (y2 + 1) (fun y => rowPrefix img y x1)) by lia.
  transitivity (sumRange y1 (y2 + 1)
                  (fun y => rowPrefix img y (x2 + 1) - rowPrefix img y x1)).
  - rewrite sumRange_sub. lia.
  - apply sumRange_ext. intros y _. unfold rowPrefix.
    rewrite (sumRange_split 0 x1 (x2 + 1)) by lia. lia.
Qed.

End Table.

(** The side of the window. *)
Lemma window_side (blockSize : Z) :
  2 * radius blockSize + 1
  = if Z.odd blockSize then blockSize else blockSize + 1.
Proof.
  unfold radius. pose proof (Z.div_mod blockSize 2 ltac:(lia)) as H.
  rewrite Zmod_odd in H. destruct (Z.odd blockSize); lia.
Qed.

(** [newValue] compares the pixel with the binary64 mean of its window
    less [C]. *)
Lemma thresholdValue_spec (img : PixelBuffer) (blockSize : Z) (C : float64)
  (y x : Z) :
  wfPixelBuffer img -> 0 <= blockSize -> inside img y x ->
  thresholdValue img (buildIntegral img) (blockSize / 2) C y x
  = if fltb (fsub (localMean img blockSize y x) C) (ofZ (pixel img y x))
    then 255 else 0.
Proof.
  intros Hwf Hpos [Hy Hx].
  assert (Hr : 0 <= radius blockSize) by (unfold radius; apply Z.div_pos; lia).
  unfold thresholdValue, localMean, windowArea, pixel.
  fold (radius blockSize).
  fold (top blockSize y) (left blockSize x) (bottom img blockSize y)
    (right img blockSize x).
  rewrite (integral_window img Hwf)
    by (unfold top, bottom, left, right; lia).
  destruct (readByte_inside img Hwf y x (conj Hy Hx)) as (v & Hread & _).
  unfold byteValue. by rewrite Hread.
Qed.

Lemma thresholdPixels_writes (img : PixelBuffer) (blockSize : Z)
  (C : float64) :
  wfPixelBuffer img ->
  Writes (width img) (height img) (channels img)
    (forRange 0 (height img) (fun y =>
       forRange 0 (width img) (fun x outputData =>
         let newValue :=
           thresholdValue img (buildIntegral img) (blockSize / 2) C y x in
         let idx := (y * width img + x) * channels img in
         writePixel (channels img) idx newValue outputData)))
    (fun y x =>
       Some (thresholdValue img (buildIntegral img) (blockSize / 2) C y x)).
Proof.
  intros [Hw Hh Hch Hlen].
  apply (writes_pixel_loops _ _ _ Hw Hh Hch). intros y x Hin.
  apply (writes_writePixel _ _ _ Hw Hh Hch y x _ Hin).
Qed.

Lemma thresholdPixels_lookup (img : PixelBuffer) (blockSize : Z)
  (C : float64) (y x c : Z) :
  wfPixelBuffer img -> inside img y x -> 0 <= c < channels img ->
  data (thresholdPixels img blockSize C) !! byteIndex img y x c
  = Some (thresholdValue img (buildIntegral img) (blockSize / 2) C y x).
Proof.
  intros Hwf Hin Hc.
  exact (writes_on_fill img Hwf _ _ 0 y x c
           (thresholdPixels_writes img blockSize C Hwf) Hin Hc).
Qed.

(** *** The claim *)

(** A 3x3 single-channel image with one bright pixel in the middle. *)
Definition sampleGray : PixelBuffer :=
  mkPixelBuffer 3 3 1 [10; 10; 10; 10; 200; 10; 10; 10; 10].

Lemma sampleGray_wf : wfPixelBuffer sampleGray.
Proof. constructor; simpl; lia. Qed.

Example sampleGray_threshold :
  data (thresholdPixels sampleGray 3 (ofZ 8))
  = [0; 0; 0; 0; 255; 0; 0; 0; 0]
  /\ data (thresholdPixels sampleGray 3 (ofZ 100))
     = [255; 255; 255; 255; 255; 255; 255; 255; 255].
Proof. split; vm_compute; reflexivity. Qed.

(** C3, as the code has it.  On a well-formed buffer, for every block
    size that is not negative and every [C]: the output has the width,
    height, channel count and length of the input, and every channel of
    the pixel at [(x, y)] holds 255 if the pixel's first-channel
    intensity is strictly above [localMean - C] and 0 otherwise.  There
    [localMean] is the binary64 quotient of the sum of the first-channel
    intensities over the window by the number of its pixels (the
    four-corner query of the table is that sum), the subtraction and
    the comparison are binary64 too, and the window is the square of
    radius [floor(blockSize / 2)] centred at the pixel and clipped at
    the borders: of side [blockSize] for an odd block size and
    [blockSize + 1] for an even one. *)
Theorem adaptive_threshold_local_mean (img : PixelBuffer) (blockSize : Z)
  (C : float64) :
  wfPixelBuffer img -> 0 <= blockSize ->
  let out := thresholdPixels img blockSize C in
  width out = width img /\ height out = height img
  /\ channels out = channels img
  /\ length (data out) = length (data img)
  /\ 2 * radius blockSize + 1
     = (if Z.odd blockSize then blockSize else blockSize + 1)
  /\ forall y x c, inside img y x -> 0 <= c < channels img ->
       data img !! byteIndex img y x 0 = Some (pixel img y x)
       /\ 0 < windowArea img blockSize y x
       /\ data out !! byteIndex img y x c
          = Some (if fltb (fsub (localMean img blockSize y x) C)
                       (ofZ (pixel img y x))
                  then 255 else 0).
Proof.
  intros Hwf Hpos out.
  split; [done|]. split; [done|]. split; [done|]. split.
  { exact (writes_length img Hwf _ _
             (thresholdPixels_writes img blockSize C Hwf) 0). }
  split; [apply window_side|].
  intros y x c Hin Hc. subst out.
  rewrite thresholdPixels_lookup, thresholdValue_spec by done.
  split.
  { destruct (readByte_inside img Hwf y x Hin) as (v & Hr & Hl).
    unfold pixel, byteValue. by rewrite Hr. }
  split; [|done].
  assert (Hr : 0 <= radius blockSize)
    by (unfold radius; apply Z.div_pos; lia).
  destruct Hin as [Hy Hx].
  unfold windowArea, top, bottom, left, right. nia.
Qed.

Lemma adaptive_threshold_local_mean_witness :
  wfPixelBuffer sampleGray /\ 0 <= 21
  /\ length (data (thresholdPixels sampleGray 21 (ofZ 8)))
     = length (data sampleGray).
Proof.
  assert (H1 : 0 <= 21) by lia.
  split; [exact sampleGray_wf|]. split; [exact H1|].
  exact (proj1 (proj2 (proj2 (proj2
    (adaptive_threshold_local_mean sampleGray 21 (ofZ 8)
       sampleGray_wf H1))))).
Defined.

(** *** Where the claim as stated fails *)

(** A single pixel of intensity 200, and the constant [2^-60]. *)
Definition singleGray : PixelBuffer := mkPixelBuffer 1 1 1 [200].
Definition tinyConstant : float64 :=
  S754_finite false 4503599627370496 (-112).

(** C3 as stated fails in two ways.  The mean, the subtraction and the
    comparison are binary64: on a single pixel of intensity 200 with
    [C = 2^-60] the pixel is strictly above the exact [mean - C], yet
    [200 - 2^-60] rounds to 200 and the code writes 0.  And the window
    of an even block size has side [blockSize + 1]: with block size 2
    the window of the middle pixel of a 3x3 image holds all 9 pixels,
    and the output is that of block size 3. *)
Lemma threshold_rounds_and_widens :
  (exactValue tinyConstant == 1 # 2 ^ 60)%Q
  /\ (exactMean singleGray 1 0 0 - exactValue tinyConstant
      < inject_Z (pixel singleGray 0 0))%Q
  /\ data (thresholdPixels singleGray 1 tinyConstant) = [0]
  /\ windowArea sampleGray 2 1 1 = 9
  /\ thresholdPixels sampleGray 2 (ofZ 8) = thresholdPixels sampleGray 3 (ofZ 8).
Proof. repeat split; vm_compute; reflexivity. Qed.

End ThresholdProps.

(** ** Stub collaborators for the closed examples *)

Module Stubs.

(** A codec on buffers that are the decoded image itself; every
    operation succeeds and leaves the image as it is, which is what the
    real operations do to a blank page up to its size. *)
#[export] Instance blankPageCodec : ImageCodec PixelBuffer := {|
  metadata b := Ok (mkMetadata (Some (width b)) (Some (height b)));
  grayscalePng b := Ok b;
  normalizePng b := Ok b;
  linearPng _ _ b := Ok b;
  medianPng _ b := Ok b;
  sharpenPng _ b := Ok b;
  resizePng _ _ b := Ok b;
  rotatePng _ b := Ok b;
  grayscaleNormalizeSharpenPng b := Ok b;
  raw b := Ok b;
  fromRawPng b := Ok b;
  fromBase64 _ := mkPixelBuffer 1 1 1 [255];
|}.

Definition decodeError : Exn := Error [].

(** A codec given bytes that are no image: every operation rejects. *)
#[export] Instance corruptInputCodec : ImageCodec unit := {|
  metadata _ := Throw decodeError;
  grayscalePng _ := Throw decodeError;
  normalizePng _ := Throw decodeError;
  linearPng _ _ _ := Throw decodeError;
  medianPng _ _ := Throw decodeError;
  sharpenPng _ _ := Throw decodeError;
  resizePng _ _ _ := Throw decodeError;
  rotatePng _ _ := Throw decodeError;
  grayscaleNormalizeSharpenPng _ := Throw decodeError;
  raw _ := Throw decodeError;
  fromRawPng _ := Throw decodeError;
  fromBase64 _ := tt;
|}.

(** A codec on buffers that record the operations applied to them, on
    which the upscale of step 6 rejects (the image is small, so the step
    runs) and everything else succeeds. *)
#[export] Instance resizeFailsCodec : ImageCodec (list Z) := {|
  metadata _ := Ok (mkMetadata (Some 10) (Some 10));
  grayscalePng b := Ok (b ++ [1]);
  normalizePng b := Ok (b ++ [2]);
  linearPng _ _ b := Ok (b ++ [3]);
  medianPng _ b := Ok (b ++ [4]);
  sharpenPng _ b := Ok (b ++ [5]);
  resizePng _ _ _ := Throw decodeError;
  rotatePng _ b := Ok (b ++ [7]);
  grayscaleNormalizeSharpenPng b := Ok (b ++ [1; 2; 5]);
  raw _ := Ok (mkPixelBuffer 1 1 1 [255]);
  fromRawPng _ := Ok [8];
  fromBase64 _ := [];
|}.

End Stubs.

(** ** Skew estimation *)

Module SkewProps.

Import Threshold Skew ThresholdProps Float64Props.

(** [r] is the first candidate, in the order of [testAngles], whose
    variance is the greatest: no candidate has a greater variance, and
    no candidate before [r] has one as great. *)
Definition firstMaximiser (v : Z -> float64) (r : Z) : Prop :=
  r ∈ testAngles
  /\ (forall b, b ∈ testAngles -> fltb (v r) (v b) = false)
  /\ (forall b, b ∈ testAngles -> b < r -> fleb (v r) (v b) = false).

(** The loop over the candidates, once every variance is known. *)
Definition bestOver (v : Z -> float64) (l : list Z) (best : Z * float64)
  : Z * float64 :=
  fold_left (fun best a => keepBest a (v a) best) l best.

Lemma keepBest_cases (a : Z) (q : float64) (best : Z * float64) :
  (fltb (snd best) q = true /\ keepBest a q best = (a, q))
  \/ (fltb (snd best) q = false /\ keepBest a q best = best).
Proof. unfold keepBest. destruct (fltb (snd best) q); [by left|by right]. Qed.

(** What stays below a number stays below every greater one. *)
Lemma not_above_mono (m q b : float64) :
  fltb m q = true -> fltb m b = false -> fleb q b = false.
Proof.
  intros Hlt Hnot. destruct (fleb q b) eqn:E; [|done].
  by rewrite (fltb_fleb_trans m q b Hlt E) in Hnot.
Qed.

(** Either no candidate beats the initial variance and the initial pair
    is kept, or the result is the first of the candidates with the
    greatest variance. *)
Lemma bestOver_spec (v : Z -> float64) (l : list Z) (best0 : Z * float64) :
  (bestOver v l best0 = best0
   /\ forall a, a ∈ l -> fltb (snd best0) (v a) = false)
  \/ (exists l1 l2,
        l = l1 ++ fst (bestOver v l best0) :: l2
        /\ snd (bestOver v l best0) = v (fst (bestOver v l best0))
        /\ fltb (snd best0) (v (fst (bestOver v l best0))) = true
        /\ (forall b, b ∈ l1 ->
              fleb (v (fst (bestOver v l best0))) (v b) = false)
        /\ (forall b, b ∈ l2 ->
              fltb (v (fst (bestOver v l best0))) (v b) = false)).
Proof.
  induction l as [|a l IH] using rev_ind.
  - left. split; [done|]. intros a Ha. by apply elem_of_nil in Ha.
  - unfold bestOver in *. rewrite fold_left_app. simpl.
    set (res := fold_left (fun best a => keepBest a (v a) best) l best0) in *.
    destruct (keepBest_cases a (v a) res) as [[Hlt ->]|[Hle ->]]; simpl.
    + right. exists l, []. split; [done|]. split; [done|].
      destruct IH as [[Eres Hall]|(l1 & l2 & El & Esnd & Hgt & Hl1 & Hl2)].
      * rewrite Eres in Hlt. split; [done|]. split.
        -- intros b Hb. eapply not_above_mono; [done|by apply Hall].
        -- intros b Hb. by apply elem_of_nil in Hb.
      * rewrite Esnd in Hlt. split.
        { eapply fltb_fleb_trans; [done|by apply fltb_fleb]. }
        split.
        -- intros b Hb. rewrite El in Hb.
           apply elem_of_app in Hb as [Hb|Hb%elem_of_cons].
           ++ destruct (fleb (v a) (v b)) eqn:E; [|done].
              pose proof (fltb_fleb_trans _ _ _ Hlt E) as Hrb.
              apply fltb_fleb in Hrb. by rewrite (Hl1 b Hb) in Hrb.
           ++ destruct Hb as [->|Hb]; [by apply fltb_asym|].
              eapply not_above_mono; [done|by apply Hl2].
        -- intros b Hb. by apply elem_of_nil in Hb.
    + destruct IH as [[Eres Hall]|(l1 & l2 & El & Esnd & Hgt & Hl1 & Hl2)].
      * left. split; [done|]. intros b [Hb|Hb%list_elem_of_singleton]%elem_of_app.
        -- by apply Hall.
        -- subst b. by rewrite Eres in Hle.
      * right. exists l1, (l2 ++ [a]). split.
        { rewrite El at 1. by rewrite <- app_assoc. }
        split; [done|]. split; [done|]. split; [done|].
        intros b [Hb|Hb%list_elem_of_singleton]%elem_of_app.
        -- by apply Hl2.
        -- subst b. by rewrite Esnd in Hle.
Qed.

(** In an ascending list, what is smaller than an element comes before
    it. *)
Lemma ascending_before (l1 l2 : list Z) (r b : Z) :
  StronglySorted Z.lt (l1 ++ r :: l2) ->
  b ∈ l1 ++ r :: l2 -> b < r -> b ∈ l1.
Proof.
  intros Hs Hb Hlt. induction l1 as [|a l1 IH]; simpl in *.
  - apply StronglySorted_inv in Hs as [_ Hs].
    apply elem_of_cons in Hb as [->|Hb]; [lia|].
    rewrite Forall_forall in Hs. specialize (Hs b Hb). lia.
  - apply StronglySorted_inv in Hs as [Hs _].
    apply elem_of_cons in Hb as [->|Hb]; [by left|].
    right. by apply IH.
Qed.

Lemma testAngles_ascending : StronglySorted Z.lt testAngles.
Proof. unfold testAngles. repeat constructor; lia. Qed.

Section WithCodec.
Context {Buffer : Type} `{!ImageCodec Buffer}.

(** The body of the [for ... of] loop. *)
Definition tryAngle (imageBuffer : Buffer) (angle : Z) (best : Z * float64)
  : Outcome (Z * float64) :=
  variance <- angleVariance imageBuffer angle ;;
  mret (keepBest angle variance best).

Lemma tryAngle_ok (imageBuffer : Buffer) (a : Z) (q : float64)
  (best : Z * float64) :
  angleVariance imageBuffer a = Ok q ->
  tryAngle imageBuffer a best = Ok (keepBest a q best).
Proof. unfold tryAngle. by intros ->. Qed.

Lemma tryAngle_throw (imageBuffer : Buffer) (a : Z) (e : Exn)
  (best : Z * float64) :
  angleVariance imageBuffer a = Throw e ->
  tryAngle imageBuffer a best = Throw e.
Proof. unfold tryAngle. by intros ->. Qed.

Lemma forOf_all_ok (imageBuffer : Buffer) (v : Z -> float64) (l : list Z) :
  (forall a, a ∈ l -> angleVariance imageBuffer a = Ok (v a)) ->
  forall best,
    forOf l (tryAngle imageBuffer) best = Ok (bestOver v l best).
Proof.
  induction l as [|a l IH]; intros Hok best; [done|].
  cbn [forOf]. rewrite (tryAngle_ok _ _ (v a)) by (apply Hok; by left).
  change (bestOver v (a :: l) best) with (bestOver v l (keepBest a (v a) best)).
  apply IH. intros b Hb. apply Hok. by right.
Qed.

Lemma forOf_some_throw (imageBuffer : Buffer) (l : list Z) (a : Z) (e : Exn) :
  a ∈ l -> angleVariance imageBuffer a = Throw e ->
  forall best, exists e', forOf l (tryAngle imageBuffer) best = Throw e'.
Proof.
  induction l as [|b l IH]; intros Ha Hthrow best.
  - by apply elem_of_nil in Ha.
  - cbn [forOf].
    destruct (angleVariance imageBuffer b) as [q|e'] eqn:E.
    + rewrite (tryAngle_ok _ _ q) by done.
      apply elem_of_cons in Ha as [->|Ha]; [congruence|]. by apply IH.
    + rewrite (tryAngle_throw _ _ e') by done. by exists e'.
Qed.

Lemma estimateSkewAngle_cases (imageBuffer : Buffer) :
  estimateSkewAngle imageBuffer
  = match raw imageBuffer with
    | Ok _ =>
        match forOf testAngles (tryAngle imageBuffer) (0, ofZ 0) with
        | Ok best => Ok (fst best)
        | Throw _ => Ok 0
        end
    | Throw _ => Ok 0
    end.
Proof.
  unfold estimateSkewAngle. destruct (raw imageBuffer); [|reflexivity].
  change (forOf testAngles _ (0, ofZ 0))
    with (forOf testAngles (tryAngle imageBuffer) (0, ofZ 0)).
  by destruct (forOf testAngles (tryAngle imageBuffer) (0, ofZ 0)).
Qed.

(** C5, as the code has it.  [estimateSkewAngle] always resolves.  It
    resolves to 0 when decoding the input or measuring some candidate
    fails.  When every candidate is measured, it resolves to 0 if no
    candidate has a positive variance, and otherwise to the first
    candidate, in ascending order, whose variance is the greatest.  The
    variances are the binary64 numbers the code computes and compares:
    two candidates tie when those numbers are equal. *)
Theorem skew_angle_first_positive_maximiser (imageBuffer : Buffer) :
  (exists r, estimateSkewAngle imageBuffer = Ok r)
  /\ (forall e, raw imageBuffer = Throw e ->
        estimateSkewAngle imageBuffer = Ok 0)
  /\ (forall a e, a ∈ testAngles ->
        angleVariance imageBuffer a = Throw e ->
        estimateSkewAngle imageBuffer = Ok 0)
  /\ (forall img v,
        raw imageBuffer = Ok img ->
        (forall a, a ∈ testAngles -> angleVariance imageBuffer a = Ok (v a)) ->
        ((forall a, a ∈ testAngles -> fltb (ofZ 0) (v a) = false)
         /\ estimateSkewAngle imageBuffer = Ok 0)
        \/ (exists r, estimateSkewAngle imageBuffer = Ok r
                      /\ fltb (ofZ 0) (v r) = true /\ firstMaximiser v r)).
Proof.
  rewrite estimateSkewAngle_cases. repeat apply conj.
  - destruct (raw imageBuffer) as [img|e]; [|by exists 0].
    destruct (forOf testAngles (tryAngle imageBuffer) (0, ofZ 0)) as [best|e];
      by eexists.
  - by intros e ->.
  - intros a e Ha Hthrow.
    destruct (raw imageBuffer) as [img|e0]; [|done].
    destruct (forOf_some_throw imageBuffer testAngles a e Ha Hthrow (0, ofZ 0))
      as [e' ->]. done.
  - intros img v -> Hok. rewrite (forOf_all_ok imageBuffer v) by done.
    destruct (bestOver_spec v testAngles (0, ofZ 0))
      as [[-> Hall]|(l1 & l2 & El & Esnd & Hgt & Hl1 & Hl2)].
    + left. done.
    + right. eexists. split; [done|]. split; [done|].
      set (r := fst (bestOver v testAngles (0, ofZ 0))) in *.
      assert (Hr : r ∈ testAngles).
      { rewrite El. apply elem_of_app. right. by left. }
      split; [done|]. split.
      * intros b Hb. rewrite El in Hb.
        apply elem_of_app in Hb as [Hb|Hb%elem_of_cons].
        -- destruct (fltb (v r) (v b)) eqn:E; [|done].
           apply fltb_fleb in E. by rewrite (Hl1 b Hb) in E.
        -- destruct Hb as [->|Hb]; [|by apply Hl2].
           destruct (fltb (v r) (v r)) eqn:E; [|done].
           pose proof (fltb_fleb _ _ E) as E1.
           by rewrite (fltb_asym _ _ E) in E1.
      * intros b Hb Hlt. apply Hl1.
        apply (ascending_before l1 l2 r b); [|by rewrite <- El|done].
        rewrite <- El. apply testAngles_ascending.
Qed.

End WithCodec.

(** *** Rounding, and a blank page *)

(** The variance is the binary64 number the code computes: the row
    counts 0, 1, 6 and 6, 1, 0 have the same exact variance, 62/9, and
    different computed ones. *)
Example variance_depends_on_order :
  rowVariance [0; 1; 6] = S754_finite false 7756199358249187 (-50)
  /\ rowVariance [6; 1; 0] = S754_finite false 7756199358249188 (-50)
  /\ fltb (rowVariance [0; 1; 6]) (rowVariance [6; 1; 0]) = true.
Proof. repeat split; vm_compute; reflexivity. Qed.

Import Stubs.

Definition blankPage : PixelBuffer := mkPixelBuffer 2 2 1 [255; 255; 255; 255].

(** The variance measured on the blank page, whatever the angle. *)
Definition blankVariance (angle : Z) : float64 :=
  rowVariance (darkRowCounts blankPage).

Lemma skew_angle_first_positive_maximiser_witness :
  exists r, estimateSkewAngle blankPage = Ok r.
Proof.
  exact (proj1 (skew_angle_first_positive_maximiser blankPage)).
Defined.

(** C5 as stated fails on a blank page: every candidate has variance 0,
    so the first candidate of greatest variance is -5, and the code
    resolves to 0. *)
Lemma skew_tie_not_first_seen :
  (forall a, a ∈ testAngles -> angleVariance blankPage a = Ok (blankVariance a))
  /\ firstMaximiser blankVariance (-5)
  /\ estimateSkewAngle blankPage = Ok 0
  /\ ~ firstMaximiser blankVariance 0.
Proof.
  split; [done|]. split; [|split; [vm_compute; reflexivity|]].
  - split; [by left|]. split; [done|].
    intros b Hb Hlt. exfalso. unfold testAngles in Hb.
    repeat (apply elem_of_cons in Hb as [->|Hb]; [lia|]).
    by apply elem_of_nil in Hb.
  - intros (_ & _ & Hfirst).
    assert (Hin : -5 ∈ testAngles) by by left.
    by specialize (Hfirst (-5) Hin ltac:(lia)).
Qed.

(** A page with a dark upper and a white lower half.  The stub codec
    leaves an image as it is when asked to rotate it, so the eleven
    candidates have the same positive variance, and the first of them
    is returned. *)
Definition halfDarkPage : PixelBuffer :=
  mkPixelBuffer 2 2 1 [0; 0; 255; 255].

Example tie_goes_to_first_candidate :
  rowVariance (darkRowCounts halfDarkPage) = ofZ 1
  /\ estimateSkewAngle halfDarkPage = Ok (-5).
Proof. split; vm_compute; reflexivity. Qed.

End SkewProps.

(** ** The preprocessing pipeline *)

Module PreprocessProps.

Import Preprocess Stubs.

Section WithCodec.
Context {Buffer : Type} `{!ImageCodec Buffer}.

(** C1, as the code has it.  When the ten stages succeed their buffer is
    returned.  When they fail on a first attempt ([attempt < 2]) the
    simplified sequence is tried and, if that fails too, the
    grayscale-only conversion decides the result; on a later attempt the
    simplified sequence is skipped.  A buffer is returned whenever the
    grayscale-only conversion of the input succeeds; if it rejects, so
    does the function.  Each call writes its start line on the console
    and touches nothing else. *)
Theorem preprocess_degrade_path (imageBuffer : Buffer) (attempt : Z) :
  (forall b, tenStages imageBuffer attempt = Ok b ->
     preprocessOutcome imageBuffer attempt = Ok b)
  /\ (forall e, tenStages imageBuffer attempt = Throw e ->
        (attempt < 2 ->
         forall b, grayscaleNormalizeSharpenPng imageBuffer = Ok b ->
           preprocessOutcome imageBuffer attempt = Ok b)
        /\ (attempt < 2 ->
            forall e', grayscaleNormalizeSharpenPng imageBuffer = Throw e' ->
              preprocessOutcome imageBuffer attempt = grayscalePng imageBuffer)
        /\ (2 <= attempt ->
            preprocessOutcome imageBuffer attempt = grayscalePng imageBuffer))
  /\ (forall g, grayscalePng imageBuffer = Ok g ->
        exists b, preprocessOutcome imageBuffer attempt = Ok b)
  /\ (forall (World : Type) (st : State World),
        preprocessImageForOCR imageBuffer attempt st
        = (preprocessOutcome imageBuffer attempt,
           mkState (world st) (console st ++ [LogPreprocessStart attempt]))).
Proof.
  unfold preprocessOutcome, degrade. repeat apply conj.
  - by intros b ->.
  - intros e ->. simpl. repeat apply conj.
    + intros Hlt b Hb. destruct (Z.ltb_spec attempt 2); [|lia]. by rewrite Hb.
    + intros Hlt e' He'. destruct (Z.ltb_spec attempt 2); [|lia].
      by rewrite He'.
    + intros Hge. by destruct (Z.ltb_spec attempt 2); [lia|].
  - intros g Hg. destruct (tenStages imageBuffer attempt) as [b|e]; simpl;
      [by exists b|].
    destruct (attempt <? 2); [|by exists g].
    destruct (grayscaleNormalizeSharpenPng imageBuffer) as [b|e']; simpl;
      [by exists b|by exists g].
  - done.
Qed.

End WithCodec.

Lemma preprocess_degrade_path_witness :
  exists b : PixelBuffer,
    preprocessOutcome (mkPixelBuffer 1 1 1 [255]) 1 = Ok b.
Proof.
  exact (proj1 (proj2 (proj2
           (preprocess_degrade_path (mkPixelBuffer 1 1 1 [255]) 1)))
           (mkPixelBuffer 1 1 1 [255]) eq_refl).
Defined.

Example blank_page_preprocessed :
  preprocessOutcome (mkPixelBuffer 1 1 1 [255]) 1
  = Ok (mkPixelBuffer 1 1 1 [255]).
Proof. vm_compute. reflexivity. Qed.

(** C1 as stated fails twice.  On bytes that are no image every
    conversion rejects, the last one included, and the function rejects.
    And on a second attempt the simplified sequence is not tried, even
    where it would succeed: the grayscale-only buffer is returned. *)
Lemma preprocess_rejects_and_skips_retry :
  preprocessOutcome tt 1 = Throw decodeError
  /\ tenStages ([] : list Z) 2 = Throw decodeError
  /\ grayscaleNormalizeSharpenPng ([] : list Z) = Ok [1; 2; 5]
  /\ preprocessOutcome ([] : list Z) 2 = Ok [1]
  /\ preprocessOutcome ([] : list Z) 1 = Ok [1; 2; 5].
Proof. repeat split; vm_compute; reflexivity. Qed.

End PreprocessProps.

(** ** Text correction *)

Module CorrectorProps.

Import Corrector.

(** A completion service with a key configured that answers from a list
    of canned replies, and rejects when the list is exhausted. *)
#[export] Instance cannedCompletion : TextCompletion (list (option jsstring)) := {|
  GROQ_API_KEY := Some [107%N];
  chatCompletion _ w :=
    match w with
    | reply :: rest => (Ok reply, rest)
    | [] => (Throw (Error []), [])
    end;
|}.

Section WithCompletion.
Context {World : Type} `{!TextCompletion World}.

(** The corrector always resolves, and leaves the console alone. *)
Lemma correct_total (rawText : jsstring) (st : State World) :
  exists corrected w',
    correctArabicOCRText rawText st
    = (Ok corrected, mkState w' (console st)).
Proof.
  unfold correctArabicOCRText. destruct noApiKey; [destruct st; by eexists _, _|].
  destruct (strlen rawText <? 5); [destruct st; by eexists _, _|].
  unfold tryCatchM, callWorld, mbind, M_bind.
  destruct (chatCompletion (CorrectionPrompt rawText) (world st)) as [[c|e] w'].
  - destruct (trimmedContent c); by eexists _, _.
  - by eexists _, _.
Qed.

(** C8, as the code has it.  The input comes back unchanged when no key
    is configured or the input is shorter than 5.  Otherwise the
    collaborator is called once; the result is its output with the
    surrounding white space trimmed, or the input when that trimmed
    output is empty or absent, or when the collaborator throws. *)
Theorem correct_text_degrades (rawText : jsstring) (st : State World) :
  (noApiKey = true \/ strlen rawText < 5 ->
   correctArabicOCRText rawText st = (Ok rawText, st))
  /\ (noApiKey = false -> 5 <= strlen rawText ->
      forall r w',
        chatCompletion (CorrectionPrompt rawText) (world st) = (r, w') ->
        (forall e, r = Throw e ->
           correctArabicOCRText rawText st
           = (Ok rawText, mkState w' (console st)))
        /\ (forall output, r = Ok (Some output) -> trim output <> [] ->
              correctArabicOCRText rawText st
              = (Ok (trim output), mkState w' (console st)))
        /\ (forall output, r = Ok (Some output) -> trim output = [] ->
              correctArabicOCRText rawText st
              = (Ok rawText, mkState w' (console st)))
        /\ (r = Ok None ->
            correctArabicOCRText rawText st
            = (Ok rawText, mkState w' (console st)))).
Proof.
  unfold correctArabicOCRText. split.
  - intros [->|Hlen]; [done|]. destruct noApiKey; [done|].
    by destruct (Z.ltb_spec (strlen rawText) 5); [|lia].
  - intros -> Hlen r w' Hcall.
    destruct (Z.ltb_spec (strlen rawText) 5); [lia|].
    unfold tryCatchM, callWorld, mbind, M_bind. rewrite Hcall.
    repeat apply conj.
    + by intros e ->.
    + intros output -> Hne. unfold trimmedContent.
      by destruct (trim output).
    + intros output -> He. unfold trimmedContent. by rewrite He.
    + by intros ->.
Qed.

End WithCompletion.

(** "hello world" *)
Definition helloWorld : jsstring :=
  [104; 101; 108; 108; 111; 32; 119; 111; 114; 108; 100]%N.

(** " salam " and "salam" *)
Definition paddedReply : jsstring := [32; 115; 97; 108; 97; 109; 32]%N.
Definition trimmedReply : jsstring := [115; 97; 108; 97; 109]%N.

Lemma correct_text_degrades_witness :
  correctArabicOCRText helloWorld (mkState [] [])
  = (Ok helloWorld, mkState ([] : list (option jsstring)) []).
Proof.
  assert (Hkey : noApiKey (World := list (option jsstring)) = false)
    by reflexivity.
  assert (Hlen : 5 <= strlen helloWorld) by (vm_compute; discriminate).
  exact (proj1 (proj2 (correct_text_degrades helloWorld (mkState [] []))
                  Hkey Hlen (Throw (Error [])) [] eq_refl)
           (Error []) eq_refl).
Defined.

(** C8 as stated fails when the collaborator pads its output: what comes
    back is the trimmed output, not the output. *)
Lemma correct_text_trims_output :
  chatCompletion (CorrectionPrompt helloWorld) [Some paddedReply]
  = (Ok (Some paddedReply), [])
  /\ correctArabicOCRText helloWorld (mkState [Some paddedReply] [])
     = (Ok trimmedReply, mkState [] [])
  /\ trimmedReply <> paddedReply.
Proof. repeat split; vm_compute; try reflexivity. discriminate. Qed.

End CorrectorProps.

(** ** Running computations in [M] *)

Module RunProps.

Section Run.
Context {World : Type}.

Lemma run_bind_ok {A B : Type} (m : M World A) (k : A -> M World B)
  (st st' : State World) (a : A) :
  m st = (Ok a, st') -> (x <- m ;; k x) st = k a st'.
Proof. intros E. unfold mbind, M_bind. by rewrite E. Qed.

Lemma run_bind_throw {A B : Type} (m : M World A) (k : A -> M World B)
  (st st' : State World) (e : Exn) :
  m st = (Throw e, st') -> (x <- m ;; k x) st = (Throw e, st').
Proof. intros E. unfold mbind, M_bind. by rewrite E. Qed.

Lemma run_callWorld {A : Type} (f : World -> Outcome A * World)
  (st : State World) (r : Outcome A) (w : World) :
  f (world st) = (r, w) -> callWorld f st = (r, mkState w (console st)).
Proof. intros E. unfold callWorld. by rewrite E. Qed.

Lemma run_tryCatch_ok {A : Type} (m : M World A) (h : Exn -> M World A)
  (st st' : State World) (a : A) :
  m st = (Ok a, st') -> tryCatchM m h st = (Ok a, st').
Proof. intros E. unfold tryCatchM. by rewrite E. Qed.

Lemma run_tryCatch_throw {A : Type} (m : M World A) (h : Exn -> M World A)
  (st st' : State World) (e : Exn) :
  m st = (Throw e, st') -> tryCatchM m h st = h e st'.
Proof. intros E. unfold tryCatchM. by rewrite E. Qed.

Lemma run_preprocess {Buffer : Type} `{!ImageCodec Buffer}
  (imageBuffer : Buffer) (attempt : Z) (st : State World) :
  Preprocess.preprocessImageForOCR imageBuffer attempt st
  = (Preprocess.preprocessOutcome imageBuffer attempt,
     mkState (world st) (console st ++ [LogPreprocessStart attempt])).
Proof. reflexivity. Qed.

End Run.

End RunProps.

(** ** Recognition with retry *)

Module RecognitionProps.

Import Preprocess Corrector Recognition RunProps CorrectorProps Stubs.

(** A recognition engine that answers from a list of canned texts and
    rejects when the list is exhausted; no completion key is
    configured in its world. *)
#[export] Instance cannedRecognition
  : RecognitionEngine PixelBuffer (list jsstring) := {|
  recognize _ w :=
    match w with
    | text :: rest => (Ok text, rest)
    | [] => (Throw (Error []), [])
    end;
|}.

#[export] Instance noCompletion : TextCompletion (list jsstring) := {|
  GROQ_API_KEY := None;
  chatCompletion _ w := (Throw (Error []), w);
|}.

Section WithCollaborators.
Context {Buffer World : Type}.
Context `{!ImageCodec Buffer, !RecognitionEngine Buffer World,
          !TextCompletion World}.

(** The body of the [try] block of [extractTextFromImageWithOCR]. *)
Definition attempts (base64Data : jsstring) : M World jsstring :=
  let originalBuffer := fromBase64 base64Data in
  processedBuffer <- preprocessImageForOCR originalBuffer 1 ;;
  text <- callWorld (recognize processedBuffer) ;;
  let rawText := trim text in
  if strlen rawText <? 3 then
    processedBuffer <- preprocessImageForOCR originalBuffer 2 ;;
    text <- callWorld (recognize processedBuffer) ;;
    let rawText := trim text in
    if strlen rawText <? 3 then mret NO_TEXT_FOUND
    else correctAndWrap rawText
  else correctAndWrap rawText.

Lemma extract_unfold (base64Data mimeType : jsstring) :
  extractTextFromImageWithOCR base64Data mimeType
  = tryCatchM (attempts base64Data) (fun _ => mret EXTRACTION_FAILED).
Proof. reflexivity. Qed.

(** The state in which the second recognition leaves the pipeline. *)
Lemma attempts_second (base64Data : jsstring) (st : State World)
  (p1 p2 : Buffer) (t1 t2 : jsstring) (w1 w2 : World) :
  preprocessOutcome (fromBase64 base64Data) 1 = Ok p1 ->
  recognize p1 (world st) = (Ok t1, w1) ->
  strlen (trim t1) < 3 ->
  preprocessOutcome (fromBase64 base64Data) 2 = Ok p2 ->
  recognize p2 w1 = (Ok t2, w2) ->
  attempts base64Data st
  = (if strlen (trim t2) <? 3 then mret NO_TEXT_FOUND
     else correctAndWrap (trim t2))
      (mkState w2 (console st ++ [LogPreprocessStart 1; LogPreprocessStart 2])).
Proof.
  intros Hp1 Hr1 Hshort Hp2 Hr2. unfold attempts.
  erewrite run_bind_ok; [|by rewrite run_preprocess, Hp1].
  erewrite run_bind_ok; [|by apply run_callWorld].
  destruct (Z.ltb_spec (strlen (trim t1)) 3); [|lia].
  erewrite run_bind_ok; [|by rewrite run_preprocess, Hp2].
  erewrite run_bind_ok; [|by apply run_callWorld].
  simpl. by rewrite <- app_assoc.
Qed.

(** C4, as the code has it.  The operation always resolves to a string.
    When both preprocessing runs and both recognitions succeed and the
    first text, trimmed, is shorter than 3: preprocessing has run
    exactly twice, with attempt 1 and then attempt 2; if the second
    text, trimmed, is shorter than 3 too the result is the
    "no readable text" sentinel; otherwise it is the OCR header line
    followed by the correction of the trimmed second text, which is the
    trimmed second text itself when no key is configured. *)
Theorem recognition_retry (base64Data mimeType : jsstring) (st : State World) :
  (exists s st',
     extractTextFromImageWithOCR base64Data mimeType st = (Ok s, st'))
  /\ forall (p1 p2 : Buffer) (t1 t2 : jsstring) (w1 w2 : World),
       preprocessOutcome (fromBase64 base64Data) 1 = Ok p1 ->
       recognize p1 (world st) = (Ok t1, w1) ->
       strlen (trim t1) < 3 ->
       preprocessOutcome (fromBase64 base64Data) 2 = Ok p2 ->
       recognize p2 w1 = (Ok t2, w2) ->
       let log :=
         console st ++ [LogPreprocessStart 1; LogPreprocessStart 2] in
       (strlen (trim t2) < 3 ->
        extractTextFromImageWithOCR base64Data mimeType st
        = (Ok NO_TEXT_FOUND, mkState w2 log))
       /\ (3 <= strlen (trim t2) ->
           exists corrected w3,
             correctArabicOCRText (trim t2) (mkState w2 log)
             = (Ok corrected, mkState w3 log)
             /\ extractTextFromImageWithOCR base64Data mimeType st
                = (Ok (OCR_HEADER ++ corrected), mkState w3 log))
       /\ (3 <= strlen (trim t2) -> noApiKey = true ->
           extractTextFromImageWithOCR base64Data mimeType st
           = (Ok (OCR_HEADER ++ trim t2), mkState w2 log)).
Proof.
  rewrite extract_unfold. split.
  - unfold tryCatchM. destruct (attempts base64Data st) as [[s|e] st'];
      by eexists _, _.
  - intros p1 p2 t1 t2 w1 w2 Hp1 Hr1 Hshort Hp2 Hr2 log.
    pose proof (attempts_second base64Data st p1 p2 t1 t2 w1 w2
                  Hp1 Hr1 Hshort Hp2 Hr2) as Hrun.
    fold log in Hrun. repeat apply conj.
    + intros Hlt. destruct (Z.ltb_spec (strlen (trim t2)) 3); [|lia].
      by erewrite run_tryCatch_ok.
    + intros Hge. destruct (Z.ltb_spec (strlen (trim t2)) 3); [lia|].
      destruct (correct_total (trim t2) (mkState w2 log))
        as (corrected & w3 & Hc).
      exists corrected, w3. split; [done|].
      erewrite run_tryCatch_ok; [done|]. rewrite Hrun.
      unfold correctAndWrap. by erewrite run_bind_ok.
    + intros Hge Hkey. destruct (Z.ltb_spec (strlen (trim t2)) 3); [lia|].
      erewrite run_tryCatch_ok; [done|]. rewrite Hrun.
      unfold correctAndWrap, correctArabicOCRText. by rewrite Hkey.
Qed.

End WithCollaborators.

(** "ab" and "salam alaykum" *)
Definition twoLetters : jsstring := [97; 98]%N.
Definition greeting : jsstring :=
  [115; 97; 108; 97; 109; 32; 97; 108; 97; 121; 107; 117; 109]%N.

Lemma recognition_retry_witness :
  exists s st',
    extractTextFromImageWithOCR (Buffer := PixelBuffer) [] []
      (mkState [[]; greeting] [])
    = (Ok s, st').
Proof.
  exact (proj1 (recognition_retry (Buffer := PixelBuffer) [] []
                  (mkState [[]; greeting] []))).
Defined.

(** C4 as stated fails.  With an empty first text and the non-empty
    second text "ab", the result is the sentinel, not "ab"; and with a
    second text of three characters or more the result is not that text
    but the header line followed by it. *)
Lemma recognition_returns_sentinel_or_header :
  extractTextFromImageWithOCR (Buffer := PixelBuffer) [] []
    (mkState [[]; twoLetters] [])
  = (Ok NO_TEXT_FOUND,
     mkState [] [LogPreprocessStart 1; LogPreprocessStart 2])
  /\ NO_TEXT_FOUND <> twoLetters
  /\ extractTextFromImageWithOCR (Buffer := PixelBuffer) [] []
       (mkState [[]; greeting] [])
     = (Ok (OCR_HEADER ++ greeting),
        mkState [] [LogPreprocessStart 1; LogPreprocessStart 2])
  /\ OCR_HEADER ++ greeting <> greeting.
Proof. repeat split; vm_compute; try reflexivity; discriminate. Qed.

End RecognitionProps.

(** ** Heading detection *)

Module StructureProps.

Import Corrector Structure JSProps RunProps CorrectorProps.

(** [m] occurs in [s]. *)
Definition substring (m s : jsstring) : Prop :=
  exists pre post, s = pre ++ m ++ post.

(** The span [matchJsonArray] extracts starts at the first '[' of the
    response and ends at its last ']'. *)
Lemma matchJsonArray_Some (responseText m : jsstring) :
  matchJsonArray responseText = Some m ->
  exists pre post,
    responseText = pre ++ m ++ post
    /\ (LBRACKET ∉ pre) /\ (RBRACKET ∉ post)
    /\ head m = Some LBRACKET /\ last m = Some RBRACKET.
Proof.
  unfold matchJsonArray.
  set (first := indexOf responseText LBRACKET).
  set (lst := lastIndexOf responseText RBRACKET (strlen responseText)).
  destruct (Z.leb_spec 0 first) as [Hf|]; [|done].
  destruct (Z.ltb_spec first lst) as [Hfl|]; [|done].
  simpl. intros [= <-].
  destruct (indexOf_spec responseText LBRACKET) as [[E _]|(k & E & Hk & Hpre)];
    fold first in E; [lia|].
  pose proof (lastIndexOf_found responseText RBRACKET (strlen responseText))
    as Hfound. simpl in Hfound. fold lst in Hfound.
  destruct Hfound as [E'|[Hr Hl]]; [lia|].
  apply lookup_lt_Some in Hl as Hlen.
  assert (Hlst : lst < strlen responseText) by (unfold strlen; lia).
  exists (take k responseText), (drop (Z.to_nat (lst + 1)) responseText).
  repeat apply conj.
  - rewrite slice_inrange by (unfold strlen in *; lia).
    rewrite E, Nat2Z.id.
    replace (Z.to_nat (lst + 1)) with (k + Z.to_nat (lst + 1 - Z.of_nat k))%nat
      by lia.
    rewrite <- (take_drop k responseText) at 1. f_equal.
    rewrite <- (take_drop (Z.to_nat (lst + 1 - Z.of_nat k))
                  (drop k responseText)) at 1.
    f_equal. by rewrite drop_drop.
  - done.
  - intros Hin. apply list_elem_of_lookup in Hin as [j Hj].
    rewrite lookup_drop in Hj.
    pose proof (lastIndexOf_max responseText RBRACKET (strlen responseText)
                  _ Hj) as Hmax.
    apply lookup_lt_Some in Hj. fold lst in Hmax. unfold strlen in *. lia.
  - rewrite slice_inrange by (unfold strlen in *; lia).
    rewrite E, Nat2Z.id. rewrite head_lookup, lookup_take_lt by lia.
    by rewrite lookup_drop, Nat.add_0_r.
  - rewrite last_slice by (unfold strlen in *; lia).
    by replace (lst + 1 - 1) with lst by lia.
Qed.

(** When nothing is extracted, no '[' of the response is followed by a
    ']'. *)
Lemma matchJsonArray_None (responseText : jsstring) :
  matchJsonArray responseText = None ->
  ~ exists i j : nat,
      (i < j)%nat /\ responseText !! i = Some LBRACKET
      /\ responseText !! j = Some RBRACKET.
Proof.
  unfold matchJsonArray. intros Hnone (i & j & Hij & Hi & Hj).
  pose proof (lastIndexOf_max responseText RBRACKET (strlen responseText)
                j Hj) as Hmax.
  apply lookup_lt_Some in Hj as Hjlen.
  specialize (Hmax ltac:(unfold strlen; lia)).
  destruct (indexOf_spec responseText LBRACKET) as [[_ Hnot]|(k & E & Hk & Hpre)].
  - apply Hnot. apply list_elem_of_lookup. by exists i.
  - assert (Hki : (k <= i)%nat).
    { destruct (decide (k <= i)%nat) as [|Hgt]; [done|]. exfalso.
      apply Hpre, list_elem_of_lookup. exists i.
      by rewrite lookup_take_lt by lia. }
    rewrite E in Hnone.
    destruct (Z.leb_spec 0 (Z.of_nat k)); [|lia].
    destruct (Z.ltb_spec (Z.of_nat k)
                (lastIndexOf responseText RBRACKET (strlen responseText)));
      [done|lia].
Qed.

(** Text around the array is tolerated when it has no '[' before the
    array and no ']' after it. *)
Lemma matchJsonArray_surrounded (pre arr post : jsstring) :
  LBRACKET ∉ pre -> RBRACKET ∉ post ->
  head arr = Some LBRACKET -> last arr = Some RBRACKET ->
  (2 <= length arr)%nat ->
  matchJsonArray (pre ++ arr ++ post) = Some arr.
Proof.
  intros Hpre Hpost Hhead Hlast Hlen.
  set (resp := pre ++ arr ++ post).
  assert (Hfirst : resp !! length pre = Some LBRACKET).
  { unfold resp. rewrite lookup_app_r by lia. rewrite Nat.sub_diag.
    rewrite lookup_app_l by lia. by rewrite <- head_lookup. }
  assert (Hend : resp !! (length pre + length arr - 1)%nat = Some RBRACKET).
  { unfold resp. rewrite lookup_app_r by lia. rewrite lookup_app_l by lia.
    rewrite last_lookup in Hlast. rewrite <- Hlast. f_equal. lia. }
  assert (Ei : indexOf resp LBRACKET = Z.of_nat (length pre)).
  { destruct (indexOf_spec resp LBRACKET) as [[_ Hnot]|(k & E & Hk & Hnot)].
    - exfalso. apply Hnot, list_elem_of_lookup. by eexists.
    - rewrite E. f_equal.
      destruct (Nat.lt_trichotomy k (length pre)) as [Hlt|[->|Hgt]]; [|done|].
      + exfalso. apply Hpre, list_elem_of_lookup. exists k.
        unfold resp in Hk. by rewrite lookup_app_l in Hk by lia.
      + exfalso. apply Hnot, list_elem_of_lookup. exists (length pre).
        by rewrite lookup_take_lt by lia. }
  assert (El : lastIndexOf resp RBRACKET (strlen resp)
               = Z.of_nat (length pre + length arr - 1)).
  { pose proof (lastIndexOf_max resp RBRACKET (strlen resp) _ Hend) as Hmax.
    apply lookup_lt_Some in Hend as Hb.
    specialize (Hmax ltac:(unfold strlen; lia)).
    pose proof (lastIndexOf_found resp RBRACKET (strlen resp)) as Hfound.
    simpl in Hfound. destruct Hfound as [E|[Hr Hl]]; [lia|].
    destruct (Z.lt_trichotomy (lastIndexOf resp RBRACKET (strlen resp))
                (Z.of_nat (length pre + length arr - 1)))
      as [Hlt|[E|Hgt]]; [lia|done|].
    exfalso. apply Hpost, list_elem_of_lookup.
    exists (Z.to_nat (lastIndexOf resp RBRACKET (strlen resp))
            - length pre - length arr)%nat.
    unfold resp in *. rewrite lookup_app_r in Hl by lia.
    by rewrite lookup_app_r in Hl by lia. }
  unfold matchJsonArray. fold resp. rewrite Ei, El.
  destruct (Z.leb_spec 0 (Z.of_nat (length pre))); [|lia].
  destruct (Z.ltb_spec (Z.of_nat (length pre))
              (Z.of_nat (length pre + length arr - 1))); [|lia].
  simpl. f_equal.
  rewrite slice_inrange by (unfold strlen, resp; rewrite ?length_app; lia).
  rewrite Nat2Z.id. unfold resp. rewrite drop_app_length.
  replace (Z.to_nat (Z.of_nat (length pre + length arr - 1) + 1
                     - Z.of_nat (length pre)))
    with (length arr) by lia.
  by rewrite take_app_length.
Qed.

Section WithRuntime.
Context `{!JsonRuntime}.
Context {World : Type} `{!TextCompletion World}.

(** The result of the detector once the collaborator has answered
    [responseText]: the structured document, or the fallback when
    building [plainText] throws. *)
Definition structured (rawText responseText : jsstring) : StructuredDocument :=
  match structureResponse rawText responseText with
  | Ok doc => doc
  | Throw _ => defaultResult rawText
  end.

(** C9, as the code has it.  The detector takes the span from the first
    '[' of the response to its last ']' and parses it.  It returns the
    single-section fallback when there is no such span, when the span
    does not parse, or when building the plain text throws; in
    particular when no part of the response parses.  Otherwise it
    returns the parsed sections with the plain text built from them; so
    an array is found inside surrounding text that has no '[' before it
    and no ']' after it. *)
Theorem heading_response_handling (rawText responseText : jsstring) :
  (matchJsonArray responseText = None ->
   structured rawText responseText = defaultResult rawText)
  /\ (forall m e,
        matchJsonArray responseText = Some m -> JSON_parse m = Throw e ->
        structured rawText responseText = defaultResult rawText)
  /\ (forall m parsed text,
        matchJsonArray responseText = Some m -> JSON_parse m = Ok parsed ->
        sectionsPlainText parsed = Ok text ->
        structured rawText responseText = mkStructuredDocument parsed text)
  /\ ((forall m, substring m responseText ->
         forall parsed, JSON_parse m <> Ok parsed) ->
      structured rawText responseText = defaultResult rawText)
  /\ (forall pre arr post parsed text,
        responseText = pre ++ arr ++ post ->
        LBRACKET ∉ pre -> RBRACKET ∉ post ->
        head arr = Some LBRACKET -> last arr = Some RBRACKET ->
        (2 <= length arr)%nat ->
        JSON_parse arr = Ok parsed -> sectionsPlainText parsed = Ok text ->
        structured rawText responseText = mkStructuredDocument parsed text)
  /\ (forall (st : State World) content w',
        noApiKey = false -> 100 <= strlen rawText ->
        chatCompletion
          (HeadingPrompt (if strlen rawText >? MAX_CHARS
                          then slice rawText 0 MAX_CHARS else rawText))
          (world st) = (Ok (Some content), w') ->
        trim content = responseText -> responseText <> [] ->
        detectHeadingsFromText rawText st
        = (Ok (structured rawText responseText), mkState w' (console st))).
Proof.
  unfold structured, structureResponse. repeat apply conj.
  - by intros ->.
  - by intros m e -> ->.
  - by intros m parsed text -> -> ->.
  - intros Hnone. destruct (matchJsonArray responseText) as [m|] eqn:Em; [|done].
    destruct (matchJsonArray_Some responseText m Em) as (pre & post & E & _).
    destruct (JSON_parse m) as [parsed|e] eqn:Ep; [|done].
    exfalso. apply (Hnone m ltac:(by exists pre, post) parsed Ep).
  - intros pre arr post parsed text -> Hpre Hpost Hhead Hlast Hlen Hp Ht.
    rewrite (matchJsonArray_surrounded pre arr post) by done.
    by rewrite Hp, Ht.
  - intros st content w' Hkey Hlen Hcall Htrim Hne.
    unfold detectHeadingsFromText. rewrite Hkey.
    destruct (Z.ltb_spec (strlen rawText) 100); [lia|].
    unfold tryCatchM, mbind, M_bind. rewrite (run_callWorld _ _ _ _ Hcall).
    unfold trimmedContent. rewrite Htrim.
    destruct responseText as [|c rest]; [done|].
    unfold liftOutcome, structureResponse.
    by destruct (match matchJsonArray (c :: rest) with
                 | Some jsonMatch => _
                 | None => _
                 end).
Qed.

End WithRuntime.

(** *** A response with a bracket after the array *)

(** A [JSON.parse] that knows the text "[]" only; on the two texts the
    example parses it answers as the real one does. *)
Definition emptyArrayJson : JsonRuntime := {|
  JSON_parse s :=
    if decide (s = [LBRACKET; RBRACKET]) then Ok (JArray [])
    else Throw (Error []);
  numberToString _ := [];
|}.

(** "[] ]" *)
Definition trailingBracket : jsstring := [LBRACKET; RBRACKET; 32%N; RBRACKET].

(** A text of 100 characters. *)
Definition longText : jsstring := replicate 100 97%N.

Lemma heading_response_handling_witness :
  @structured emptyArrayJson longText trailingBracket = defaultResult longText.
Proof.
  exact (proj1 (proj2 (@heading_response_handling emptyArrayJson
                         (list (option jsstring)) _ longText trailingBracket))
           trailingBracket (Error []) eq_refl eq_refl).
Defined.

(** C9 as stated fails: the response "[] ]" begins with the well-formed
    array "[]", yet the detector parses the whole span "[] ]", fails, and
    returns the fallback instead of the empty list of sections. *)
Lemma heading_detector_takes_widest_span :
  substring [LBRACKET; RBRACKET] trailingBracket
  /\ @JSON_parse emptyArrayJson [LBRACKET; RBRACKET] = Ok (JArray [])
  /\ matchJsonArray trailingBracket = Some trailingBracket
  /\ @detectHeadingsFromText emptyArrayJson _ cannedCompletion longText
       (mkState [Some trailingBracket] [])
     = (Ok (defaultResult longText), mkState [] [])
  /\ defaultResult longText <> mkStructuredDocument (JArray []) [].
Proof.
  split; [by exists [], [32%N; RBRACKET]|].
  repeat split; vm_compute; try reflexivity; discriminate.
Qed.

End StructureProps.

(* ===================================================================== *)
(** * Part III: further properties of the pipeline *)
(* ===================================================================== *)

(** ** Masks and the composed morphology *)

Module MaskProps.

Import Morphology Threshold PixelProps MorphologyProps ThresholdProps Stubs.

(** Every byte of a well-formed buffer is a channel of a pixel of the
    image. *)
Lemma byteIndex_surjective (img : PixelBuffer) (j : nat) :
  wfPixelBuffer img -> (j < length (data img))%nat ->
  exists y x c,
    inside img y x /\ 0 <= c < channels img /\ byteIndex img y x c = j.
Proof.
  intros [Hw Hh Hch Hlen] Hj.
  set (w := width img) in *. set (h := height img) in *.
  set (ch := channels img) in *.
  pose proof (Z.div_mod (Z.of_nat j) ch ltac:(lia)) as Hc.
  pose proof (Z.mod_pos_bound (Z.of_nat j) ch ltac:(lia)) as Hcb.
  set (q := Z.of_nat j / ch) in *.
  pose proof (Z.div_mod q w ltac:(lia)) as Hx.
  pose proof (Z.mod_pos_bound q w ltac:(lia)) as Hxb.
  assert (Hq0 : 0 <= q) by (apply Z.div_pos; lia).
  assert (Hy0 : 0 <= q / w) by (apply Z.div_pos; lia).
  assert (Hqh : q < w * h).
  { apply Z.div_lt_upper_bound; [lia|]. nia. }
  assert (Hyh : q / w < h).
  { apply Z.div_lt_upper_bound; lia. }
  exists (q / w), (q mod w), (Z.of_nat j mod ch).
  split; [unfold inside, inImage; fold w h; lia|]. split; [fold ch; lia|].
  unfold byteIndex, offset. fold w ch.
  replace ((q / w * w + q mod w) * ch + Z.of_nat j mod ch) with (Z.of_nat j)
    by nia.
  lia.
Qed.

(** The output of a pixel loop over a filled buffer is well formed. *)
Lemma mask_wf (img : PixelBuffer) (out : list Z) :
  wfPixelBuffer img -> length out = length (data img) ->
  wfPixelBuffer (mkPixelBuffer (width img) (height img) (channels img) out).
Proof. intros [Hw Hh Hch Hlen] Hout. constructor; simpl; try done. lia. Qed.

Lemma dilatePixels_wf (img : PixelBuffer) (kernelSize : Z) :
  wfPixelBuffer img -> wfPixelBuffer (dilatePixels img kernelSize).
Proof.
  intros Hwf. apply mask_wf; [done|].
  exact (writes_length img Hwf _ _ (dilatePixels_writes img kernelSize Hwf) 255).
Qed.

Lemma erodePixels_wf (img : PixelBuffer) (kernelSize : Z) :
  wfPixelBuffer img -> wfPixelBuffer (erodePixels img kernelSize).
Proof.
  intros Hwf. apply mask_wf; [done|].
  exact (writes_length img Hwf _ _ (erodePixels_writes img kernelSize Hwf) 255).
Qed.

Lemma thresholdPixels_wf (img : PixelBuffer) (blockSize : Z) (C : float64) :
  wfPixelBuffer img -> wfPixelBuffer (thresholdPixels img blockSize C).
Proof.
  intros Hwf. apply mask_wf; [done|].
  exact (writes_length img Hwf _ _
           (thresholdPixels_writes img blockSize C Hwf) 0).
Qed.

(** Every byte is 0 or 255. *)
Definition isMask (img : PixelBuffer) : Prop :=
  Forall (fun v => v = 0 \/ v = 255) (data img).

(** A buffer of the size of [img] whose bytes at every pixel position are
    0 or 255 is a mask. *)
Lemma isMask_from_lookup (img out : PixelBuffer) :
  wfPixelBuffer img ->
  width out = width img -> height out = height img ->
  channels out = channels img ->
  length (data out) = length (data img) ->
  (forall y x c, inside img y x -> 0 <= c < channels img ->
     data out !! byteIndex img y x c = Some 0
     \/ data out !! byteIndex img y x c = Some 255) ->
  isMask out.
Proof.
  intros Hwf Hw Hh Hch Hlen Hlk. apply Forall_lookup. intros j v Hj.
  apply lookup_lt_Some in Hj as Hjl. rewrite Hlen in Hjl.
  destruct (byteIndex_surjective img j Hwf Hjl) as (y & x & c & Hin & Hc & <-).
  destruct (Hlk y x c Hin Hc) as [E|E]; rewrite E in Hj;
    injection Hj as <-; [by left|by right].
Qed.

Lemma dilatePixels_isMask (img : PixelBuffer) (kernelSize : Z) :
  wfPixelBuffer img -> isMask (dilatePixels img kernelSize).
Proof.
  intros Hwf. apply (isMask_from_lookup img); try done.
  - exact (writes_length img Hwf _ _
             (dilatePixels_writes img kernelSize Hwf) 255).
  - intros y x c Hin Hc. rewrite dilatePixels_lookup by done.
    destruct (scattered _ _ _ _); [by left|by right].
Qed.

Lemma erodePixels_isMask (img : PixelBuffer) (kernelSize : Z) :
  wfPixelBuffer img -> isMask (erodePixels img kernelSize).
Proof.
  intros Hwf. apply (isMask_from_lookup img); try done.
  - exact (writes_length img Hwf _ _
             (erodePixels_writes img kernelSize Hwf) 255).
  - intros y x c Hin Hc. rewrite erodePixels_lookup by done.
    destruct (allBlackAt _ _ _ _); [by left|by right].
Qed.

Lemma thresholdPixels_isMask (img : PixelBuffer) (blockSize : Z) (C : float64) :
  wfPixelBuffer img -> isMask (thresholdPixels img blockSize C).
Proof.
  intros Hwf. apply (isMask_from_lookup img); try done.
  - exact (writes_length img Hwf _ _
             (thresholdPixels_writes img blockSize C Hwf) 0).
  - intros y x c Hin Hc. rewrite thresholdPixels_lookup by done.
    unfold thresholdValue. destruct (fltb _ _); [by right|by left].
Qed.

(** X1.  The three pixel stages keep the buffer invariant (same width,
    height and channel count, [width*height*channels] bytes) and produce
    masks: every byte of their output is 0 or 255, whatever the kernel
    size, the block size and the constant. *)
Theorem stages_produce_masks (img : PixelBuffer) (kernelSize blockSize : Z)
  (C : float64) :
  wfPixelBuffer img ->
  (wfPixelBuffer (dilatePixels img kernelSize)
   /\ isMask (dilatePixels img kernelSize))
  /\ (wfPixelBuffer (erodePixels img kernelSize)
      /\ isMask (erodePixels img kernelSize))
  /\ (wfPixelBuffer (thresholdPixels img blockSize C)
      /\ isMask (thresholdPixels img blockSize C)).
Proof.
  intros Hwf. repeat apply conj.
  - by apply dilatePixels_wf.
  - by apply dilatePixels_isMask.
  - by apply erodePixels_wf.
  - by apply erodePixels_isMask.
  - by apply thresholdPixels_wf.
  - by apply thresholdPixels_isMask.
Qed.

Lemma stages_produce_masks_witness :
  wfPixelBuffer sampleImage /\ isMask (erodePixels sampleImage 3).
Proof.
  split; [exact sampleImage_wf|].
  exact (proj2 (proj1 (proj2
           (stages_produce_masks sampleImage 3 21 (ofZ 8) sampleImage_wf)))).
Defined.

End MaskProps.

(** ** Opening and closing *)

Module ComposedMorphology.

Import Morphology PixelProps MorphologyProps MaskProps Stubs.

(** The codec decodes what it encoded: PNG is lossless. *)
Definition losslessCodec {Buffer : Type} `{!ImageCodec Buffer} : Prop :=
  forall (p : PixelBuffer) (b : Buffer), fromRawPng p = Ok b -> raw b = Ok p.

(** Dark pixels of the output of the two loops. *)
Lemma dilatePixels_darkAt (img : PixelBuffer) (kernelSize y x : Z) :
  wfPixelBuffer img -> inside img y x ->
  darkAt (dilatePixels img kernelSize) y x
  <-> exists ny nx,
        inside img ny nx /\ near (kernelSize / 2) y x ny nx
        /\ darkAt img ny nx.
Proof.
  intros Hwf Hin. pose proof Hwf as [_ _ Hch _].
  rewrite <- (scattered_spec img _ y x Hwf Hin). unfold darkAt.
  change (byteIndex (dilatePixels img kernelSize) y x 0)
    with (byteIndex img y x 0).
  rewrite dilatePixels_lookup by (done || lia).
  destruct (scattered img (kernelSize / 2) y x).
  - split; [done|]. intros _. exists 0. split; [done|lia].
  - split; [|done]. intros (v & [= <-] & Hv). lia.
Qed.

Lemma erodePixels_darkAt (img : PixelBuffer) (kernelSize y x : Z) :
  wfPixelBuffer img -> inside img y x ->
  darkAt (erodePixels img kernelSize) y x
  <-> forall ny nx, near (kernelSize / 2) y x ny nx ->
        inside img ny nx /\ darkAt img ny nx.
Proof.
  intros Hwf Hin. pose proof Hwf as [_ _ Hch _].
  rewrite <- (allBlackAt_spec img _ y x Hwf). unfold darkAt.
  change (byteIndex (erodePixels img kernelSize) y x 0)
    with (byteIndex img y x 0).
  rewrite erodePixels_lookup by (done || lia).
  destruct (allBlackAt img (kernelSize / 2) y x).
  - split; [done|]. intros _. exists 0. split; [done|lia].
  - split; [|done]. intros (v & [= <-] & Hv). lia.
Qed.

Section WithCodec.
Context {Buffer : Type} `{!ImageCodec Buffer}.

(** With a lossless codec the two composed operations run the two pixel
    loops one after the other. *)
Lemma opening_decodes (imageBuffer out : Buffer) (img : PixelBuffer)
  (kernelSize : Z) :
  losslessCodec -> raw imageBuffer = Ok img ->
  applyMorphologicalOpening imageBuffer kernelSize = Ok out ->
  raw out = Ok (dilatePixels (erodePixels img kernelSize) kernelSize).
Proof.
  intros Hll Hraw. unfold applyMorphologicalOpening.
  rewrite (applyErosion_pixels imageBuffer img) by done.
  destruct (fromRawPng (erodePixels img kernelSize)) as [eroded|e] eqn:E;
    [|done].
  intros H. change (applyDilation eroded kernelSize = Ok out) in H. revert H.
  rewrite (applyDilation_pixels eroded (erodePixels img kernelSize))
    by (by apply Hll).
  apply Hll.
Qed.

Lemma closing_decodes (imageBuffer out : Buffer) (img : PixelBuffer)
  (kernelSize : Z) :
  losslessCodec -> raw imageBuffer = Ok img ->
  applyMorphologicalClosing imageBuffer kernelSize = Ok out ->
  raw out = Ok (erodePixels (dilatePixels img kernelSize) kernelSize).
Proof.
  intros Hll Hraw. unfold applyMorphologicalClosing.
  rewrite (applyDilation_pixels imageBuffer img) by done.
  destruct (fromRawPng (dilatePixels img kernelSize)) as [dilated|e] eqn:E;
    [|done].
  intros H. change (applyErosion dilated kernelSize = Ok out) in H. revert H.
  rewrite (applyErosion_pixels dilated (dilatePixels img kernelSize))
    by (by apply Hll).
  apply Hll.
Qed.

(** The result of an opening decodes to a well-formed mask. *)
Lemma opening_decodes_to_mask (imageBuffer out : Buffer)
  (img : PixelBuffer) (kernelSize : Z) :
  losslessCodec -> raw imageBuffer = Ok img -> wfPixelBuffer img ->
  applyMorphologicalOpening imageBuffer kernelSize = Ok out ->
  exists res, raw out = Ok res /\ wfPixelBuffer res /\ isMask res.
Proof.
  intros Hll Hraw Hwf Hopen.
  exists (dilatePixels (erodePixels img kernelSize) kernelSize).
  pose proof (erodePixels_wf img kernelSize Hwf) as Hwf'.
  split; [by eapply opening_decodes|].
  split; [by apply dilatePixels_wf|].
  by apply dilatePixels_isMask.
Qed.

(** X2.  Opening never adds ink: with a lossless codec, on a well-formed
    image and for every kernel size, the result of
    [applyMorphologicalOpening] decodes to a mask of the same dimensions
    in which every dark pixel was dark in the input. *)
Theorem opening_never_adds_ink (imageBuffer out : Buffer) (img : PixelBuffer)
  (kernelSize : Z) :
  losslessCodec -> raw imageBuffer = Ok img -> wfPixelBuffer img ->
  applyMorphologicalOpening imageBuffer kernelSize = Ok out ->
  exists res,
    raw out = Ok res /\ wfPixelBuffer res /\ isMask res
    /\ width res = width img /\ height res = height img
    /\ channels res = channels img
    /\ forall y x, inside img y x -> darkAt res y x -> darkAt img y x.
Proof.
  intros Hll Hraw Hwf Hopen.
  exists (dilatePixels (erodePixels img kernelSize) kernelSize).
  pose proof (erodePixels_wf img kernelSize Hwf) as Hwf'.
  split; [by eapply opening_decodes|].
  split; [by apply dilatePixels_wf|].
  split; [by apply dilatePixels_isMask|].
  split; [done|]. split; [done|]. split; [done|].
  intros y x Hin Hdark.
  apply (dilatePixels_darkAt (erodePixels img kernelSize) kernelSize y x
           Hwf' Hin) in Hdark.
  destruct Hdark as (ny & nx & Hn & [Hny Hnx] & Hd).
  pose proof (proj1 (erodePixels_darkAt img kernelSize ny nx Hwf Hn) Hd)
    as Hall.
  apply (Hall y x). unfold near. lia.
Qed.

(** X3.  Closing keeps the ink away from the border and clears the
    border band: with a lossless codec, on a well-formed image, with
    [half = floor(kernelSize/2)], every dark pixel at least [half] away
    from all four borders is dark in the result of
    [applyMorphologicalClosing], and every pixel closer than [half] to a
    border is not. *)
Theorem closing_keeps_interior_ink (imageBuffer out : Buffer)
  (img : PixelBuffer) (kernelSize : Z) :
  losslessCodec -> raw imageBuffer = Ok img -> wfPixelBuffer img ->
  applyMorphologicalClosing imageBuffer kernelSize = Ok out ->
  let half := kernelSize / 2 in
  exists res,
    raw out = Ok res /\ wfPixelBuffer res /\ isMask res
    /\ (forall y x, inside img y x ->
          half <= y < height img - half -> half <= x < width img - half ->
          darkAt img y x -> darkAt res y x)
    /\ (forall y x, inside img y x ->
          y < half \/ x < half
          \/ height img - half <= y \/ width img - half <= x ->
          ~ darkAt res y x).
Proof.
  intros Hll Hraw Hwf Hclose half.
  exists (erodePixels (dilatePixels img kernelSize) kernelSize).
  pose proof (dilatePixels_wf img kernelSize Hwf) as Hwf'.
  split; [by eapply closing_decodes|].
  split; [by apply erodePixels_wf|].
  split; [by apply erodePixels_isMask|].
  split.
  - intros y x Hin Hy Hx Hdark.
    apply (erodePixels_darkAt (dilatePixels img kernelSize)); [done|done|].
    intros ny nx [Hny Hnx]. fold half in Hny, Hnx.
    assert (Hn : inside img ny nx) by (unfold inside, inImage; lia).
    split; [done|].
    apply (dilatePixels_darkAt img kernelSize ny nx Hwf Hn).
    exists y, x. split; [done|]. split; [unfold near; fold half; lia|done].
  - intros y x Hin Hborder Hdark. destruct Hin as [Hy Hx].
    pose proof (proj1 (erodePixels_darkAt (dilatePixels img kernelSize)
                         kernelSize y x Hwf' (conj Hy Hx)) Hdark) as Hall.
    clear Hdark. rename Hall into Hdark. fold half in Hdark.
    destruct Hborder as [Hb|[Hb|[Hb|Hb]]].
    + destruct (Hdark (y - half) x) as [[? ?] _]; [unfold near; lia|].
      change (height (dilatePixels img kernelSize)) with (height img) in *.
      lia.
    + destruct (Hdark y (x - half)) as [[? ?] _]; [unfold near; lia|].
      change (width (dilatePixels img kernelSize)) with (width img) in *.
      lia.
    + destruct (Hdark (y + half) x) as [[? ?] _]; [unfold near; lia|].
      change (height (dilatePixels img kernelSize)) with (height img) in *.
      lia.
    + destruct (Hdark y (x + half)) as [[? ?] _]; [unfold near; lia|].
      change (width (dilatePixels img kernelSize)) with (width img) in *.
      lia.
Qed.

End WithCodec.

Lemma blankPageCodec_lossless : losslessCodec (Buffer := PixelBuffer).
Proof. intros p b [= ->]. reflexivity. Qed.

Lemma opening_never_adds_ink_witness :
  exists res,
    raw (dilatePixels (erodePixels sampleImage 3) 3) = Ok res
    /\ wfPixelBuffer res.
Proof.
  destruct (opening_never_adds_ink sampleImage
              (dilatePixels (erodePixels sampleImage 3) 3) sampleImage 3
              blankPageCodec_lossless eq_refl sampleImage_wf eq_refl)
    as (res & Hraw & Hwf & _).
  exists res. by split.
Defined.

Lemma closing_keeps_interior_ink_witness :
  exists res,
    raw (erodePixels (dilatePixels sampleImage 3) 3) = Ok res
    /\ wfPixelBuffer res.
Proof.
  destruct (closing_keeps_interior_ink sampleImage
              (erodePixels (dilatePixels sampleImage 3) 3) sampleImage 3
              blankPageCodec_lossless eq_refl sampleImage_wf eq_refl)
    as (res & Hraw & Hwf & _).
  exists res. by split.
Defined.

End ComposedMorphology.

(** ** More on the adaptive threshold *)

Module ThresholdMore.

Import Threshold PixelProps ThresholdProps MaskProps Float64Props.

Lemma sumRange_const (lo hi c : Z) :
  lo <= hi -> sumRange lo hi (fun _ => c) = c * (hi - lo).
Proof.
  revert hi. apply range_induction.
  - rewrite sumRange_empty by lia. lia.
  - intros i Hi IH. rewrite sumRange_snoc by lia. lia.
Qed.

(** On a uniform image the sum over a window is the common value times
    the number of its pixels. *)
Lemma windowSum_uniform (img : PixelBuffer) (blockSize v y x : Z) :
  wfPixelBuffer img -> 0 <= blockSize -> inside img y x ->
  (forall y' x', inside img y' x' -> pixel img y' x' = v) ->
  windowSum img (top blockSize y) (bottom img blockSize y)
    (left blockSize x) (right img blockSize x)
  = windowArea img blockSize y x * v
  /\ 0 < windowArea img blockSize y x <= width img * height img.
Proof.
  intros Hwf Hbs [Hy Hx] Huni.
  assert (Hr : 0 <= radius blockSize) by (unfold radius; apply Z.div_pos; lia).
  split.
  - unfold windowSum.
    rewrite (sumRange_ext _ _ _
               (fun _ => v * (right img blockSize x - left blockSize x + 1))).
    + rewrite sumRange_const by (unfold top, bottom; lia).
      unfold windowArea. lia.
    + intros y' Hy'.
      rewrite (sumRange_ext _ _ _ (fun _ => v)).
      * rewrite sumRange_const by (unfold left, right; lia). lia.
      * intros x' Hx'. apply Huni.
        unfold inside, inImage, top, bottom, left, right in *. lia.
  - unfold windowArea, top, bottom, left, right. nia.
Qed.

(** Its binary64 mean is the common value, as long as the sums stay
    below 2^53. *)
Lemma localMean_uniform (img : PixelBuffer) (blockSize v y x : Z) :
  wfPixelBuffer img -> 0 <= blockSize -> inside img y x ->
  0 <= v <= 255 -> 255 * (width img * height img) < 2 ^ 53 ->
  (forall y' x', inside img y' x' -> pixel img y' x' = v) ->
  localMean img blockSize y x = ofZ v.
Proof.
  intros Hwf Hbs Hin Hv Hsize Huni.
  destruct (windowSum_uniform img blockSize v y x Hwf Hbs Hin Huni)
    as [Hsum Harea].
  unfold localMean. rewrite Hsum.
  apply fdiv_exact; unfold prec; nia.
Qed.

(** X4.  A uniform image thresholds uniformly, borders included: on a
    well-formed image of fewer than 2^53 / 255 pixels whose pixels all
    have the same first-channel value [v], for every block size that
    is not negative, every byte of the output is 255 if [v] is above
    the binary64 difference [v - C] and 0 otherwise.  With the constants
    the pipeline passes, 8 and 12, every byte is 255. *)
Theorem uniform_image_thresholds_uniformly (img : PixelBuffer)
  (blockSize v : Z) (C : float64) :
  wfPixelBuffer img -> 0 <= blockSize ->
  0 <= v <= 255 -> 255 * (width img * height img) < 2 ^ 53 ->
  (forall y x, inside img y x -> pixel img y x = v) ->
  Forall (fun b => b = if fltb (fsub (ofZ v) C) (ofZ v) then 255 else 0)
    (data (thresholdPixels img blockSize C))
  /\ (C = ofZ 8 \/ C = ofZ 12 ->
      Forall (fun b => b = 255) (data (thresholdPixels img blockSize C))).
Proof.
  intros Hwf Hbs Hv Hsize Huni.
  assert (Hlen : length (data (thresholdPixels img blockSize C))
                 = length (data img)).
  { exact (writes_length img Hwf _ _
             (thresholdPixels_writes img blockSize C Hwf) 0). }
  assert (Hbyte : Forall (fun b => b = if fltb (fsub (ofZ v) C) (ofZ v)
                                       then 255 else 0)
                    (data (thresholdPixels img blockSize C))).
  { apply Forall_lookup. intros j b Hj.
    apply lookup_lt_Some in Hj as Hjl. rewrite Hlen in Hjl.
    destruct (byteIndex_surjective img j Hwf Hjl)
      as (y & x & c & Hin & Hc & <-).
    rewrite thresholdPixels_lookup in Hj by done. injection Hj as <-.
    rewrite thresholdValue_spec by done.
    by rewrite (localMean_uniform img blockSize v y x), (Huni y x Hin). }
  split; [done|]. intros HC.
  assert (Hwhite : fltb (fsub (ofZ v) C) (ofZ v) = true).
  { assert (Hall : forallb (fun v => fltb (fsub (ofZ v) (ofZ 8)) (ofZ v)
                                     && fltb (fsub (ofZ v) (ofZ 12)) (ofZ v))
                     (seqZ 0 256) = true) by (vm_compute; reflexivity).
    rewrite forallb_forall in Hall.
    specialize (Hall v ltac:(apply list_elem_of_In, elem_of_seqZ; lia)).
    apply andb_true_iff in Hall as [H8 H12].
    by destruct HC as [-> | ->]. }
  by rewrite Hwhite in Hbyte.
Qed.

(** A 3x2 image with three channels whose pixels all have first-channel
    value 90. *)
Definition uniformGray : PixelBuffer :=
  mkPixelBuffer 3 2 3
    [90; 1; 2; 90; 3; 4; 90; 5; 6; 90; 7; 8; 90; 9; 10; 90; 11; 12].

Lemma uniformGray_wf : wfPixelBuffer uniformGray.
Proof. constructor; simpl; lia. Qed.

Lemma uniformGray_uniform y x :
  inside uniformGray y x -> pixel uniformGray y x = 90.
Proof.
  intros [Hy Hx]. simpl in Hy, Hx.
  assert (Hcases : (y = 0 \/ y = 1) /\ (x = 0 \/ x = 1 \/ x = 2)) by lia.
  destruct Hcases as [[-> | ->] [-> | [-> | ->]]]; reflexivity.
Qed.

Lemma uniform_image_thresholds_uniformly_witness :
  Forall (fun b => b = 255) (data (thresholdPixels uniformGray 21 (ofZ 8))).
Proof.
  assert (Hbs : 0 <= 21) by lia.
  assert (Hv : 0 <= 90 <= 255) by lia.
  assert (Hsize : 255 * (width uniformGray * height uniformGray) < 2 ^ 53)
    by (vm_compute; reflexivity).
  exact (proj2 (uniform_image_thresholds_uniformly uniformGray 21 90 (ofZ 8)
                  uniformGray_wf Hbs Hv Hsize uniformGray_uniform)
           (or_introl eq_refl)).
Defined.

(** A positive constant too small to change the binary64 value of the
    mean leaves nothing white. *)
Example uniformGray_tiny_constant :
  fltb (ofZ 0) tinyConstant = true
  /\ data (thresholdPixels uniformGray 21 tinyConstant)
     = replicate 18 0.
Proof. split; vm_compute; reflexivity. Qed.

End ThresholdMore.

(** ** More on skew estimation and deskew *)

Module SkewMore.

Import Threshold Skew PixelProps ThresholdProps SkewProps Float64Props Stubs.

Section WithCodec.
Context {Buffer : Type} `{!ImageCodec Buffer}.

(** The best angle after the loop is the initial one or a candidate. *)
Lemma forOf_fst (imageBuffer : Buffer) (l : list Z) :
  forall best res,
    forOf l (tryAngle imageBuffer) best = Ok res ->
    fst res = fst best \/ fst res ∈ l.
Proof.
  induction l as [|a l IH]; intros best res Hrun.
  - injection Hrun as <-. by left.
  - cbn [forOf] in Hrun.
    destruct (angleVariance imageBuffer a) as [q|e] eqn:E.
    + rewrite (tryAngle_ok _ _ q) in Hrun by done.
      destruct (IH _ _ Hrun) as [Hfst|Hin]; [|right; by right].
      rewrite Hfst.
      destruct (keepBest_cases a q best) as [[_ ->]|[_ ->]];
        [right; by left|by left].
    + by rewrite (tryAngle_throw _ _ e) in Hrun.
Qed.

Lemma estimateSkewAngle_candidate (imageBuffer : Buffer) :
  exists r, estimateSkewAngle imageBuffer = Ok r /\ r ∈ testAngles.
Proof.
  assert (H0 : 0 ∈ testAngles).
  { unfold testAngles. do 5 right. by left. }
  rewrite estimateSkewAngle_cases.
  destruct (raw imageBuffer) as [img|e]; [|by exists 0].
  destruct (forOf testAngles (tryAngle imageBuffer) (0, ofZ 0)) as [best|e] eqn:E;
    [|by exists 0].
  exists (fst best). split; [done|].
  destruct (forOf_fst _ _ _ _ E) as [->|Hin]; done.
Qed.

Lemma testAngles_range (r : Z) : r ∈ testAngles -> -5 <= r <= 5.
Proof.
  unfold testAngles. intros Hr.
  repeat (apply elem_of_cons in Hr as [->|Hr]; [lia|]).
  by apply elem_of_nil in Hr.
Qed.

(** [Math.abs(r) < 0.5] on a candidate. *)
Lemma small_angle_is_zero (r : Z) :
  r ∈ testAngles -> fltb (ofZ (Z.abs r)) oneHalf = (r =? 0).
Proof.
  unfold testAngles. intros Hr.
  repeat (apply elem_of_cons in Hr as [->|Hr]; [reflexivity|]).
  by apply elem_of_nil in Hr.
Qed.

(** X6.  Whatever the codec does, [estimateSkewAngle] resolves, and to
    one of the eleven candidates: an integer between -5 and 5. *)
Theorem skew_angle_in_range (imageBuffer : Buffer) :
  exists r, estimateSkewAngle imageBuffer = Ok r
            /\ r ∈ testAngles /\ -5 <= r <= 5.
Proof.
  destruct (estimateSkewAngle_candidate imageBuffer) as (r & Hr & Hin).
  exists r. split; [done|]. split; [done|]. by apply testAngles_range.
Qed.

(** X7.  [applyDeskew] returns its input unchanged when the estimate is
    0, in particular when the input cannot be decoded, and otherwise the
    input rotated by the estimate, a candidate other than 0; it rejects
    only if that rotation does. *)
Theorem deskew_rotates_by_estimate (imageBuffer : Buffer) :
  (exists r,
     estimateSkewAngle imageBuffer = Ok r /\ r ∈ testAngles
     /\ applyDeskew imageBuffer
        = if r =? 0 then Ok imageBuffer else rotatePng r imageBuffer)
  /\ (forall e, raw imageBuffer = Throw e ->
        applyDeskew imageBuffer = Ok imageBuffer).
Proof.
  split.
  - destruct (estimateSkewAngle_candidate imageBuffer) as (r & Hr & Hin).
    exists r. split; [done|]. split; [done|].
    unfold applyDeskew. rewrite Hr.
    change (Ok r ≫= _)
      with (if fltb (ofZ (Z.abs r)) oneHalf
            then Ok imageBuffer else rotatePng r imageBuffer).
    by rewrite small_angle_is_zero.
  - intros e He. unfold applyDeskew.
    rewrite estimateSkewAngle_cases, He. reflexivity.
Qed.

End WithCodec.

(** *** Pages with evenly inked rows *)

Lemma sum_of_constant (l : list Z) (c : Z) :
  Forall (fun n => n = c) l ->
  forall acc, fold_left Z.add l acc = acc + c * Z.of_nat (length l).
Proof.
  induction 1 as [|n l -> _ IH]; intros acc; simpl; [lia|].
  rewrite IH. lia.
Qed.

(** The row counts: one for each row, each between 0 and the width. *)
Lemma darkRowCounts_bounds (rot : PixelBuffer) :
  0 < width rot ->
  Z.of_nat (length (darkRowCounts rot)) = Z.max 0 (height rot)
  /\ Forall (fun n => 0 <= n <= width rot) (darkRowCounts rot).
Proof.
  intros Hw. unfold darkRowCounts.
  destruct (Z.le_gt_cases 0 (height rot)) as [Hh|Hh].
  - apply (forRange_ind
             (fun y rowSums =>
                Z.of_nat (length rowSums) = Z.max 0 y
                /\ Forall (fun n => 0 <= n <= width rot) rowSums));
      [done|split; [done|constructor]|].
    intros y rowSums Hy [Hlen Hall]. split.
    + rewrite length_app. simpl. lia.
    + apply Forall_app. split; [done|]. constructor; [|done].
      assert (Hrow : forall hi, 0 <= hi ->
                0 <= forRange 0 hi (fun x rowSum =>
                       rowSum + (if ltNum (readByte (data rot)
                                             ((y * width rot + x)
                                              * channels rot)) 128
                                 then 1 else 0)) 0 <= hi).
      { intros hi Hhi.
        apply (forRange_ind (fun x acc => 0 <= acc <= x)); [done|lia|].
        intros x acc Hx Hacc. destruct (ltNum _ _); lia. }
      apply Hrow. lia.
  - rewrite forRange_empty by lia. split; [simpl; lia|constructor].
Qed.

(** Rows that all hold the same number of dark pixels have variance 0,
    as long as their sum stays below 2^53. *)
Lemma rowVariance_constant (l : list Z) (c : Z) :
  l <> [] -> Forall (fun n => n = c) l -> 0 <= c ->
  Z.of_nat (length l) < 2 ^ 53 -> Z.of_nat (length l) * c < 2 ^ 53 ->
  rowVariance l = S754_zero false.
Proof.
  intros Hne Hall Hc Hn Hnc.
  assert (Hpos : 0 < Z.of_nat (length l)) by (destruct l; [done|simpl; lia]).
  unfold rowVariance.
  assert (Hmean : rowMean l = ofZ c).
  { unfold rowMean. rewrite (sum_of_constant l c Hall), Z.add_0_l.
    rewrite Z.mul_comm. by apply fdiv_exact. }
  cbv zeta. rewrite Hmean.
  assert (Hsq : forall l', Forall (fun n => n = c) l' ->
            fold_left (fun sum val =>
                         fadd sum (fmul (fsub (ofZ val) (ofZ c))
                                        (fsub (ofZ val) (ofZ c))))
              l' (S754_zero false)
            = S754_zero false).
  { induction 1 as [|n l' -> _ IH]; [done|]. simpl.
    rewrite fsub_diag by (unfold prec; lia). exact IH. }
  change (ofZ 0) with (S754_zero false). rewrite (Hsq l Hall).
  destruct (Z.of_nat (length l)) as [|n|n] eqn:E; [lia| |lia].
  rewrite ofZ_pos by (apply digits_bound; unfold prec; lia). reflexivity.
Qed.

Section WithCodecUniform.
Context {Buffer : Type} `{!ImageCodec Buffer}.

(** X8.  A page whose rotations all have evenly inked rows gets no
    correction: when the input decodes and, for every candidate angle,
    the rotated image decodes to an image of fewer than 2^53 pixels
    with a non-empty list of rows that all hold the same number of dark
    pixels (a blank page, a solid page), [estimateSkewAngle] resolves
    to 0. *)
Theorem evenly_inked_page_is_not_rotated (imageBuffer : Buffer)
  (img : PixelBuffer) :
  raw imageBuffer = Ok img ->
  (forall a, a ∈ testAngles ->
     exists rotatedBuffer rot c,
       rotatePng a imageBuffer = Ok rotatedBuffer
       /\ raw rotatedBuffer = Ok rot
       /\ 0 < width rot /\ width rot * height rot < 2 ^ 53
       /\ darkRowCounts rot <> []
       /\ Forall (fun n => n = c) (darkRowCounts rot)) ->
  estimateSkewAngle imageBuffer = Ok 0
  /\ applyDeskew imageBuffer = Ok imageBuffer.
Proof.
  intros Hraw Hrows.
  assert (Hzero : estimateSkewAngle imageBuffer = Ok 0).
  { pose (v := fun a => match angleVariance imageBuffer a with
                        | Ok q => q
                        | Throw _ => S754_zero false
                        end).
    assert (Hv : forall a, a ∈ testAngles ->
                   angleVariance imageBuffer a = Ok (v a)
                   /\ v a = S754_zero false).
    { intros a Ha.
      destruct (Hrows a Ha)
        as (rb & rot & c & Hr & Hd & Hw & Hsize & Hne & Hc).
      assert (E : angleVariance imageBuffer a
                  = Ok (rowVariance (darkRowCounts rot))).
      { unfold angleVariance. rewrite Hr. simpl. by rewrite Hd. }
      unfold v. rewrite E. split; [done|].
      destruct (darkRowCounts_bounds rot Hw) as [Hlen Hbound].
      assert (Hc0 : 0 <= c <= width rot).
      { destruct (darkRowCounts rot) as [|n l]; [done|].
        apply Forall_cons in Hc as [-> _].
        by apply Forall_cons in Hbound as [? _]. }
      assert (Hh : 0 < height rot).
      { destruct (darkRowCounts rot); [done|]. simpl in Hlen. lia. }
      apply (rowVariance_constant _ c); [done|done|lia|nia|nia]. }
    rewrite estimateSkewAngle_cases, Hraw.
    rewrite (forOf_all_ok imageBuffer v) by (intros a Ha; by apply Hv).
    destruct (bestOver_spec v testAngles (0, ofZ 0))
      as [[-> _]|(l1 & l2 & El & _ & Hgt & _)]; [done|].
    exfalso.
    assert (Hin : fst (bestOver v testAngles (0, ofZ 0)) ∈ testAngles).
    { rewrite El at 2. apply elem_of_app. right. by left. }
    destruct (Hv _ Hin) as [_ E0]. rewrite E0 in Hgt.
    by vm_compute in Hgt. }
  split; [done|]. unfold applyDeskew. by rewrite Hzero.
Qed.

End WithCodecUniform.

Lemma skew_angle_in_range_witness :
  exists r, estimateSkewAngle blankPage = Ok r
            /\ r ∈ testAngles /\ -5 <= r <= 5.
Proof. exact (skew_angle_in_range blankPage). Defined.

Lemma deskew_rotates_by_estimate_witness :
  raw tt = Throw decodeError /\ applyDeskew tt = Ok tt.
Proof.
  split; [reflexivity|].
  exact (proj2 (@deskew_rotates_by_estimate unit corruptInputCodec tt)
           decodeError eq_refl).
Defined.

Lemma evenly_inked_page_is_not_rotated_witness :
  estimateSkewAngle blankPage = Ok 0 /\ applyDeskew blankPage = Ok blankPage.
Proof.
  apply (@evenly_inked_page_is_not_rotated PixelBuffer blankPageCodec
           blankPage blankPage eq_refl).
  intros a _. exists blankPage, blankPage, 0.
  split; [reflexivity|]. split; [reflexivity|].
  split; [by vm_compute|]. split; [by vm_compute|].
  split; [by vm_compute|]. vm_compute. by repeat constructor.
Defined.

End SkewMore.

(** ** More on the preprocessing pipeline *)

Module PreprocessMore.

Import Threshold Skew Morphology Preprocess PixelProps MorphologyProps
  ThresholdProps MaskProps ComposedMorphology Stubs.




Section WithCodec.
Context {Buffer : Type} `{!ImageCodec Buffer}.


Lemma bind_Ok_inv {A B : Type} (m : Outcome A) (k : A -> Outcome B) (b : B) :
  (x <- m ;; k x) = Ok b -> exists a, m = Ok a /\ k a = Ok b.
Proof. destruct m as [a|e]; [|done]. intros H. by exists a. Qed.

(** The last stage of a successful run is an opening. *)
Lemma tenStages_ends_with_opening (imageBuffer out : Buffer) (attempt : Z) :
  tenStages imageBuffer attempt = Ok out ->
  exists closed : Buffer,
    applyMorphologicalOpening closed (if attempt =? 1 then 2 else 3) = Ok out.
Proof.
  unfold tenStages. intros H.
  repeat (apply bind_Ok_inv in H as (? & ? & H); cbv beta zeta in H).
  injection H as ->. by eexists.
Qed.

(** X10.  A successful run of the ten stages ends in a mask: with a
    lossless codec that decodes well-formed buffers only, the result
    decodes to a well-formed buffer whose bytes are all 0 or 255. *)
Theorem ten_stages_produce_a_mask (imageBuffer out : Buffer) (attempt : Z) :
  losslessCodec ->
  (forall (b : Buffer) (p : PixelBuffer), raw b = Ok p -> wfPixelBuffer p) ->
  tenStages imageBuffer attempt = Ok out ->
  exists mask, raw out = Ok mask /\ wfPixelBuffer mask /\ isMask mask.
Proof.
  intros Hll Hdec Hrun.
  destruct (tenStages_ends_with_opening _ _ _ Hrun) as (closed & Hopen).
  set (k := if attempt =? 1 then 2 else 3) in *.
  destruct (raw closed) as [img|e] eqn:Hraw.
  - pose proof (Hdec _ _ Hraw) as Hwf.
    destruct (opening_decodes_to_mask closed out img k Hll Hraw Hwf Hopen)
      as (res & Hres & Hwfres & Hmask).
    by exists res.
  - unfold applyMorphologicalOpening, applyErosion in Hopen.
    by rewrite Hraw in Hopen.
Qed.

End WithCodec.

(** A codec on decoded images that encodes and decodes well-formed
    buffers only and leaves the image as it is. *)
Definition wellFormedb (p : PixelBuffer) : bool :=
  (0 <? width p) && (0 <? height p) && (0 <? channels p)
  && (Z.of_nat (length (data p)) =? width p * height p * channels p).

Definition checkedCodec : ImageCodec PixelBuffer := {|
  metadata b := Ok (mkMetadata (Some (width b)) (Some (height b)));
  grayscalePng b := Ok b;
  normalizePng b := Ok b;
  linearPng _ _ b := Ok b;
  medianPng _ b := Ok b;
  sharpenPng _ b := Ok b;
  resizePng _ _ b := Ok b;
  rotatePng _ b := Ok b;
  grayscaleNormalizeSharpenPng b := Ok b;
  raw b := if wellFormedb b then Ok b else Throw decodeError;
  fromRawPng p := if wellFormedb p then Ok p else Throw decodeError;
  fromBase64 _ := mkPixelBuffer 1 1 1 [255];
|}.

Lemma wellFormedb_spec (p : PixelBuffer) :
  wellFormedb p = true -> wfPixelBuffer p.
Proof.
  unfold wellFormedb. intros H.
  repeat (apply andb_true_iff in H as [H ?]). constructor; lia.
Qed.

Lemma checkedCodec_lossless : @losslessCodec PixelBuffer checkedCodec.
Proof.
  intros p b. simpl. destruct (wellFormedb p) eqn:E; [|done].
  intros [= <-]. by rewrite E.
Qed.

Lemma checkedCodec_decodes_wf (b p : PixelBuffer) :
  @raw PixelBuffer checkedCodec b = Ok p -> wfPixelBuffer p.
Proof.
  simpl. destruct (wellFormedb b) eqn:E; [|done].
  intros [= <-]. by apply wellFormedb_spec.
Qed.



(** With no dimensions reported the request is 1333 by 1000. *)
Example default_dimensions_resize :
  round (800 * Qmax2 (Qmax2 (1000 / 800) (1000 / 600)) (3 # 2)) = 1333
  /\ round (600 * Qmax2 (Qmax2 (1000 / 800) (1000 / 600)) (3 # 2)) = 1000.
Proof. split; vm_compute; reflexivity. Qed.

Lemma ten_stages_produce_a_mask_witness :
  exists mask,
    @raw PixelBuffer checkedCodec (mkPixelBuffer 1 1 1 [255]) = Ok mask
    /\ wfPixelBuffer mask /\ isMask mask.
Proof.
  exact (@ten_stages_produce_a_mask PixelBuffer checkedCodec
           (mkPixelBuffer 1 1 1 [255]) (mkPixelBuffer 1 1 1 [255]) 1
           checkedCodec_lossless checkedCodec_decodes_wf
           ltac:(vm_compute; reflexivity)).
Defined.

End PreprocessMore.

(** ** More on recognition *)

Module RecognitionMore.

Import Preprocess Corrector Recognition RunProps CorrectorProps
  RecognitionProps Stubs.

Section WithCollaborators.
Context {Buffer World : Type}.
Context `{!ImageCodec Buffer, !RecognitionEngine Buffer World,
          !TextCompletion World}.

(** The state in which the first recognition leaves the pipeline. *)
Lemma attempts_first (base64Data : jsstring) (st : State World)
  (p1 : Buffer) (t1 : jsstring) (w1 : World) :
  preprocessOutcome (fromBase64 base64Data) 1 = Ok p1 ->
  recognize p1 (world st) = (Ok t1, w1) ->
  3 <= strlen (trim t1) ->
  attempts base64Data st
  = correctAndWrap (trim t1)
      (mkState w1 (console st ++ [LogPreprocessStart 1])).
Proof.
  intros Hp1 Hr1 Hlong. unfold attempts.
  erewrite run_bind_ok; [|by rewrite run_preprocess, Hp1].
  erewrite run_bind_ok; [|by apply run_callWorld].
  by destruct (Z.ltb_spec (strlen (trim t1)) 3); [lia|].
Qed.

Lemma correctAndWrap_total (rawText : jsstring) (st : State World) :
  exists corrected w',
    correctArabicOCRText rawText st = (Ok corrected, mkState w' (console st))
    /\ correctAndWrap rawText st
       = (Ok (OCR_HEADER ++ corrected), mkState w' (console st)).
Proof.
  destruct (correct_total rawText st) as (corrected & w' & Hc).
  exists corrected, w'. split; [done|].
  unfold correctAndWrap. by erewrite run_bind_ok.
Qed.

(** X11.  When the first recognition yields three characters or more
    after trimming, there is no second attempt: preprocessing has run
    once, with attempt 1, and the result is the header line followed by
    the correction of the trimmed first text. *)
Theorem recognition_first_attempt (base64Data mimeType : jsstring)
  (st : State World) (p1 : Buffer) (t1 : jsstring) (w1 : World) :
  preprocessOutcome (fromBase64 base64Data) 1 = Ok p1 ->
  recognize p1 (world st) = (Ok t1, w1) ->
  3 <= strlen (trim t1) ->
  let log := console st ++ [LogPreprocessStart 1] in
  exists corrected w2,
    correctArabicOCRText (trim t1) (mkState w1 log)
    = (Ok corrected, mkState w2 log)
    /\ extractTextFromImageWithOCR base64Data mimeType st
       = (Ok (OCR_HEADER ++ corrected), mkState w2 log).
Proof.
  intros Hp1 Hr1 Hlong log.
  destruct (correctAndWrap_total (trim t1) (mkState w1 log))
    as (corrected & w2 & Hc & Hwrap).
  exists corrected, w2. split; [done|].
  rewrite extract_unfold. erewrite run_tryCatch_ok; [done|].
  by rewrite (attempts_first _ _ _ _ _ Hp1 Hr1 Hlong).
Qed.

(** The ways in which the body of the [try] block throws. *)
Lemma attempts_first_preprocess_throws (base64Data : jsstring)
  (st : State World) (e : Exn) :
  preprocessOutcome (fromBase64 base64Data) 1 = Throw e ->
  attempts base64Data st
  = (Throw e, mkState (world st) (console st ++ [LogPreprocessStart 1])).
Proof.
  intros Hp1. unfold attempts.
  erewrite run_bind_throw; [done|]. by rewrite run_preprocess, Hp1.
Qed.

Lemma attempts_first_recognition_throws (base64Data : jsstring)
  (st : State World) (p1 : Buffer) (e : Exn) (w1 : World) :
  preprocessOutcome (fromBase64 base64Data) 1 = Ok p1 ->
  recognize p1 (world st) = (Throw e, w1) ->
  attempts base64Data st
  = (Throw e, mkState w1 (console st ++ [LogPreprocessStart 1])).
Proof.
  intros Hp1 Hr1. unfold attempts.
  erewrite run_bind_ok; [|by rewrite run_preprocess, Hp1].
  erewrite run_bind_throw; [done|]. by apply run_callWorld.
Qed.

Lemma attempts_retry (base64Data : jsstring) (st : State World)
  (p1 : Buffer) (t1 : jsstring) (w1 : World) :
  preprocessOutcome (fromBase64 base64Data) 1 = Ok p1 ->
  recognize p1 (world st) = (Ok t1, w1) ->
  strlen (trim t1) < 3 ->
  attempts base64Data st
  = (processedBuffer <- preprocessImageForOCR (fromBase64 base64Data) 2 ;;
     text <- callWorld (recognize processedBuffer) ;;
     let rawText := trim text in
     if strlen rawText <? 3 then mret NO_TEXT_FOUND
     else correctAndWrap rawText)
      (mkState w1 (console st ++ [LogPreprocessStart 1])).
Proof.
  intros Hp1 Hr1 Hshort. unfold attempts.
  erewrite run_bind_ok; [|by rewrite run_preprocess, Hp1].
  erewrite run_bind_ok; [|by apply run_callWorld].
  by destruct (Z.ltb_spec (strlen (trim t1)) 3); [|lia].
Qed.

Lemma attempts_second_preprocess_throws (base64Data : jsstring)
  (st : State World) (p1 : Buffer) (t1 : jsstring) (w1 : World) (e : Exn) :
  preprocessOutcome (fromBase64 base64Data) 1 = Ok p1 ->
  recognize p1 (world st) = (Ok t1, w1) ->
  strlen (trim t1) < 3 ->
  preprocessOutcome (fromBase64 base64Data) 2 = Throw e ->
  attempts base64Data st
  = (Throw e,
     mkState w1 (console st ++ [LogPreprocessStart 1; LogPreprocessStart 2])).
Proof.
  intros Hp1 Hr1 Hshort Hp2.
  rewrite (attempts_retry _ _ _ _ _ Hp1 Hr1 Hshort).
  erewrite run_bind_throw; [done|].
  rewrite run_preprocess, Hp2. simpl. by rewrite <- app_assoc.
Qed.

Lemma attempts_second_recognition_throws (base64Data : jsstring)
  (st : State World) (p1 p2 : Buffer) (t1 : jsstring) (w1 w2 : World)
  (e : Exn) :
  preprocessOutcome (fromBase64 base64Data) 1 = Ok p1 ->
  recognize p1 (world st) = (Ok t1, w1) ->
  strlen (trim t1) < 3 ->
  preprocessOutcome (fromBase64 base64Data) 2 = Ok p2 ->
  recognize p2 w1 = (Throw e, w2) ->
  attempts base64Data st
  = (Throw e,
     mkState w2 (console st ++ [LogPreprocessStart 1; LogPreprocessStart 2])).
Proof.
  intros Hp1 Hr1 Hshort Hp2 Hr2.
  rewrite (attempts_retry _ _ _ _ _ Hp1 Hr1 Hshort).
  erewrite run_bind_ok; [|by rewrite run_preprocess, Hp2].
  erewrite run_bind_throw; [done|].
  simpl. rewrite <- app_assoc. by apply run_callWorld.
Qed.

(** X12.  A rejection of either preprocessing run or of either
    recognition is caught: the result is the "extraction failed"
    sentinel, and nothing further is run. *)
Theorem recognition_failure_sentinel (base64Data mimeType : jsstring)
  (st : State World) :
  let original := fromBase64 base64Data in
  let log1 := console st ++ [LogPreprocessStart 1] in
  let log2 := console st ++ [LogPreprocessStart 1; LogPreprocessStart 2] in
  (forall e, preprocessOutcome original 1 = Throw e ->
     extractTextFromImageWithOCR base64Data mimeType st
     = (Ok EXTRACTION_FAILED, mkState (world st) log1))
  /\ (forall p1 e w1,
        preprocessOutcome original 1 = Ok p1 ->
        recognize p1 (world st) = (Throw e, w1) ->
        extractTextFromImageWithOCR base64Data mimeType st
        = (Ok EXTRACTION_FAILED, mkState w1 log1))
  /\ (forall p1 t1 w1,
        preprocessOutcome original 1 = Ok p1 ->
        recognize p1 (world st) = (Ok t1, w1) ->
        strlen (trim t1) < 3 ->
        (forall e, preprocessOutcome original 2 = Throw e ->
           extractTextFromImageWithOCR base64Data mimeType st
           = (Ok EXTRACTION_FAILED, mkState w1 log2))
        /\ (forall p2 e w2,
              preprocessOutcome original 2 = Ok p2 ->
              recognize p2 w1 = (Throw e, w2) ->
              extractTextFromImageWithOCR base64Data mimeType st
              = (Ok EXTRACTION_FAILED, mkState w2 log2))).
Proof.
  intros original log1 log2. subst original.
  rewrite extract_unfold. repeat apply conj.
  - intros e Hp1. erewrite run_tryCatch_throw; [done|].
    by apply attempts_first_preprocess_throws.
  - intros p1 e w1 Hp1 Hr1. erewrite run_tryCatch_throw; [done|].
    by eapply attempts_first_recognition_throws.
  - intros p1 t1 w1 Hp1 Hr1 Hshort. split.
    + intros e Hp2. erewrite run_tryCatch_throw; [done|].
      by eapply attempts_second_preprocess_throws.
    + intros p2 e w2 Hp2 Hr2. erewrite run_tryCatch_throw; [done|].
      by eapply attempts_second_recognition_throws.
Qed.

(** The three shapes a result can have. *)
Definition resultShape (s : jsstring) : Prop :=
  s = NO_TEXT_FOUND \/ s = EXTRACTION_FAILED
  \/ exists corrected, s = OCR_HEADER ++ corrected.

(** X13.  Whatever the collaborators do, the operation resolves to one
    of the two sentinels or to the header line followed by some text,
    and preprocessing has run once, with attempt 1, or twice, with
    attempt 1 and then attempt 2. *)
Theorem recognition_result_shape (base64Data mimeType : jsstring)
  (st : State World) :
  exists s st',
    extractTextFromImageWithOCR base64Data mimeType st = (Ok s, st')
    /\ resultShape s
    /\ s <> []
    /\ (console st' = console st ++ [LogPreprocessStart 1]
        \/ console st'
           = console st ++ [LogPreprocessStart 1; LogPreprocessStart 2]).
Proof.
  rewrite extract_unfold.
  assert (Hfailed : resultShape EXTRACTION_FAILED /\ EXTRACTION_FAILED <> [])
    by (split; [right; by left|done]).
  assert (Hcaught : forall e st1,
    attempts base64Data st = (Throw e, st1) ->
    console st1 = console st ++ [LogPreprocessStart 1]
    \/ console st1
       = console st ++ [LogPreprocessStart 1; LogPreprocessStart 2] ->
    exists s st',
      tryCatchM (attempts base64Data) (fun _ => mret EXTRACTION_FAILED) st
      = (Ok s, st')
      /\ resultShape s /\ s <> []
      /\ (console st' = console st ++ [LogPreprocessStart 1]
          \/ console st'
             = console st ++ [LogPreprocessStart 1; LogPreprocessStart 2])).
  { intros e st1 Hrun Hlog. exists EXTRACTION_FAILED, st1.
    split; [by erewrite run_tryCatch_throw|]. by destruct Hfailed. }
  destruct (preprocessOutcome (fromBase64 base64Data) 1) as [p1|e] eqn:Hp1;
    [|eapply Hcaught;
      [by apply attempts_first_preprocess_throws|by left]].
  destruct (recognize p1 (world st)) as [[t1|e] w1] eqn:Hr1;
    [|eapply Hcaught;
      [by eapply attempts_first_recognition_throws|by left]].
  destruct (Z.lt_ge_cases (strlen (trim t1)) 3) as [Hshort|Hlong].
  - destruct (preprocessOutcome (fromBase64 base64Data) 2) as [p2|e] eqn:Hp2;
      [|eapply Hcaught;
        [by eapply attempts_second_preprocess_throws|by right]].
    destruct (recognize p2 w1) as [[t2|e] w2] eqn:Hr2;
      [|eapply Hcaught;
        [by eapply attempts_second_recognition_throws|by right]].
    pose proof (attempts_second base64Data st p1 p2 t1 t2 w1 w2
                  Hp1 Hr1 Hshort Hp2 Hr2) as Hrun.
    destruct (strlen (trim t2) <? 3).
    + eexists _, _. split; [by erewrite run_tryCatch_ok|].
      split_and!; [by left|done|by right].
    + destruct (correctAndWrap_total (trim t2)
                  (mkState w2 (console st
                     ++ [LogPreprocessStart 1; LogPreprocessStart 2])))
        as (corrected & w3 & _ & Hwrap).
      eexists _, _. split.
      { erewrite run_tryCatch_ok; [done|]. by rewrite Hrun. }
      split_and!; [right; right; by eexists|done|by right].
  - destruct (correctAndWrap_total (trim t1)
                (mkState w1 (console st ++ [LogPreprocessStart 1])))
      as (corrected & w2 & _ & Hwrap).
    eexists _, _. split.
    { erewrite run_tryCatch_ok; [done|].
      by rewrite (attempts_first _ _ _ _ _ Hp1 Hr1 Hlong). }
    split_and!; [right; right; by eexists|done|by left].
Qed.

End WithCollaborators.

(** A recognition engine for buffers of the corrupt-input codec. *)
Definition unitRecognition : RecognitionEngine unit (list jsstring) := {|
  recognize _ w :=
    match w with
    | text :: rest => (Ok text, rest)
    | [] => (Throw (Error []), [])
    end;
|}.

Lemma recognition_first_attempt_witness :
  exists corrected w2,
    correctArabicOCRText greeting
      (mkState ([] : list jsstring) [LogPreprocessStart 1])
    = (Ok corrected, mkState w2 [LogPreprocessStart 1])
    /\ extractTextFromImageWithOCR (Buffer := PixelBuffer) [] []
         (mkState [greeting] [])
       = (Ok (OCR_HEADER ++ corrected), mkState w2 [LogPreprocessStart 1]).
Proof.
  exact (@recognition_first_attempt PixelBuffer (list jsstring)
           blankPageCodec cannedRecognition noCompletion [] []
           (mkState [greeting] []) (mkPixelBuffer 1 1 1 [255]) greeting []
           ltac:(vm_compute; reflexivity) eq_refl
           ltac:(vm_compute; discriminate)).
Defined.

Lemma recognition_failure_sentinel_witness :
  extractTextFromImageWithOCR (Buffer := unit) (World := list jsstring)
    (RecognitionEngine0 := unitRecognition) [] [] (mkState [greeting] [])
  = (Ok EXTRACTION_FAILED, mkState [greeting] [LogPreprocessStart 1]).
Proof.
  exact (proj1 (@recognition_failure_sentinel unit (list jsstring)
                  corruptInputCodec unitRecognition noCompletion [] []
                  (mkState [greeting] []))
           decodeError eq_refl).
Defined.

End RecognitionMore.

(** ** More on the document merger *)

Module MergerMore.

Import Corrector Merger JSProps ChunkingProps RunProps.

(** *** Chunk sizes *)

Lemma chunkEnd_upper (rawText : jsstring) (currentPos : Z) :
  0 <= currentPos ->
  chunkEnd rawText currentPos <= currentPos + MAX_CHARS_PER_CHUNK + 1.
Proof.
  intros Hpos. unfold chunkEnd.
  set (endPos := Z.min (currentPos + MAX_CHARS_PER_CHUNK) (strlen rawText)).
  pose proof (lastIndexOf_found rawText PERIOD endPos) as Hp.
  pose proof (lastIndexOf_found rawText NEWLINE endPos) as Hn.
  assert (0 <= strlen rawText) by (unfold strlen; lia).
  unfold MAX_CHARS_PER_CHUNK in *. change (6000 / 2) with 3000.
  simpl in Hp, Hn.
  destruct (endPos <? strlen rawText); [|lia].
  destruct (Z.gtb_spec
              (Z.max (lastIndexOf rawText PERIOD endPos)
                     (lastIndexOf rawText NEWLINE endPos))
              (currentPos + 3000)); lia.
Qed.

Lemma chunkEnd_nonfinal (rawText : jsstring) (currentPos : Z) :
  chunkEnd rawText currentPos < strlen rawText ->
  currentPos + MAX_CHARS_PER_CHUNK / 2 + 2 <= chunkEnd rawText currentPos.
Proof.
  unfold chunkEnd, MAX_CHARS_PER_CHUNK. change (6000 / 2) with 3000.
  set (endPos := Z.min (currentPos + 6000) (strlen rawText)).
  destruct (Z.ltb_spec endPos (strlen rawText)) as [Hend|Hend]; [|lia].
  destruct (Z.gtb_spec
              (Z.max (lastIndexOf rawText PERIOD endPos)
                     (lastIndexOf rawText NEWLINE endPos))
              (currentPos + 3000)); lia.
Qed.

Definition withinSize (c : jsstring) : Prop :=
  1 <= strlen c <= MAX_CHARS_PER_CHUNK + 1.

Definition pastMidpoint (c : jsstring) : Prop :=
  MAX_CHARS_PER_CHUNK / 2 + 2 <= strlen c.

Lemma chunkLoop_sizes (rawText : jsstring) (currentPos : Z)
  (chunks : list jsstring) :
  0 <= currentPos <= strlen rawText ->
  Forall withinSize chunks ->
  Forall pastMidpoint (removelast chunks) ->
  (currentPos < strlen rawText -> Forall pastMidpoint chunks) ->
  Forall withinSize (chunkLoop rawText currentPos chunks)
  /\ Forall pastMidpoint (removelast (chunkLoop rawText currentPos chunks)).
Proof.
  funelim (chunkLoop rawText currentPos chunks); intros Hpos Hsz Hmid Hopen.
  - pose proof (chunkEnd_gt rawText currentPos l) as Hgt.
    pose proof (chunkEnd_le rawText currentPos ltac:(lia)) as Hle.
    pose proof (chunkEnd_upper rawText currentPos ltac:(lia)) as Hup.
    assert (Hlen : strlen (slice rawText currentPos
                             (chunkEnd rawText currentPos))
                   = chunkEnd rawText currentPos - currentPos)
      by (apply strlen_slice; lia).
    apply H.
    + lia.
    + apply Forall_app. split; [done|]. constructor; [|done].
      unfold withinSize. lia.
    + rewrite removelast_last. by apply Hopen.
    + intros Hmore. apply Forall_app. split; [by apply Hopen|].
      constructor; [|done]. unfold pastMidpoint.
      pose proof (chunkEnd_nonfinal rawText currentPos Hmore). lia.
  - done.
Qed.

(** X14.  Every chunk the splitting loop produces has between 1 and
    6001 characters, and every chunk but the last has at least 3002. *)
Theorem chunk_sizes (rawText : jsstring) :
  Forall (fun c => 1 <= strlen c <= MAX_CHARS_PER_CHUNK + 1)
    (splitIntoChunks rawText)
  /\ Forall (fun c => MAX_CHARS_PER_CHUNK / 2 + 2 <= strlen c)
       (removelast (splitIntoChunks rawText)).
Proof.
  apply (chunkLoop_sizes rawText 0 []); try done.
  unfold strlen. lia.
Qed.

(** The upper bound is reached: a full stop at index 6000 is taken
    into the first chunk. *)
Definition stopAtBoundary : jsstring :=
  replicate (Z.to_nat 6000) 97%N ++ [PERIOD] ++ replicate 999 98%N.

Example stopAtBoundary_chunks :
  map strlen (splitIntoChunks stopAtBoundary) = [6001; 999].
Proof. vm_compute. reflexivity. Qed.

(** *** The merge as a whole *)

(** A processed chunk is the chunk itself or a non-empty, trimmed reply
    of the completion service. *)
Definition cleanedOrRaw (chunk processed : jsstring) : Prop :=
  processed = chunk
  \/ (processed <> [] /\ exists reply, processed = trim reply).

Lemma trimmedContent_Some (content : option jsstring) (t : jsstring) :
  trimmedContent content = Some t ->
  t <> [] /\ exists reply, content = Some reply /\ t = trim reply.
Proof.
  unfold trimmedContent. destruct content as [reply|]; [|done].
  destruct (trim reply) as [|c r] eqn:E; [done|].
  intros [= <-]. split; [done|]. by exists reply.
Qed.

Lemma strlen_join (sep : jsstring) (parts : list jsstring) :
  parts <> [] ->
  strlen (join sep parts)
  = strlen (concat parts) + strlen sep * (Z.of_nat (length parts) - 1).
Proof.
  induction parts as [|p rest IH]; [done|]. intros _.
  destruct rest as [|q rest].
  - simpl. rewrite app_nil_r. lia.
  - change (join sep (p :: q :: rest)) with (p ++ sep ++ join sep (q :: rest)).
    change (concat (p :: q :: rest)) with (p ++ concat (q :: rest)).
    unfold strlen in *. rewrite !length_app, !Nat2Z.inj_add, IH by done.
    simpl length. lia.
Qed.

Section WithCompletion.
Context {World : Type} `{!TextCompletion World}.

Lemma mapIndexed_total {A B : Type} (f : Z -> A -> M World B)
  (R : A -> B -> Prop) :
  (forall i a st, exists b w',
      f i a st = (Ok b, mkState w' (console st)) /\ R a b) ->
  forall items i st, exists bs w',
    mapIndexed f i items st = (Ok bs, mkState w' (console st))
    /\ Forall2 R items bs.
Proof.
  intros Hf. induction items as [|a rest IH]; intros i st.
  - exists [], (world st). split; [by destruct st|constructor].
  - destruct (Hf i a st) as (b & w1 & Hb & HR).
    destruct (IH (i + 1) (mkState w1 (console st))) as (bs & w2 & Hbs & HRs).
    exists (b :: bs), w2. split; [|by constructor].
    simpl. erewrite run_bind_ok; [|done]. by erewrite run_bind_ok.
Qed.

(** One iteration of the processing loop never rejects. *)
Lemma clean_or_keep (chunk : jsstring) (isFirst isLast : bool)
  (st : State World) :
  exists processed w',
    tryCatchM (cleanPDFChunk chunk isFirst isLast) (fun _ => mret chunk) st
    = (Ok processed, mkState w' (console st))
    /\ cleanedOrRaw chunk processed.
Proof.
  unfold tryCatchM, cleanPDFChunk, callWorld, mbind, M_bind.
  destruct (chatCompletion (CleanPrompt chunk isFirst isLast) (world st))
    as [[c|e] w'].
  - destruct (trimmedContent c) as [t|] eqn:E.
    + apply trimmedContent_Some in E as (Hne & reply & _ & ->).
      eexists _, _. split; [done|]. right. split; [done|]. by eexists.
    + eexists _, _. split; [done|]. by left.
  - eexists _, _. split; [done|]. by left.
Qed.

Lemma merge_single (rawText : jsstring) (numPages : Z) (st : State World) :
  exists merged w',
    processSingleChunk rawText numPages st
    = (Ok merged, mkState w' (console st))
    /\ cleanedOrRaw rawText merged.
Proof.
  unfold processSingleChunk, tryCatchM, callWorld, mbind, M_bind.
  destruct (chatCompletion (MergePrompt rawText numPages) (world st))
    as [[c|e] w'].
  - destruct (trimmedContent c) as [t|] eqn:E.
    + apply trimmedContent_Some in E as (Hne & reply & _ & ->).
      eexists _, _. split; [done|]. right. split; [done|]. by eexists.
    + eexists _, _. split; [done|]. by left.
  - eexists _, _. split; [done|]. by left.
Qed.

(** The merge never rejects and leaves the console alone; without a
    key, or on a text of fewer than 50 characters, it is the identity
    and leaves the world alone too. *)
Lemma merge_resolves (rawText : jsstring) (numPages : Z) (st : State World) :
  exists merged w',
    smartMergeMultiPagePDF rawText numPages st
    = (Ok merged, mkState w' (console st))
    /\ (noApiKey = true \/ strlen rawText < 50 ->
        merged = rawText /\ w' = world st).
Proof.
  unfold smartMergeMultiPagePDF.
  destruct noApiKey; [exists rawText, (world st); by destruct st|].
  destruct (Z.ltb_spec (strlen rawText) 50);
    [exists rawText, (world st); by destruct st|].
  destruct (strlen rawText <=? MAX_CHARS_PER_CHUNK).
  - destruct (merge_single rawText numPages st) as (merged & w' & E & _).
    exists merged, w'. split; [done|]. intros [?|?]; [done|lia].
  - destruct (mapIndexed_total
                (fun i chunk =>
                   tryCatchM
                     (cleanPDFChunk chunk (i =? 0)
                        (i =? Z.of_nat (length (splitIntoChunks rawText)) - 1))
                     (fun _ => mret chunk))
                cleanedOrRaw
                (fun i a st => clean_or_keep a _ _ st)
                (splitIntoChunks rawText) 0 st) as (bs & w' & E & _).
    eexists _, w'. split; [by erewrite run_bind_ok|].
    intros [?|?]; [done|lia].
Qed.


(** The completion service yields nothing usable: each call rejects, or
    resolves to an absent, empty or blank content. *)
Definition noUsableReply : Prop :=
  forall (prompt : Prompt) (w : World),
    match fst (chatCompletion prompt w) with
    | Ok content => trimmedContent content = None
    | Throw _ => True
    end.

Lemma clean_keeps (chunk : jsstring) (isFirst isLast : bool)
  (st : State World) :
  noUsableReply ->
  exists processed w',
    tryCatchM (cleanPDFChunk chunk isFirst isLast) (fun _ => mret chunk) st
    = (Ok processed, mkState w' (console st))
    /\ chunk = processed.
Proof.
  intros Hnone. specialize (Hnone (CleanPrompt chunk isFirst isLast) (world st)).
  unfold tryCatchM, cleanPDFChunk, callWorld, mbind, M_bind.
  destruct (chatCompletion (CleanPrompt chunk isFirst isLast) (world st))
    as [[c|e] w']; simpl in Hnone.
  - rewrite Hnone. by eexists _, _.
  - by eexists _, _.
Qed.

(** X16.  When the completion service yields nothing usable, a text of
    50 to 6000 characters comes back unchanged, but a longer one comes
    back with a blank line inserted at every chunk boundary: the result
    is the chunks joined by two newlines, two characters longer than
    the text for every chunk after the first. *)
Theorem merge_fallback_inserts_blank_lines (rawText : jsstring)
  (numPages : Z) (st : State World) :
  noApiKey = false -> noUsableReply -> 50 <= strlen rawText ->
  exists merged st',
    smartMergeMultiPagePDF rawText numPages st = (Ok merged, st')
    /\ (strlen rawText <= MAX_CHARS_PER_CHUNK -> merged = rawText)
    /\ (MAX_CHARS_PER_CHUNK < strlen rawText ->
        merged = join [NEWLINE; NEWLINE] (splitIntoChunks rawText)
        /\ strlen merged
           = strlen rawText
             + 2 * (Z.of_nat (length (splitIntoChunks rawText)) - 1)).
Proof.
  intros Hkey Hnone Hlen. unfold smartMergeMultiPagePDF. rewrite Hkey.
  destruct (Z.ltb_spec (strlen rawText) 50); [lia|].
  destruct (Z.leb_spec (strlen rawText) MAX_CHARS_PER_CHUNK).
  - specialize (Hnone (MergePrompt rawText numPages) (world st)).
    unfold processSingleChunk, tryCatchM, callWorld, mbind, M_bind.
    destruct (chatCompletion (MergePrompt rawText numPages) (world st))
      as [[c|e] w']; simpl in Hnone.
    + rewrite Hnone. eexists _, _. split; [done|]. split; [done|lia].
    + eexists _, _. split; [done|]. split; [done|lia].
  - destruct (mapIndexed_total
                (fun i chunk =>
                   tryCatchM
                     (cleanPDFChunk chunk (i =? 0)
                        (i =? Z.of_nat (length (splitIntoChunks rawText)) - 1))
                     (fun _ => mret chunk))
                eq
                (fun i a st => clean_keeps a _ _ st Hnone)
                (splitIntoChunks rawText) 0 st) as (bs & w' & E & Hsame).
    apply list_eq_Forall2 in Hsame as <-.
    eexists _, _. split; [by erewrite run_bind_ok|].
    split; [lia|]. intros _. split; [done|].
    destruct (chunkLoop_correct rawText 0 []) as (Hcat & Hne & _).
    { unfold strlen. lia. }
    { done. }
    { constructor. }
    { intros pre c post Heq. by destruct pre. }
    fold (splitIntoChunks rawText) in Hcat, Hne.
    rewrite strlen_join.
    + rewrite Hcat. change (strlen [NEWLINE; NEWLINE]) with 2. lia.
    + intros E0. rewrite E0 in Hcat. simpl in Hcat. subst rawText.
      unfold strlen in Hlen. simpl in Hlen. lia.
Qed.

End WithCompletion.

(** A completion service with a key configured that is out of
    service. *)
Definition unreachableCompletion : TextCompletion unit := {|
  GROQ_API_KEY := Some [107%N];
  chatCompletion _ w := (Throw (Error []), w);
|}.


Lemma merge_fallback_inserts_blank_lines_witness :
  exists merged st',
    @smartMergeMultiPagePDF unit unreachableCompletion sampleText 2
      (mkState tt [])
    = (Ok merged, st')
    /\ (MAX_CHARS_PER_CHUNK < strlen sampleText ->
        merged = join [NEWLINE; NEWLINE] (splitIntoChunks sampleText)
        /\ strlen merged
           = strlen sampleText
             + 2 * (Z.of_nat (length (splitIntoChunks sampleText)) - 1)).
Proof.
  destruct (@merge_fallback_inserts_blank_lines unit unreachableCompletion
              sampleText 2 (mkState tt []) eq_refl
              (fun _ _ => I) ltac:(vm_compute; discriminate))
    as (merged & st' & E & _ & Hlong).
  exists merged, st'. split; [exact E|exact Hlong].
Defined.

(** The fallback on the sample text: 8001 characters become 8003. *)
Example sampleText_fallback :
  strlen sampleText = 8001
  /\ fst (@smartMergeMultiPagePDF unit unreachableCompletion sampleText 2
            (mkState tt []))
     = Ok (replicate 4000 97%N ++ [PERIOD; NEWLINE; NEWLINE]
           ++ replicate 4000 98%N).
Proof. split; vm_compute; reflexivity. Qed.

End MergerMore.

(** ** More on heading detection *)

Module StructureMore.

Import Corrector Structure JSProps RunProps CorrectorProps StructureProps.

Section WithRuntime.
Context `{!JsonRuntime}.
Context {World : Type} `{!TextCompletion World}.

Lemma sectionText_null : sectionText JNull = Throw typeError.
Proof. reflexivity. Qed.

Lemma mapOutcome_null (items : list JSValue) :
  JNull ∈ items -> exists e, mapOutcome sectionText items = Throw e.
Proof.
  induction items as [|s rest IH]; intros Hin.
  - by apply elem_of_nil in Hin.
  - apply elem_of_cons in Hin as [<-|Hin]; [by eexists|].
    destruct (IH Hin) as (e & E). simpl.
    destruct (sectionText s); [|by eexists]. simpl. rewrite E. by eexists.
Qed.

Lemma mapOutcome_Ok (items : list JSValue) (texts : list jsstring) :
  mapOutcome sectionText items = Ok texts ->
  (JNull ∉ items) /\ length texts = length items.
Proof.
  revert texts. induction items as [|s rest IH]; intros texts.
  - intros [= <-]. split; [apply not_elem_of_nil|done].
  - simpl. destruct (sectionText s) as [t|] eqn:Es; [|done]. simpl.
    destruct (mapOutcome sectionText rest) as [ts|] eqn:Er; [|done].
    intros [= <-]. destruct (IH ts eq_refl) as [Hnot Hlen].
    split; [|by simpl; rewrite Hlen].
    apply not_elem_of_cons. split; [|done].
    intros <-. by rewrite sectionText_null in Es.
Qed.

(** A value on which building the plain text must throw: [map] is
    missing, or a section is [null]. *)
Definition notSections (v : JSValue) : Prop :=
  match v with
  | JArray items => JNull ∈ items
  | _ => True
  end.

Lemma sectionsPlainText_throws (v : JSValue) :
  notSections v -> exists e, sectionsPlainText v = Throw e.
Proof.
  destruct v as [| | | |items|]; simpl; try by eexists.
  intros Hin. destruct (mapOutcome_null items Hin) as (e & E).
  rewrite E. by eexists.
Qed.

(** The detector's result once the collaborator's answer is known. *)
Lemma detect_after_reply (rawText : jsstring) (st : State World)
  (r : Outcome (option jsstring)) (w' : World) :
  noApiKey = false -> 100 <= strlen rawText ->
  chatCompletion
    (HeadingPrompt (if strlen rawText >? MAX_CHARS
                    then slice rawText 0 MAX_CHARS else rawText))
    (world st) = (r, w') ->
  detectHeadingsFromText rawText st
  = (Ok match r with
        | Ok content =>
            match trimmedContent content with
            | Some responseText => structured rawText responseText
            | None => defaultResult rawText
            end
        | Throw _ => defaultResult rawText
        end,
     mkState w' (console st)).
Proof.
  intros Hkey Hlen Hcall. unfold detectHeadingsFromText. rewrite Hkey.
  destruct (Z.ltb_spec (strlen rawText) 100); [lia|].
  unfold tryCatchM, mbind, M_bind. rewrite (run_callWorld _ _ _ _ Hcall).
  destruct r as [content|e]; [|done].
  destruct (trimmedContent content) as [responseText|]; [|done].
  unfold liftOutcome, structured.
  by destruct (structureResponse rawText responseText).
Qed.

(** X17.  Heading detection never rejects.  Its result is the
    single-section fallback or a document whose sections are a parsed
    array without a [null] entry; without a key, or on a text of fewer
    than 100 characters, it is the fallback and the completion service
    is not called. *)
Theorem heading_detection_resolves (rawText : jsstring) (st : State World) :
  exists doc st',
    detectHeadingsFromText rawText st = (Ok doc, st')
    /\ (doc = defaultResult rawText
        \/ exists items, sections doc = JArray items /\ (JNull ∉ items))
    /\ (noApiKey = true \/ strlen rawText < 100 ->
        doc = defaultResult rawText /\ world st' = world st).
Proof.
  destruct noApiKey eqn:Hkey.
  { exists (defaultResult rawText), st.
    unfold detectHeadingsFromText. rewrite Hkey.
    split; [done|]. split; [by left|done]. }
  destruct (Z.lt_ge_cases (strlen rawText) 100) as [Hshort|Hlen].
  { exists (defaultResult rawText), st.
    unfold detectHeadingsFromText. rewrite Hkey.
    destruct (Z.ltb_spec (strlen rawText) 100); [|lia].
    split; [done|]. split; [by left|done]. }
  destruct (chatCompletion
              (HeadingPrompt (if strlen rawText >? MAX_CHARS
                              then slice rawText 0 MAX_CHARS else rawText))
              (world st)) as [r w'] eqn:Hcall.
  eexists _, _. split; [by apply detect_after_reply|].
  split; [|intros [?|?]; [done|lia]].
  destruct r as [content|e]; [|by left].
  destruct (trimmedContent content) as [responseText|]; [|by left].
  unfold structured, structureResponse.
  destruct (matchJsonArray responseText) as [m|]; [|by left].
  destruct (JSON_parse m) as [parsed|e]; [|by left].
  destruct parsed as [| | | |items|]; try by left.
  simpl. destruct (mapOutcome sectionText items) as [texts|e] eqn:E;
    [|by left].
  right. exists items. split; [done|]. by apply mapOutcome_Ok in E as [? _].
Qed.

(** X18.  When the span extracted from the reply parses to a value
    that is not an array, or to an array with a [null] entry, building
    the plain text throws and the detector returns the fallback. *)
Theorem unusable_sections_give_fallback (rawText : jsstring)
  (st : State World) (content m : jsstring) (parsed : JSValue) (w' : World) :
  noApiKey = false -> 100 <= strlen rawText ->
  chatCompletion
    (HeadingPrompt (if strlen rawText >? MAX_CHARS
                    then slice rawText 0 MAX_CHARS else rawText))
    (world st) = (Ok (Some content), w') ->
  matchJsonArray (trim content) = Some m ->
  JSON_parse m = Ok parsed ->
  notSections parsed ->
  detectHeadingsFromText rawText st
  = (Ok (defaultResult rawText), mkState w' (console st)).
Proof.
  intros Hkey Hlen Hcall Hm Hp Hbad.
  rewrite (detect_after_reply _ _ _ _ Hkey Hlen Hcall). f_equal. f_equal.
  unfold trimmedContent. destruct (trim content) as [|c rest] eqn:Et; [done|].
  unfold structured, structureResponse. rewrite Hm, Hp.
  destruct (sectionsPlainText_throws parsed Hbad) as (e & ->). done.
Qed.

(** X19.  Only the first 8000 characters of a text reach the completion
    service: two texts longer than that which agree on their first
    8000 characters leave the same state behind, and either both get
    their own fallback or both get the same structured document. *)
Theorem text_beyond_limit_is_not_read (a b : jsstring) (st : State World) :
  MAX_CHARS < strlen a -> MAX_CHARS < strlen b ->
  take (Z.to_nat MAX_CHARS) a = take (Z.to_nat MAX_CHARS) b ->
  exists st',
    (detectHeadingsFromText a st = (Ok (defaultResult a), st')
     /\ detectHeadingsFromText b st = (Ok (defaultResult b), st'))
    \/ (exists doc,
          detectHeadingsFromText a st = (Ok doc, st')
          /\ detectHeadingsFromText b st = (Ok doc, st')).
Proof.
  intros Ha Hb Hsame. unfold MAX_CHARS in *.
  destruct noApiKey eqn:Hkey.
  { exists st. left. unfold detectHeadingsFromText. by rewrite Hkey. }
  assert (Hprompt : forall t : jsstring, 8000 < strlen t ->
            (if strlen t >? MAX_CHARS then slice t 0 MAX_CHARS else t)
            = take (Z.to_nat 8000) t).
  { intros t Ht. unfold MAX_CHARS.
    destruct (Z.gtb_spec (strlen t) 8000); [|lia].
    rewrite slice_inrange by lia. by rewrite drop_0. }
  destruct (chatCompletion (HeadingPrompt (take (Z.to_nat 8000) a)) (world st))
    as [r w'] eqn:Hcall.
  exists (mkState w' (console st)).
  rewrite (detect_after_reply a st r w' Hkey ltac:(lia))
    by (by rewrite Hprompt).
  rewrite (detect_after_reply b st r w' Hkey ltac:(lia))
    by (by rewrite Hprompt, <- Hsame).
  destruct r as [content|e]; [|by left].
  destruct (trimmedContent content) as [responseText|]; [|by left].
  unfold structured, structureResponse.
  destruct (matchJsonArray responseText) as [m|]; [|by left].
  destruct (JSON_parse m) as [parsed|e]; [|by left].
  destruct (sectionsPlainText parsed) as [text|e]; [|by left].
  right. by eexists.
Qed.

End WithRuntime.

(** "[null]" *)
Definition nullArray : jsstring :=
  [LBRACKET; 110; 117; 108; 108; RBRACKET]%N.

(** A [JSON.parse] that knows the texts "[]" and "[null]" only. *)
Definition smallJson : JsonRuntime := {|
  JSON_parse s :=
    if decide (s = [LBRACKET; RBRACKET]) then Ok (JArray [])
    else if decide (s = nullArray) then Ok (JArray [JNull])
    else Throw (Error []);
  numberToString _ := [];
|}.

(** A section whose title is an object with a "toString" entry cannot
    be printed: the template literal throws. *)
Example unprintable_title :
  @sectionText smallJson
    (JObject [(str_title, JObject [(str_toString, JNull)])])
  = Throw typeError.
Proof. reflexivity. Qed.

(** Two texts of 8001 characters that differ in the last one. *)
Definition longA : jsstring := replicate (Z.to_nat 8001) 97%N.
Definition longB : jsstring := replicate (Z.to_nat 8000) 97%N ++ [98%N].

Lemma heading_detection_resolves_witness :
  exists doc st',
    @detectHeadingsFromText smallJson _ cannedCompletion longText
      (mkState [Some nullArray] [])
    = (Ok doc, st').
Proof.
  destruct (@heading_detection_resolves smallJson _ cannedCompletion longText
              (mkState [Some nullArray] [])) as (doc & st' & E & _).
  exists doc, st'. exact E.
Defined.

Lemma unusable_sections_give_fallback_witness :
  @detectHeadingsFromText smallJson _ cannedCompletion longText
    (mkState [Some nullArray] [])
  = (Ok (defaultResult longText), mkState [] []).
Proof.
  exact (@unusable_sections_give_fallback smallJson _ cannedCompletion
           longText (mkState [Some nullArray] []) nullArray nullArray
           (JArray [JNull]) [] eq_refl ltac:(vm_compute; discriminate)
           eq_refl eq_refl eq_refl ltac:(simpl; apply list_elem_of_here)).
Defined.

Lemma text_beyond_limit_is_not_read_witness :
  exists st',
    (@detectHeadingsFromText smallJson _ cannedCompletion longA
       (mkState [Some [LBRACKET; RBRACKET]] [])
     = (Ok (defaultResult longA), st')
     /\ @detectHeadingsFromText smallJson _ cannedCompletion longB
          (mkState [Some [LBRACKET; RBRACKET]] [])
        = (Ok (defaultResult longB), st'))
    \/ (exists doc,
          @detectHeadingsFromText smallJson _ cannedCompletion longA
            (mkState [Some [LBRACKET; RBRACKET]] [])
          = (Ok doc, st')
          /\ @detectHeadingsFromText smallJson _ cannedCompletion longB
               (mkState [Some [LBRACKET; RBRACKET]] [])
             = (Ok doc, st')).
Proof.
  exact (@text_beyond_limit_is_not_read smallJson _ cannedCompletion
           longA longB (mkState [Some [LBRACKET; RBRACKET]] [])
           ltac:(vm_compute; reflexivity) ltac:(vm_compute; reflexivity)
           ltac:(vm_compute; reflexivity)).
Defined.

End StructureMore.

(** ** The file readers *)

Module FilesProps.

Import Corrector Merger Recognition Files JSProps RunProps RecognitionProps
  MergerMore Stubs.

(** *** The masked key *)

(** X20.  The masked key written to the console shows the first eight
    and the last four characters of the key.  For a key of at least
    twelve characters that is a 15-character string that depends on
    nothing else; a key of at most eight characters is shown in
    full. *)
Theorem masked_key_shows_ends (key : jsstring) :
  maskedKey key
  = take 8 key ++ ELLIPSIS ++ drop (length key - 4) key
  /\ (12 <= strlen key -> strlen (maskedKey key) = 15)
  /\ (strlen key <= 8 ->
      maskedKey key = key ++ ELLIPSIS ++ drop (length key - 4) key).
Proof.
  assert (Hlen0 : 0 <= strlen key) by (unfold strlen; lia).
  assert (Ehead : slice key 0 8 = take 8 key).
  { unfold slice, relIndex.
    change (0 <? 0) with false. change (8 <? 0) with false. cbv iota.
    rewrite (Z.min_l 0) by lia. rewrite Z.sub_0_r. change (Z.to_nat 0) with 0%nat.
    rewrite drop_0.
    destruct (Z.min_spec 8 (strlen key)) as [[? ->]|[? ->]]; [done|].
    unfold strlen in *. rewrite Nat2Z.id. by rewrite !take_ge by lia. }
  assert (Etail : slice key (-4) (strlen key) = drop (length key - 4) key).
  { unfold slice, relIndex.
    change (-4 <? 0) with true. cbv iota.
    destruct (Z.ltb_spec (strlen key) 0); [lia|].
    rewrite Z.min_id.
    replace (Z.to_nat (Z.max (strlen key + -4) 0))
      with (length key - 4)%nat by (unfold strlen; lia).
    apply take_ge. rewrite length_drop. unfold strlen. lia. }
  assert (E : maskedKey key
              = take 8 key ++ ELLIPSIS ++ drop (length key - 4) key).
  { unfold maskedKey. by rewrite Ehead, Etail. }
  split; [done|]. split.
  - intros Hlen. rewrite E. unfold strlen in *.
    rewrite !length_app, length_take, length_drop.
    change (length ELLIPSIS) with 3%nat. lia.
  - intros Hlen. rewrite E. f_equal. apply take_ge. unfold strlen in Hlen. lia.
Qed.

(** "gsk_12345678abcd", a key of sixteen characters, and "secret". *)
Definition sampleKey : jsstring :=
  [103; 115; 107; 95; 49; 50; 51; 52; 53; 54; 55; 56; 97; 98; 99; 100]%N.
Definition shortKey : jsstring := [115; 101; 99; 114; 101; 116]%N.

Lemma masked_key_shows_ends_witness :
  strlen (maskedKey sampleKey) = 15
  /\ maskedKey shortKey = shortKey ++ ELLIPSIS ++ drop 2 shortKey.
Proof.
  split.
  - exact (proj1 (proj2 (masked_key_shows_ends sampleKey))
             ltac:(vm_compute; discriminate)).
  - exact (proj2 (proj2 (masked_key_shows_ends shortKey))
             ltac:(vm_compute; discriminate)).
Defined.

Section WithCollaborators.
Context {Buffer World : Type}.
Context `{!ImageCodec Buffer, !RecognitionEngine Buffer World,
          !TextCompletion World, !DocumentReaders Buffer World}.

(** *** The PDF and Word readers *)

(** The PDF reader once the parser has answered. *)
Lemma pdf_reader_parsed (base64Data : jsstring) (st : State World)
  (text : jsstring) (numpages : Z) (w1 : World) :
  pdfParse (fromBase64 base64Data) (world st) = (Ok (text, numpages), w1) ->
  extractTextFromPDF base64Data st
  = tryCatchM
      (if (1 <? numpages) && negb noApiKey
       then smartMergeMultiPagePDF text numpages
       else mret text)
      (fun _ => throwM (Error PDF_READ_FAILED))
      (mkState w1 (console st)).
Proof.
  intros Hparse. unfold extractTextFromPDF, tryCatchM, mbind, M_bind.
  by rewrite (run_callWorld _ _ _ _ Hparse).
Qed.

Lemma pdf_reader_rejected (base64Data : jsstring) (st : State World)
  (e : Exn) (w1 : World) :
  pdfParse (fromBase64 base64Data) (world st) = (Throw e, w1) ->
  extractTextFromPDF base64Data st
  = (Throw (Error PDF_READ_FAILED), mkState w1 (console st)).
Proof.
  intros Hparse. unfold extractTextFromPDF.
  erewrite run_tryCatch_throw; [done|].
  erewrite run_bind_throw; [done|]. by apply run_callWorld.
Qed.

(** The error the PDF reader rejects with, if it does. *)
Lemma pdf_reader_error (base64Data : jsstring) (st st' : State World)
  (e : Exn) :
  extractTextFromPDF base64Data st = (Throw e, st') ->
  e = Error PDF_READ_FAILED.
Proof.
  destruct (pdfParse (fromBase64 base64Data) (world st))
    as [[[text n]|e0] w1] eqn:Hp.
  - rewrite (pdf_reader_parsed _ _ _ _ _ Hp). unfold tryCatchM.
    destruct ((1 <? n) && negb noApiKey); [|done].
    destruct (merge_resolves text n (mkState w1 (console st)))
      as (merged & w2 & -> & _). done.
  - rewrite (pdf_reader_rejected _ _ _ _ Hp). congruence.
Qed.

(** X21.  Reading a PDF rejects exactly when the parser rejects, and
    then with the fixed message.  Otherwise it resolves; for a document
    of one page, without a key, or with fewer than 50 characters of
    text, the result is the parsed text and the completion service is
    not called. *)
Theorem pdf_reader_outcomes (base64Data : jsstring) (st : State World)
  (r : Outcome (jsstring * Z)) (w1 : World) :
  pdfParse (fromBase64 base64Data) (world st) = (r, w1) ->
  match r with
  | Throw _ =>
      exists st',
        extractTextFromPDF base64Data st
        = (Throw (Error PDF_READ_FAILED), st')
        /\ world st' = w1
  | Ok (text, numpages) =>
      exists merged st',
        extractTextFromPDF base64Data st = (Ok merged, st')
        /\ (numpages <= 1 \/ noApiKey = true \/ strlen text < 50 ->
            merged = text /\ world st' = w1)
  end.
Proof.
  intros Hparse. destruct r as [[text numpages]|e].
  - rewrite (pdf_reader_parsed _ _ _ _ _ Hparse).
    destruct (merge_resolves text numpages (mkState w1 (console st)))
      as (merged & w2 & Hmerge & Hsame).
    destruct ((1 <? numpages) && negb noApiKey) eqn:Hmulti.
    + eexists merged, _. split; [by erewrite run_tryCatch_ok|].
      apply andb_true_iff in Hmulti as [Hn Hk].
      apply Z.ltb_lt in Hn. apply negb_true_iff in Hk.
      intros [?|[?|?]]; [lia|congruence|]. apply Hsame. by right.
    + by eexists text, _.
  - eexists. split; [by eapply pdf_reader_rejected|done].
Qed.

Lemma docx_reader_outcomes (base64Data : jsstring) (st : State World)
  (r : Outcome jsstring) (w1 : World) :
  extractRawText (fromBase64 base64Data) (world st) = (r, w1) ->
  extractTextFromDOCX base64Data st
  = (match r with
     | Ok text => Ok text
     | Throw _ => Throw (Error DOCX_READ_FAILED)
     end, mkState w1 (console st)).
Proof.
  intros Hread. unfold extractTextFromDOCX, tryCatchM.
  rewrite (run_callWorld _ _ _ _ Hread). by destruct r.
Qed.

Lemma extract_resolves (base64Data mimeType : jsstring) (st : State World) :
  exists s st',
    extractTextFromImageWithOCR base64Data mimeType st = (Ok s, st').
Proof.
  rewrite extract_unfold. unfold tryCatchM.
  destruct (attempts base64Data st) as [[s|e] st']; by eexists _, _.
Qed.

(** *** The dispatch on the media type *)

Lemma image_type_is_no_document (mimeType : jsstring) :
  startsWith mimeType IMAGE_PREFIX = true ->
  mimeType <> MIME_PDF /\ mimeType <> MIME_DOCX /\ mimeType <> MIME_DOC
  /\ mimeType <> MIME_TEXT /\ mimeType <> MIME_MARKDOWN.
Proof.
  intros H. repeat split; intros ->; vm_compute in H; discriminate.
Qed.

(** X22.  [processFileContent] rejects only for the PDF type, with the
    PDF message, and for the two Word types, with the Word message. *)
Theorem dispatch_rejections (base64Data mimeType fileName : jsstring)
  (st st' : State World) (e : Exn) :
  processFileContent base64Data mimeType fileName st = (Throw e, st') ->
  (mimeType = MIME_PDF /\ e = Error PDF_READ_FAILED)
  \/ ((mimeType = MIME_DOCX \/ mimeType = MIME_DOC)
      /\ e = Error DOCX_READ_FAILED).
Proof.
  unfold processFileContent.
  destruct (bool_decide_reflect (mimeType = MIME_PDF)) as [Hpdf|_].
  { intros Hrun. left. split; [done|]. by eapply pdf_reader_error. }
  destruct (bool_decide (mimeType = MIME_DOCX)
            || bool_decide (mimeType = MIME_DOC)) eqn:Hdoc.
  { intros Hrun. right. split.
    - apply orb_true_iff in Hdoc as [Hd|Hd]; apply bool_decide_eq_true in Hd;
        [by left|by right].
    - destruct (extractRawText (fromBase64 base64Data) (world st))
        as [r w1] eqn:Hr.
      rewrite (docx_reader_outcomes _ _ _ _ Hr) in Hrun.
      destruct r; congruence. }
  destruct (bool_decide (mimeType = MIME_TEXT)
            || bool_decide (mimeType = MIME_MARKDOWN)); [done|].
  destruct (startsWith mimeType IMAGE_PREFIX); [|done].
  intros Hrun.
  destruct (extract_resolves base64Data mimeType st) as (s & st1 & E).
  congruence.
Qed.

(** X24.  Every media type that starts with "image/" goes to
    recognition, whatever follows the prefix, and so never rejects: the
    result is one of the two sentinels or the header line followed by
    the recognised text. *)
Theorem image_types_go_to_recognition (base64Data mimeType fileName : jsstring)
  (st : State World) :
  startsWith mimeType IMAGE_PREFIX = true ->
  processFileContent base64Data mimeType fileName st
  = extractTextFromImageWithOCR base64Data mimeType st
  /\ exists s st',
       processFileContent base64Data mimeType fileName st = (Ok s, st').
Proof.
  intros Himg.
  destruct (image_type_is_no_document mimeType Himg)
    as (Hpdf & Hdocx & Hdoc & Htext & Hmd).
  assert (E : processFileContent base64Data mimeType fileName st
              = extractTextFromImageWithOCR base64Data mimeType st).
  { unfold processFileContent.
    rewrite !bool_decide_eq_false_2 by done. simpl. by rewrite Himg. }
  split; [done|]. rewrite E. apply extract_resolves.
Qed.

End WithCollaborators.

(** Readers for the stub codec: the PDF parser rejects, the Word reader
    answers with the world's text. *)
Definition brokenPdfReaders : DocumentReaders PixelBuffer (list jsstring) := {|
  pdfParse _ w := (Throw decodeError, w);
  extractRawText _ w := (Ok (concat w), w);
  utf8ToString _ := [];
|}.

(** "image/x-unknown" and "clip.mp4" *)
Definition MIME_ODD_IMAGE : jsstring :=
  [105; 109; 97; 103; 101; 47; 120; 45; 117; 110; 107; 110; 111; 119; 110]%N.
Definition clipName : jsstring := [99; 108; 105; 112; 46; 109; 112; 52]%N.

Lemma pdf_reader_outcomes_witness :
  exists st',
    @extractTextFromPDF PixelBuffer (list jsstring) blankPageCodec
      noCompletion brokenPdfReaders [] (mkState [] [])
    = (Throw (Error PDF_READ_FAILED), st')
    /\ world st' = [].
Proof.
  exact (@pdf_reader_outcomes PixelBuffer (list jsstring) blankPageCodec
           noCompletion brokenPdfReaders [] (mkState [] [])
           (Throw decodeError) [] eq_refl).
Defined.

Lemma dispatch_rejections_witness :
  (MIME_PDF = MIME_PDF /\ Error PDF_READ_FAILED = Error PDF_READ_FAILED)
  \/ ((MIME_PDF = MIME_DOCX \/ MIME_PDF = MIME_DOC)
      /\ Error PDF_READ_FAILED = Error DOCX_READ_FAILED).
Proof.
  exact (@dispatch_rejections PixelBuffer (list jsstring) blankPageCodec
           cannedRecognition noCompletion brokenPdfReaders [] MIME_PDF []
           (mkState [] []) (mkState [] []) (Error PDF_READ_FAILED)
           ltac:(vm_compute; reflexivity)).
Defined.

Lemma image_types_go_to_recognition_witness :
  @processFileContent PixelBuffer (list jsstring) blankPageCodec
    cannedRecognition noCompletion brokenPdfReaders [] MIME_ODD_IMAGE clipName
    (mkState [greeting] [])
  = @extractTextFromImageWithOCR PixelBuffer (list jsstring) blankPageCodec
      cannedRecognition noCompletion [] MIME_ODD_IMAGE (mkState [greeting] []).
Proof.
  exact (proj1 (@image_types_go_to_recognition PixelBuffer (list jsstring)
                  blankPageCodec cannedRecognition noCompletion
                  brokenPdfReaders [] MIME_ODD_IMAGE clipName
                  (mkState [greeting] [])
                  ltac:(vm_compute; reflexivity))).
Defined.

End FilesProps.
